(** * logic_parser: a shallow embedding of [src/logic_parser.cpp]

    The development follows the source file top to bottom: the [Node]
    structure, the helper predicates, the tokenizer, the infix-to-prefix
    converter, the tree builder, the evaluator, the truth-table generator,
    the three CNF passes and the clause analysis.  Theorems come after the
    definitions. *)

From Equations Require Import Equations.
From Stdlib Require Import ZArith Lia Ascii String OrdersEx Sorted Permutation.
From stdpp Require Import gmap strings list.

Local Open Scope string_scope.
Local Open Scope list_scope.

(* ===================================================================== *)
(** * Part I: definitions *)
(* ===================================================================== *)

(** ** Failure modes of the C++ code

    [NullDereference] is a read through a null [Node*]; [OutOfRange] is the
    exception thrown by [unordered_map::at]; [ShiftTooWide] is a shift of an
    [int] by at least its width.  [FuelExhausted] belongs to the model only:
    it marks the cut of a recursion whose depth is bounded by a counter. *)

Inductive error : Type :=
| NullDereference
| OutOfRange
| ShiftTooWide
| FuelExhausted.

Inductive result (A : Type) : Type :=
| Ok (a : A)
| Fail (e : error).
Arguments Ok {A} a.
Arguments Fail {A} e.

Definition bind {A B : Type} (x : result A) (f : A -> result B) : result B :=
  match x with
  | Ok a => f a
  | Fail e => Fail e
  end.

Notation "'do' x <- e1 ; e2" := (bind e1 (fun x => e2))
  (at level 10, x name, e1 at level 100, e2 at level 200).

(** ** struct Node

    A value of type [Node] stands for a [Node*]: either [nullptr] or the
    address of a node holding [value], [left] and [right]. *)

Inductive Node : Type :=
| nullptr : Node
| mkNode (value : string) (left right : Node).

(** [Node(val)]: the one-argument constructor, both children null. *)
Definition leaf (val : string) : Node := mkNode val nullptr nullptr.

(** [!root->left && !root->right] *)
Definition no_children (l r : Node) : bool :=
  match l, r with
  | nullptr, nullptr => true
  | _, _ => false
  end.

(** ** Helper functions *)

Definition isOperator (s : string) : bool :=
  (s =? "*") || (s =? "+") || (s =? ">") || (s =? "~").

Definition precedence (op : string) : Z :=
  if op =? "~" then 3
  else if op =? "*" then 2
  else if op =? "+" then 1
  else if op =? ">" then 0
  else (-1).

(** ** Character classes of <cctype> in the "C" locale *)

Definition isspace (c : ascii) : bool :=
  let n := nat_of_ascii c in
  (n =? 32)%nat || ((9 <=? n)%nat && (n <=? 13)%nat).

Definition isalnum (c : ascii) : bool :=
  let n := nat_of_ascii c in
  ((48 <=? n)%nat && (n <=? 57)%nat)
  || ((65 <=? n)%nat && (n <=? 90)%nat)
  || ((97 <=? n)%nat && (n <=? 122)%nat).

Definition is_underscore (c : ascii) : bool := Ascii.eqb c "_"%char.

(** [token[0]]: the first character; for an empty [std::string] that is the
    terminating null character. *)
Definition first_char (s : string) : ascii :=
  match s with
  | EmptyString => zero
  | String c _ => c
  end.

(** ** tokenize *)

(** The inner loop
    [while (i < expr.size() && (isalnum(expr[i]) || expr[i] == '_')) token += expr[i++];]
    run on the part of [expr] that starts at index [i]; it returns the token
    and the part of [expr] that starts at the final [i]. *)
Fixpoint scan_atom (rest : string) : string * string :=
  match rest with
  | EmptyString => (EmptyString, EmptyString)
  | String c rest' =>
      if isalnum c || is_underscore c
      then let '(token, rest'') := scan_atom rest' in (String c token, rest'')
      else (EmptyString, rest)
  end.

Lemma scan_atom_length (rest : string) :
  String.length (snd (scan_atom rest)) <= String.length rest.
Proof.
  induction rest as [|c rest IH]; simpl; [lia|].
  destruct (isalnum c || is_underscore c); simpl; [|lia].
  destruct (scan_atom rest) as [token rest'']; simpl in *; lia.
Qed.

(** The outer loop [for (int i = 0; i < expr.size();)], as a function of the
    part of [expr] from index [i] on; the result is what is pushed onto
    [tokens] from there. *)
Equations? tokenize (expr : string) : list string by wf (String.length expr) lt :=
  tokenize EmptyString := [];
  tokenize (String c rest) with isspace c => {
    | true := tokenize rest
    | false with isalnum c => {
        | true := String c (fst (scan_atom rest)) :: tokenize (snd (scan_atom rest))
        | false with String c EmptyString =? ">" => {
            | true := ">" :: tokenize rest
            | false := String c EmptyString :: tokenize rest } } }.
Proof.
  all: simpl; try lia.
  pose proof (scan_atom_length rest); lia.
Qed.

(** ** infixToPrefix *)

(** The loop that swaps the parentheses of the reversed token vector. *)
Definition swap_paren (t : string) : string :=
  if t =? "(" then ")" else if t =? ")" then "(" else t.

(** The state of the conversion loop: the operator stack [ops] (top first)
    and the [output] vector. *)
Record shunt : Type := mkShunt { ops : list string; output : list string }.

(** [while (!ops.empty() && ops.top() != "(") { output.push_back(ops.top()); ops.pop(); }] *)
Fixpoint pop_to_paren (st : list string) (out : list string) : shunt :=
  match st with
  | [] => mkShunt [] out
  | top :: st' =>
      if top =? "(" then mkShunt st out
      else pop_to_paren st' (out ++ [top])
  end.

(** [while (!ops.empty() && precedence(ops.top()) > precedence(token)) { ... }] *)
Fixpoint pop_higher (token : string) (st : list string) (out : list string) : shunt :=
  match st with
  | [] => mkShunt [] out
  | top :: st' =>
      if (precedence token <? precedence top)%Z
      then pop_higher token st' (out ++ [top])
      else mkShunt st out
  end.

(** One iteration of [for (string token : tokens)]. *)
Definition shunt_step (s : shunt) (token : string) : shunt :=
  if isalnum (first_char token) then mkShunt (ops s) (output s ++ [token])
  else if token =? "(" then mkShunt (token :: ops s) (output s)
  else if token =? ")" then
    let s' := pop_to_paren (ops s) (output s) in
    match ops s' with
    | [] => s'
    | _ :: st' => mkShunt st' (output s')
    end
  else if isOperator token then
    let s' := pop_higher token (ops s) (output s) in
    mkShunt (token :: ops s') (output s')
  else s.

(** [while (!ops.empty()) { output.push_back(ops.top()); ops.pop(); }] *)
Fixpoint flush_ops (st : list string) (out : list string) : list string :=
  match st with
  | [] => out
  | top :: st' => flush_ops st' (out ++ [top])
  end.

(** The conversion from the token vector on. *)
Definition infixToPrefix_tokens (tokens : list string) : list string :=
  let tokens := rev tokens in
  let tokens := map swap_paren tokens in
  let s := fold_left shunt_step tokens (mkShunt [] []) in
  rev (flush_ops (ops s) (output s)).

Definition infixToPrefix (expr : string) : list string :=
  infixToPrefix_tokens (tokenize expr).

(** ** buildParseTree *)

(** The loop [for (int i = prefix.size() - 1; i >= 0; --i)]: [tokens] are the
    tokens still to visit, in visiting order, and [st] is the stack, top
    first.  The result is the returned pointer. *)
Fixpoint buildParseTree_loop (tokens : list string) (st : list Node) : Node :=
  match tokens with
  | [] =>
      match st with
      | [root] => root
      | _ => nullptr
      end
  | token :: tokens' =>
      if isOperator token then
        if token =? "~" then
          match st with
          | [] => nullptr
          | l :: st' => buildParseTree_loop tokens' (mkNode token l nullptr :: st')
          end
        else
          match st with
          | l :: r :: st' => buildParseTree_loop tokens' (mkNode token l r :: st')
          | _ => nullptr
          end
      else buildParseTree_loop tokens' (leaf token :: st)
  end.

Definition buildParseTree (prefix : list string) : Node :=
  buildParseTree_loop (rev prefix) [].

(** ** toInfix

    The fully parenthesised rendering of a tree; leaves print their value,
    a negation prints its left subtree only. *)

Fixpoint toInfix (root : Node) : string :=
  match root with
  | nullptr => EmptyString
  | mkNode value l r =>
      if no_children l r then value
      else if value =? "~" then
        String.append "(~" (String.append (toInfix l) ")")
      else
        String.append "("
          (String.append (toInfix l)
             (String.append " "
                (String.append value
                   (String.append " " (String.append (toInfix r) ")")))))
  end.

(** ** treeHeight *)

Fixpoint treeHeight (root : Node) : nat :=
  match root with
  | nullptr => 0
  | mkNode _ l r => 1 + Nat.max (treeHeight l) (treeHeight r)
  end.

(** ** evaluate

    [values.at(k)] throws when [k] is absent; [&&] and [||] evaluate their
    right operand only when the left one does not decide the result. *)

Definition map_at (values : gmap string bool) (k : string) : result bool :=
  match values !! k with
  | Some b => Ok b
  | None => Fail OutOfRange
  end.

Fixpoint evaluate (root : Node) (values : gmap string bool) : result bool :=
  match root with
  | nullptr => Fail NullDereference
  | mkNode value l r =>
      if no_children l r then map_at values value
      else if value =? "~" then
        do a <- evaluate l values; Ok (negb a)
      else if value =? "*" then
        do a <- evaluate l values; if a then evaluate r values else Ok false
      else if value =? "+" then
        do a <- evaluate l values; if a then Ok true else evaluate r values
      else if value =? ">" then
        do a <- evaluate l values; if negb a then Ok true else evaluate r values
      else Ok false
  end.

(** ** std::set<std::string>

    An ordered set of strings is kept as the strictly increasing list of its
    elements, which is also the order in which the C++ container is
    iterated.  [std::string]'s [operator<] compares character by character,
    then by length, as [String_as_OT.compare] does. *)

Fixpoint set_insert (x : string) (s : list string) : list string :=
  match s with
  | [] => [x]
  | y :: s' =>
      match String_as_OT.compare x y with
      | Lt => x :: s
      | Eq => s
      | Gt => y :: set_insert x s'
      end
  end.

Definition set_count (x : string) (s : list string) : bool :=
  existsb (String.eqb x) s.

(** ** collectAtoms, evaluateNode, generateTruthTable *)

Fixpoint collectAtoms (root : Node) (atoms : list string) : list string :=
  match root with
  | nullptr => atoms
  | mkNode value l r =>
      let atoms :=
        if no_children l r && negb (isOperator value)
        then set_insert value atoms else atoms in
      let atoms := collectAtoms l atoms in
      collectAtoms r atoms
  end.

Fixpoint evaluateNode (root : Node) (values : gmap string bool) : result bool :=
  match root with
  | nullptr => Fail NullDereference
  | mkNode value l r =>
      if no_children l r then map_at values value
      else if value =? "~" then
        do a <- evaluateNode l values; Ok (negb a)
      else if value =? "*" then
        do a <- evaluateNode l values; if a then evaluateNode r values else Ok false
      else if value =? "+" then
        do a <- evaluateNode l values; if a then Ok true else evaluateNode r values
      else if value =? ">" then
        do a <- evaluateNode l values; if negb a then Ok true else evaluateNode r values
      else Ok false
  end.

(** [int] is taken to be 32 bits wide, two's complement. *)
Definition int_width : Z := 32.

Definition wrap_int (z : Z) : Z :=
  ((z + 2 ^ (int_width - 1)) mod 2 ^ int_width - 2 ^ (int_width - 1))%Z.

(** [a << k] on [int]: undefined when [k] is negative or at least the width. *)
Definition shl_int (a k : Z) : result Z :=
  if ((k <? 0) || (int_width <=? k))%Z then Fail ShiftTooWide
  else Ok (wrap_int (Z.shiftl a k)).

(** One printed row: the assignment built for it, the values printed under
    the atom columns and the printed result. *)
Record row : Type := mkRow {
  row_assignment : gmap string bool;
  row_values : list bool;
  row_result : bool
}.

(** The loop [for (int j = 0; j < n; ++j)] of row [i]: [rest] are the atoms
    from index [j] on.  It returns the assignment and the printed values. *)
Fixpoint fill_row (n i j : Z) (rest : list string)
    (assignment : gmap string bool) (printed : list bool)
    : gmap string bool * list bool :=
  match rest with
  | [] => (assignment, printed)
  | atom :: rest' =>
      let val := negb (Z.land (Z.shiftr i (n - j - 1)) 1 =? 0)%Z in
      fill_row n i (j + 1)%Z rest' (<[atom := val]> assignment) (printed ++ [val])
  end.

(** The loop [for (int i = 0; i < total; ++i)]; [count] is the number of
    iterations still to run, [total - i]. *)
Fixpoint rows_loop (root : Node) (atoms : list string) (n : Z)
    (count : nat) (i : Z) : result (list row) :=
  match count with
  | O => Ok []
  | S count' =>
      let '(assignment, printed) := fill_row n i 0 atoms ∅ [] in
      do res <- evaluateNode root assignment;
      do rows <- rows_loop root atoms n count' (i + 1)%Z;
      Ok (mkRow assignment printed res :: rows)
  end.

(** What [generateTruthTable] prints. *)
Inductive table : Type :=
| EmptyTree                                    (* "Parse tree is empty!" *)
| NoAtoms                                      (* "No propositional atoms found." *)
| Table (header : list string) (rows : list row).

Definition generateTruthTable (root : Node) : result table :=
  match root with
  | nullptr => Ok EmptyTree
  | _ =>
      let atoms := collectAtoms root [] in
      let n := Z.of_nat (length atoms) in
      if (n =? 0)%Z then Ok NoAtoms
      else
        do total <- shl_int 1 n;
        do rows <- rows_loop root atoms n (Z.to_nat total) 0;
        Ok (Table atoms rows)
  end.

(** ** CNF conversion

    The passes overwrite [root->left], [root->right] and [root->value] in
    place and return [root] or a new node.  A pass is modelled by the tree
    that hangs from the pointer it returns.  The only nodes that get a second
    parent are the operands over which [distributeOrOverAnd] distributes;
    they are results of earlier calls of the pass, and the pass returns such
    a tree as it is ([distribute_rec_returns_settled] and
    [distribute_rec_settled] below): every write it makes through one parent
    stores the pointer that was there, and nothing changes for the other. *)

Fixpoint eliminateImplications (root : Node) : Node :=
  match root with
  | nullptr => root
  | mkNode value l r =>
      if no_children l r then root
      else
        let l := eliminateImplications l in
        let r := eliminateImplications r in
        if value =? ">" then mkNode "+" (mkNode "~" l nullptr) r
        else mkNode value l r
  end.

Fixpoint size (root : Node) : nat :=
  match root with
  | nullptr => 0
  | mkNode _ l r => S (size l + size r)
  end.

Definition inspect {A : Type} (a : A) : {b : A | a = b} := exist _ a eq_refl.

Equations? moveNegations (root : Node) : Node by wf (size root) lt :=
  moveNegations nullptr := nullptr;
  moveNegations (mkNode value l r) with no_children l r => {
    | true := mkNode value l r
    | false with value =? "~" => {
        | false := mkNode value (moveNegations l) (moveNegations r)
        | true with inspect l => {
            | exist _ nullptr _ := nullptr
            | exist _ (mkNode cvalue cleft cright) _ with cvalue =? "~" => {
                | true := moveNegations cleft
                | false with cvalue =? "+" => {
                    | true := mkNode "*" (moveNegations (mkNode "~" cleft nullptr))
                                         (moveNegations (mkNode "~" cright nullptr))
                    | false with cvalue =? "*" => {
                        | true := mkNode "+" (moveNegations (mkNode "~" cleft nullptr))
                                             (moveNegations (mkNode "~" cright nullptr))
                        | false := mkNode value l r } } } } } }.
Proof. all: subst; simpl; lia. Qed.

(** [distributeOrOverAnd] calls itself on nodes it has just built from the
    results of earlier calls, so its recursion is cut by a counter. *)
Fixpoint distribute_rec (fuel : nat) (root : Node) : result Node :=
  match fuel with
  | O => Fail FuelExhausted
  | S fuel' =>
      match root with
      | nullptr => Ok root
      | mkNode value l r =>
          if no_children l r then Ok root
          else
            do A <- distribute_rec fuel' l;
            do B <- distribute_rec fuel' r;
            if value =? "+" then
              match A with
              | nullptr => Fail NullDereference
              | mkNode avalue aleft aright =>
                  if avalue =? "*" then
                    do x <- distribute_rec fuel' (mkNode "+" aleft B);
                    do y <- distribute_rec fuel' (mkNode "+" aright B);
                    Ok (mkNode "*" x y)
                  else
                    match B with
                    | nullptr => Fail NullDereference
                    | mkNode bvalue bleft bright =>
                        if bvalue =? "*" then
                          do x <- distribute_rec fuel' (mkNode "+" A bleft);
                          do y <- distribute_rec fuel' (mkNode "+" A bright);
                          Ok (mkNode "*" x y)
                        else Ok (mkNode value A B)
                    end
              end
            else Ok (mkNode value A B)
      end
  end.

(** The counter given to the recursion; [distribute_fuel_enough] below shows
    that it is never used up. *)
Definition distributeOrOverAnd (root : Node) : result Node :=
  distribute_rec (S (S (size root))) root.

Definition convertToCNF (root : Node) : result Node :=
  let root := eliminateImplications root in
  let root := moveNegations root in
  distributeOrOverAnd root.

(** ** Clause extraction and validity analysis *)

Fixpoint getLiterals (node : Node) (literals : list string) : result (list string) :=
  match node with
  | nullptr => Ok literals
  | mkNode value l r =>
      if value =? "+" then
        do literals <- getLiterals l literals;
        getLiterals r literals
      else if value =? "~" then
        match l with
        | nullptr => Fail NullDereference
        | mkNode lvalue _ _ => Ok (literals ++ [String.append "~" lvalue])
        end
      else Ok (literals ++ [value])
  end.

Fixpoint collectClauses (cnfRoot : Node) (clauses : list (list string))
    : result (list (list string)) :=
  match cnfRoot with
  | nullptr => Ok clauses
  | mkNode value l r =>
      if value =? "*" then
        do clauses <- collectClauses l clauses;
        collectClauses r clauses
      else
        do currentClause <- getLiterals cnfRoot [];
        Ok (clauses ++ [currentClause])
  end.

(** [literal.substr(1)] *)
Definition substr1 (s : string) : string :=
  match s with
  | EmptyString => EmptyString
  | String _ s' => s'
  end.

Definition negation_of (literal : string) : string :=
  if Ascii.eqb (first_char literal) "~"%char then substr1 literal
  else String.append "~" literal.

(** The loop over the literals of one clause; the result is the final value
    of [clauseIsTautology]. *)
Fixpoint clauseIsTautology (clause : list string) (literalsInClause : list string) : bool :=
  match clause with
  | [] => false
  | literal :: clause' =>
      let negation := negation_of literal in
      if set_count negation literalsInClause then true
      else clauseIsTautology clause' (set_insert literal literalsInClause)
  end.

(** The loop over the clauses, threading the two counters (not wrapped: a
    count stays below the number of clauses). *)
Fixpoint count_clauses (clauses : list (list string)) (valid_count invalid_count : Z) : Z * Z :=
  match clauses with
  | [] => (valid_count, invalid_count)
  | clause :: clauses' =>
      if clauseIsTautology clause []
      then count_clauses clauses' (valid_count + 1)%Z invalid_count
      else count_clauses clauses' valid_count (invalid_count + 1)%Z
  end.

(** The result is the returned flag with the final [valid_count] and
    [invalid_count]. *)
Definition analyzeCNFValidity (clauses : list (list string)) : bool * Z * Z :=
  match clauses with
  | [] => (true, 0%Z, 0%Z)
  | _ =>
      let '(valid_count, invalid_count) := count_clauses clauses 0 0 in
      ((invalid_count =? 0)%Z, valid_count, invalid_count)
  end.

(** Tasks 1 and 2 of [main]: the tree built from an input line. *)
Definition parse (infix_expr : string) : Node :=
  buildParseTree (infixToPrefix infix_expr).

(* ===================================================================== *)
(** * Part II: the vocabulary of the statements *)
(* ===================================================================== *)

(** ** Well-formed trees

    The invariant of the expression tree: a leaf carries a value that is not
    an operator, a [~] node has a left child only, a binary node has both. *)

Inductive well_formed : Node -> Prop :=
| wf_atom (name : string) :
    isOperator name = false -> well_formed (leaf name)
| wf_not (l : Node) :
    well_formed l -> well_formed (mkNode "~" l nullptr)
| wf_binary (op : string) (l r : Node) :
    op = "*" \/ op = "+" \/ op = ">" ->
    well_formed l -> well_formed r -> well_formed (mkNode op l r).

(** ** Tree building

    The count of subtrees on the stack while the tokens are visited:
    [None] as soon as an operator finds fewer operands than it pops
    (one for [~], two for a binary operator). *)
Fixpoint operand_count (tokens : list string) (depth : nat) : option nat :=
  match tokens with
  | [] => Some depth
  | token :: tokens' =>
      if isOperator token then
        if token =? "~" then
          if (1 <=? depth)%nat then operand_count tokens' depth else None
        else
          if (2 <=? depth)%nat then operand_count tokens' (depth - 1) else None
      else operand_count tokens' (S depth)
  end.

(** The failure condition in words: an operator cannot pop its operands, or
    the final stack does not hold exactly one subtree. *)
Definition build_fails (prefix : list string) : Prop :=
  match operand_count (rev prefix) 0 with
  | None => True
  | Some depth => depth <> 1
  end.

(** ** Tokens and the conversion loop *)

(** The characters that continue an atom. *)
Definition is_ident (c : ascii) : bool := isalnum c || is_underscore c.

Fixpoint all_chars (p : ascii -> bool) (s : string) : bool :=
  match s with
  | EmptyString => true
  | String c s' => p c && all_chars p s'
  end.

(** The tokenizer as the specification words it: an atom is any maximal run
    of alphanumeric characters or underscores. *)
Equations? tokenize_spec (expr : string) : list string by wf (String.length expr) lt :=
  tokenize_spec EmptyString := [];
  tokenize_spec (String c rest) with isspace c => {
    | true := tokenize_spec rest
    | false with is_ident c => {
        | true := String c (fst (scan_atom rest)) :: tokenize_spec (snd (scan_atom rest))
        | false := String c EmptyString :: tokenize_spec rest } }.
Proof.
  all: simpl; try lia.
  pose proof (scan_atom_length rest); lia.
Qed.

(** The invariant of the conversion loop: no [")"] anywhere, no ["("] in the
    output. *)
Definition shunt_inv (s : shunt) : Prop :=
  ~ In ")" (ops s) /\ ~ In ")" (output s) /\ ~ In "(" (output s).

(** ** Literals and clauses

    A literal string is an atom name, or ["~"] followed by an atom name; an
    atom name does not begin with ['~']. *)
Definition is_atom_name (a : string) : Prop := first_char a <> "~"%char.

Definition is_literal (l : string) : Prop :=
  is_atom_name l \/ exists a, is_atom_name a /\ l = String.append "~" a.

(** The clause holds a complementary pair: some atom both plain and negated. *)
Definition complementary (clause : list string) : Prop :=
  exists p, is_atom_name p /\ In p clause /\ In (String.append "~" p) clause.

(** What [analyzeCNFValidity] reports for a formula of the single clause. *)
Definition classified_tautological (clause : list string) : Prop :=
  analyzeCNFValidity [clause] = (true, 1%Z, 0%Z).

Definition classified_non_tautological (clause : list string) : Prop :=
  analyzeCNFValidity [clause] = (false, 0%Z, 1%Z).

(** The number of clauses of a list that hold a complementary pair, and the
    number of those that do not. *)
Inductive complementary_counts : list (list string) -> nat -> nat -> Prop :=
| counts_nil : complementary_counts [] 0 0
| counts_with (clause : list string) (clauses : list (list string)) (n m : nat) :
    complementary clause ->
    complementary_counts clauses n m ->
    complementary_counts (clause :: clauses) (S n) m
| counts_without (clause : list string) (clauses : list (list string)) (n m : nat) :
    ~ complementary clause ->
    complementary_counts clauses n m ->
    complementary_counts (clause :: clauses) n (S m).

(** ** Normal forms

    Trees without implication, trees in negation normal form, and trees in
    conjunctive normal form. *)
Inductive implication_free : Node -> Prop :=
| if_atom (name : string) :
    isOperator name = false -> implication_free (leaf name)
| if_not (l : Node) :
    implication_free l -> implication_free (mkNode "~" l nullptr)
| if_and (l r : Node) :
    implication_free l -> implication_free r -> implication_free (mkNode "*" l r)
| if_or (l r : Node) :
    implication_free l -> implication_free r -> implication_free (mkNode "+" l r).

Inductive nnf : Node -> Prop :=
| nnf_atom (name : string) :
    isOperator name = false -> nnf (leaf name)
| nnf_not (name : string) :
    isOperator name = false -> nnf (mkNode "~" (leaf name) nullptr)
| nnf_and (l r : Node) : nnf l -> nnf r -> nnf (mkNode "*" l r)
| nnf_or (l r : Node) : nnf l -> nnf r -> nnf (mkNode "+" l r).

Inductive clause : Node -> Prop :=
| clause_atom (name : string) :
    isOperator name = false -> clause (leaf name)
| clause_not (name : string) :
    isOperator name = false -> clause (mkNode "~" (leaf name) nullptr)
| clause_or (l r : Node) : clause l -> clause r -> clause (mkNode "+" l r).

Inductive cnf : Node -> Prop :=
| cnf_clause (t : Node) : clause t -> cnf t
| cnf_and (l r : Node) : cnf l -> cnf r -> cnf (mkNode "*" l r).

(** On an arbitrary tree: below every node whose value is ["~"] hangs one
    child, on the left, and it is an atom leaf. *)
Fixpoint negations_on_atoms (t : Node) : Prop :=
  match t with
  | nullptr => True
  | mkNode value l r =>
      (value = "~" ->
       (exists name, isOperator name = false /\ l = leaf name) /\ r = nullptr) /\
      negations_on_atoms l /\ negations_on_atoms r
  end.

(** ** Atoms and meaning *)

(** [a] is the value of a leaf of [t] that is not an operator. *)
Fixpoint atom_in (a : string) (t : Node) : Prop :=
  match t with
  | nullptr => False
  | mkNode value l r =>
      (no_children l r = true /\ isOperator value = false /\ a = value) \/
      atom_in a l \/ atom_in a r
  end.

(** The assignment has a value for every atom of the tree. *)
Definition complete (values : gmap string bool) (t : Node) : Prop :=
  forall a, In a (collectAtoms t []) -> is_Some (values !! a).

(** Every leaf of the tree has a value. *)
Fixpoint leaves_defined (values : gmap string bool) (t : Node) : Prop :=
  match t with
  | nullptr => True
  | mkNode value l r =>
      (no_children l r = true -> is_Some (values !! value)) /\
      leaves_defined values l /\ leaves_defined values r
  end.

(** The truth value of a tree, absent atoms read as [false]. *)
Fixpoint denote (values : gmap string bool) (t : Node) : bool :=
  match t with
  | nullptr => false
  | mkNode value l r =>
      if no_children l r then default false (values !! value)
      else if value =? "~" then negb (denote values l)
      else if value =? "*" then denote values l && denote values r
      else if value =? "+" then denote values l || denote values r
      else if value =? ">" then negb (denote values l) || denote values r
      else false
  end.

(** What a successful run of the pass guarantees about its result. *)
Definition distributed_from (t c : Node) : Prop :=
  cnf c /\
  forall values,
    denote values c = denote values t /\
    (leaves_defined values t -> leaves_defined values c).

(** Two clause lists are the same multiset of literal multisets. *)
Definition same_clause_set (cs1 cs2 : list (list string)) : Prop :=
  exists cs, Permutation cs1 cs /\ Forall2 (@Permutation string) cs cs2.

(** ** Truth tables *)

(** A disjunction of 31 distinct atoms, and one of 32. *)
Definition atoms31 : Node :=
  parse "x01 + x02 + x03 + x04 + x05 + x06 + x07 + x08 + x09 + x10 + x11 + x12 + x13 + x14 + x15 + x16 + x17 + x18 + x19 + x20 + x21 + x22 + x23 + x24 + x25 + x26 + x27 + x28 + x29 + x30 + x31".

Definition atoms32 : Node :=
  parse "x01 + x02 + x03 + x04 + x05 + x06 + x07 + x08 + x09 + x10 + x11 + x12 + x13 + x14 + x15 + x16 + x17 + x18 + x19 + x20 + x21 + x22 + x23 + x24 + x25 + x26 + x27 + x28 + x29 + x30 + x31 + x32".

(** The value printed for atom [j] in row [i]. *)
Definition bit_of (n i j : Z) : bool :=
  negb (Z.land (Z.shiftr i (n - j - 1)) 1 =? 0)%Z.

(** Row [i] as the loop body builds it. *)
Definition row_of (root : Node) (atoms : list string) (n i : Z) : row :=
  let '(assignment, printed) := fill_row n i 0 atoms ∅ [] in
  mkRow assignment printed (denote assignment root).

(** ** The distribution pass on arbitrary trees *)

(** A node that is there and whose value is not ["*"]. *)
Definition value_not_and (t : Node) : Prop :=
  match t with
  | nullptr => False
  | mkNode value _ _ => (value =? "*") = false
  end.

(** The trees the pass returns unchanged. *)
Fixpoint settled (t : Node) : Prop :=
  match t with
  | nullptr => True
  | mkNode value l r =>
      no_children l r = true \/
      (settled l /\ settled r /\
       ((value =? "+") = true -> value_not_and l /\ value_not_and r))
  end.

(** The outcome of a run is a result within the height bound, or a failure
    of the C++ code itself. *)
Definition within (bound : nat) (res : result Node) : Prop :=
  match res with
  | Ok c => treeHeight c <= bound
  | Fail e => e <> FuelExhausted
  end.

(** ** Operator chains

    The tokens of [a op b1 op b2 ...], and the tree that groups them to the
    left. *)
Definition chain_tokens (op a : string) (rest : list string) : list string :=
  a :: flat_map (fun b => [op; b]) rest.

Definition left_nested (op a : string) (rest : list string) : Node :=
  fold_left (fun acc b => mkNode op acc (leaf b)) rest (leaf a).

(** A token that the converter takes for an atom. *)
Definition is_atom_token (a : string) : Prop := isalnum (first_char a) = true.

(** ** Prefix serialisation

    The prefix token sequence of a tree: the value of the node, then the
    tokens of the left subtree, then those of the right one. *)
Fixpoint prefix_tokens (t : Node) : list string :=
  match t with
  | nullptr => []
  | mkNode value l r => value :: prefix_tokens l ++ prefix_tokens r
  end.

(** ** Rendering and reading back

    An identifier: an alphanumeric character followed by alphanumeric
    characters and underscores, the atoms that the tokenizer reads whole. *)
Definition is_identifier (a : string) : bool :=
  match a with
  | EmptyString => false
  | String c run => isalnum c && all_chars is_ident run
  end.

(** A well-formed tree whose atoms are identifiers. *)
Inductive renderable : Node -> Prop :=
| renderable_atom (name : string) :
    is_identifier name = true -> renderable (leaf name)
| renderable_not (l : Node) :
    renderable l -> renderable (mkNode "~" l nullptr)
| renderable_binary (op : string) (l r : Node) :
    op = "*" \/ op = "+" \/ op = ">" ->
    renderable l -> renderable r -> renderable (mkNode op l r).

(** The tokens of the fully parenthesised rendering of a tree. *)
Fixpoint infix_tokens (t : Node) : list string :=
  match t with
  | nullptr => []
  | mkNode value l r =>
      if no_children l r then [value]
      else if value =? "~" then "(" :: "~" :: infix_tokens l ++ [")"]
      else "(" :: infix_tokens l ++ value :: infix_tokens r ++ [")"]
  end.

(** ** Counting clauses

    The number of clauses that the scan of [analyzeCNFValidity] finds
    tautological, and the number it does not. *)
Definition tautological_count (clauses : list (list string)) : nat :=
  length (List.filter (fun c => clauseIsTautology c []) clauses).

Definition non_tautological_count (clauses : list (list string)) : nat :=
  length (List.filter (fun c => negb (clauseIsTautology c [])) clauses).

(** ** The meaning of literals and clauses

    The truth value of a literal string: ["~"] followed by a name is the
    negation of the value of the name. *)
Definition lit_value (values : gmap string bool) (literal : string) : bool :=
  if Ascii.eqb (first_char literal) "~"%char
  then negb (default false (values !! substr1 literal))
  else default false (values !! literal).

(** A clause list is true when every clause has a true literal. *)
Definition clauses_value (values : gmap string bool)
    (clauses : list (list string)) : bool :=
  forallb (existsb (lit_value values)) clauses.

(** The literals that [getLiterals] appends for a subtree, and the clauses
    that [collectClauses] appends for a tree. *)
Fixpoint clause_literals (node : Node) : list string :=
  match node with
  | nullptr => []
  | mkNode value l r =>
      if value =? "+" then clause_literals l ++ clause_literals r
      else if value =? "~" then
        match l with
        | nullptr => []
        | mkNode lvalue _ _ => [String.append "~" lvalue]
        end
      else [value]
  end.

Fixpoint cnf_clauses (cnfRoot : Node) : list (list string) :=
  match cnfRoot with
  | nullptr => []
  | mkNode value l r =>
      if value =? "*" then cnf_clauses l ++ cnf_clauses r
      else [clause_literals cnfRoot]
  end.

(** No atom of the tree begins with ['~']. *)
Definition plain_atoms (t : Node) : Prop :=
  forall a, atom_in a t -> is_atom_name a.

(** The formula is true under every assignment that covers its atoms. *)
Definition tautology (t : Node) : Prop :=
  forall values, complete values t -> evaluate t values = Ok true.

(** The assignment that gives each listed atom the value [f] has for it. *)
Fixpoint assign_atoms (f : string -> bool) (atoms : list string) : gmap string bool :=
  match atoms with
  | [] => ∅
  | a :: atoms' => <[a := f a]> (assign_atoms f atoms')
  end.

(** ** Characters and tokens

    The text without its white space, and the tokens put back together. *)
Fixpoint strip_spaces (s : string) : string :=
  match s with
  | EmptyString => EmptyString
  | String c s' => if isspace c then strip_spaces s' else String c (strip_spaces s')
  end.

Definition join_tokens (tokens : list string) : string :=
  fold_right String.append EmptyString tokens.

(** The token test of the conversion loop for an operand, and the tokens the
    loop has a branch for. *)
Definition operand_token (token : string) : bool := isalnum (first_char token).

Definition known_token (token : string) : bool :=
  operand_token token || (token =? "(") || (token =? ")") || isOperator token.

(* ===================================================================== *)
(** * Part III: theorems *)
(* ===================================================================== *)

(** ** Basic facts *)

Lemma bind_Ok {A B : Type} (x : result A) (f : A -> result B) (b : B) :
  bind x f = Ok b -> exists a, x = Ok a /\ f a = Ok b.
Proof. destruct x as [a|e]; simpl; [eauto | discriminate]. Qed.

Lemma bind_Ok_eq {A B : Type} (a : A) (f : A -> result B) : bind (Ok a) f = f a.
Proof. reflexivity. Qed.

Lemma isOperator_true (s : string) :
  isOperator s = true <-> s = "*" \/ s = "+" \/ s = ">" \/ s = "~".
Proof.
  unfold isOperator. rewrite !orb_true_iff, !String.eqb_eq. tauto.
Qed.

Lemma isOperator_false (s : string) :
  isOperator s = false <->
  (s =? "*") = false /\ (s =? "+") = false /\ (s =? ">") = false /\ (s =? "~") = false.
Proof.
  unfold isOperator. rewrite !orb_false_iff. tauto.
Qed.

Lemma well_formed_not_null (t : Node) : well_formed t -> t <> nullptr.
Proof. destruct 1; discriminate. Qed.

Lemma no_children_left (l r : Node) : l <> nullptr -> no_children l r = false.
Proof. destruct l; [congruence | reflexivity]. Qed.

(** Membership in the model of [std::set]. *)
Lemma set_insert_In (x y : string) (s : list string) :
  In x (set_insert y s) <-> x = y \/ In x s.
Proof.
  induction s as [|z s IH]; simpl; [intuition congruence|].
  destruct (String_as_OT.compare_spec y z) as [Heq|Hlt|Hgt]; simpl.
  - unfold String_as_OT.eq in Heq. subst z. intuition congruence.
  - intuition congruence.
  - rewrite IH. intuition congruence.
Qed.

Lemma set_count_In (x : string) (s : list string) :
  set_count x s = true <-> In x s.
Proof.
  unfold set_count. rewrite existsb_exists. split.
  - intros (y & Hy & Heq). apply String.eqb_eq in Heq. congruence.
  - intros H. exists x. split; [assumption | apply String.eqb_refl].
Qed.

(** ** The tokenizer *)

Lemma append_empty (s : string) : String.append EmptyString s = s.
Proof. reflexivity. Qed.

Lemma append_String (c : ascii) (s t : string) :
  String.append (String c s) t = String c (String.append s t).
Proof. reflexivity. Qed.

Lemma scan_atom_run (run rest : string) :
  all_chars is_ident run = true ->
  is_ident (first_char rest) = false ->
  scan_atom (String.append run rest) = (run, rest).
Proof.
  intros Hrun Hrest. induction run as [|c run IH].
  - rewrite append_empty. destruct rest as [|d rest]; [reflexivity|].
    cbn [first_char scan_atom] in *. unfold is_ident in Hrest.
    rewrite Hrest. reflexivity.
  - rewrite append_String. cbn [scan_atom all_chars] in *.
    apply andb_true_iff in Hrun. destruct Hrun as [Hc Hrun].
    unfold is_ident in Hc. rewrite Hc, (IH Hrun). reflexivity.
Qed.

Lemma isalnum_not_isspace (c : ascii) : isalnum c = true -> isspace c = false.
Proof.
  destruct c as [[] [] [] [] [] [] [] []]; vm_compute; congruence.
Qed.

(** C6, as the code has it: white space is skipped; a character that is
    alphanumeric starts an atom token, which runs on over alphanumeric
    characters and underscores as far as they go; every other character that
    is not white space, an underscore included, is a token of its own. *)
Theorem tokenize_rules (c : ascii) (run rest : string) :
  tokenize EmptyString = [] /\
  (isspace c = true -> tokenize (String c rest) = tokenize rest) /\
  (isalnum c = true ->
   all_chars is_ident run = true ->
   is_ident (first_char rest) = false ->
   tokenize (String c (String.append run rest)) = String c run :: tokenize rest) /\
  (isspace c = false -> isalnum c = false ->
   tokenize (String c rest) = String c EmptyString :: tokenize rest).
Proof.
  split; [reflexivity|]. split; [|split].
  - intros Hs. simp tokenize. rewrite Hs. simp tokenize. reflexivity.
  - intros Ha Hrun Hrest. simp tokenize.
    rewrite (isalnum_not_isspace c Ha). simp tokenize.
    rewrite Ha. simp tokenize.
    rewrite (scan_atom_run run rest Hrun Hrest). reflexivity.
  - intros Hs Ha. simp tokenize. rewrite Hs. simp tokenize.
    rewrite Ha. simp tokenize.
    destruct (String c EmptyString =? ">") eqn:Hgt; simp tokenize;
      [|reflexivity].
    apply String.eqb_eq in Hgt. rewrite Hgt. reflexivity.
Qed.

Lemma tokenize_rules_witness :
  tokenize " x" = tokenize "x" /\
  tokenize "a_1+b" = "a_1" :: tokenize "+b" /\
  tokenize "_a" = "_" :: tokenize "a".
Proof.
  split; [|split].
  - apply (tokenize_rules " "%char EmptyString "x"). reflexivity.
  - apply (tokenize_rules "a"%char "_1" "+b"); reflexivity.
  - apply (tokenize_rules "_"%char EmptyString "a"); reflexivity.
Defined.

(** C6 as stated fails on a run that starts with an underscore: the
    underscore comes out as a token of its own. *)
Lemma tokenize_underscore_counterexample :
  tokenize "_a" = ["_"; "a"] /\ tokenize_spec "_a" = ["_a"] /\
  tokenize "_a" <> tokenize_spec "_a".
Proof. repeat split; vm_compute; congruence. Qed.

(** ** Parentheses in the prefix output *)

Lemma flush_ops_app (st out : list string) : flush_ops st out = out ++ st.
Proof.
  revert out. induction st as [|top st IH]; intros out; simpl.
  - rewrite app_nil_r. reflexivity.
  - rewrite IH, <- app_assoc. reflexivity.
Qed.

(** What the two popping loops leave: the popped tokens go to the output in
    stack order, and the rest of the stack stays. *)
Lemma pop_to_paren_split (st out : list string) :
  exists popped,
    st = popped ++ ops (pop_to_paren st out) /\
    output (pop_to_paren st out) = out ++ popped /\
    ~ In "(" popped /\
    (ops (pop_to_paren st out) = [] \/
     exists st', ops (pop_to_paren st out) = "(" :: st').
Proof.
  revert out. induction st as [|top st IH]; intros out; simpl.
  - exists []. simpl. rewrite ?app_nil_r. intuition auto.
  - destruct (top =? "(") eqn:Htop.
    + apply String.eqb_eq in Htop; subst top.
      exists []. simpl. rewrite ?app_nil_r. split; [reflexivity|].
      split; [reflexivity|]. split; [tauto|]. right. eauto.
    + apply String.eqb_neq in Htop.
      destruct (IH (out ++ [top])) as (popped & Hst & Hout & Hno & Hrest).
      exists (top :: popped). simpl. split; [congruence|].
      split; [rewrite Hout, <- app_assoc; reflexivity|].
      split; [|assumption]. intros [H|H]; [congruence | contradiction].
Qed.

Lemma precedence_operator (token : string) :
  isOperator token = true -> (0 <= precedence token)%Z.
Proof.
  intros H. apply isOperator_true in H.
  destruct H as [-> | [-> | [-> | ->]]]; vm_compute; congruence.
Qed.

Lemma pop_higher_split (token : string) (st out : list string) :
  isOperator token = true ->
  exists popped,
    st = popped ++ ops (pop_higher token st out) /\
    output (pop_higher token st out) = out ++ popped /\
    ~ In "(" popped.
Proof.
  intros Hop. revert out. induction st as [|top st IH]; intros out; simpl.
  - exists []. simpl. rewrite ?app_nil_r. intuition auto.
  - destruct (precedence token <? precedence top)%Z eqn:Hprec.
    + destruct (IH (out ++ [top])) as (popped & Hst & Hout & Hno).
      exists (top :: popped). simpl. split; [congruence|].
      split; [rewrite Hout, <- app_assoc; reflexivity|].
      intros [H|H]; [|contradiction]. subst top.
      apply Z.ltb_lt in Hprec. apply precedence_operator in Hop.
      change (precedence "(") with (-1)%Z in Hprec. lia.
    + exists []. simpl. rewrite ?app_nil_r. intuition auto.
Qed.

Lemma isalnum_first_char_not_paren (token : string) :
  isalnum (first_char token) = true -> token <> "(" /\ token <> ")".
Proof.
  intros H. split; intros ->; vm_compute in H; discriminate.
Qed.

Lemma shunt_step_inv (s : shunt) (token : string) :
  shunt_inv s -> shunt_inv (shunt_step s token).
Proof.
  intros (Hops & Hout & Hopen). unfold shunt_step.
  destruct (isalnum (first_char token)) eqn:Halnum.
  { apply isalnum_first_char_not_paren in Halnum. destruct Halnum.
    unfold shunt_inv; simpl. rewrite !in_app_iff; simpl.
    repeat split; [assumption | |]; intros [?|[?|[]]]; congruence || tauto. }
  destruct (token =? "(") eqn:Hlp.
  { apply String.eqb_eq in Hlp; subst token.
    unfold shunt_inv; simpl. repeat split; try assumption.
    intros [?|?]; [discriminate | tauto]. }
  destruct (token =? ")") eqn:Hrp.
  { destruct (pop_to_paren_split (ops s) (output s))
      as (popped & Hst & Hout' & Hno & Hrest).
    assert (Hpop : ~ In ")" popped /\ ~ In ")" (ops (pop_to_paren (ops s) (output s)))).
    { rewrite Hst in Hops. rewrite in_app_iff in Hops. tauto. }
    destruct Hpop as [Hpop Hleft].
    assert (Hinv : shunt_inv (pop_to_paren (ops s) (output s))).
    { unfold shunt_inv. rewrite Hout', !in_app_iff. tauto. }
    destruct (ops (pop_to_paren (ops s) (output s))) as [|top st'] eqn:Heq;
      [assumption|].
    destruct Hinv as (_ & H2 & H3). unfold shunt_inv; simpl.
    repeat split; try assumption. simpl in Hleft. tauto. }
  destruct (isOperator token) eqn:Hop; [|unfold shunt_inv; tauto].
  destruct (pop_higher_split token (ops s) (output s) Hop)
    as (popped & Hst & Hout' & Hno).
  rewrite Hst in Hops. rewrite in_app_iff in Hops.
  unfold shunt_inv; simpl. rewrite Hout', !in_app_iff.
  apply String.eqb_neq in Hrp.
  repeat split; try tauto; try (intros [?|?]; [congruence | tauto]).
Qed.

Lemma fold_shunt_inv (tokens : list string) (s : shunt) :
  shunt_inv s -> shunt_inv (fold_left shunt_step tokens s).
Proof.
  revert s. induction tokens as [|token tokens IH]; intros s Hs; simpl;
    [assumption|].
  apply IH, shunt_step_inv, Hs.
Qed.

Lemma pop_to_paren_no_open (st out : list string) :
  ~ In "(" st -> pop_to_paren st out = mkShunt [] (out ++ st).
Proof.
  revert out. induction st as [|top st IH]; intros out Hno; simpl.
  - rewrite app_nil_r. reflexivity.
  - simpl in Hno. destruct (top =? "(") eqn:Htop.
    + apply String.eqb_eq in Htop. tauto.
    + rewrite IH by tauto. rewrite <- app_assoc. reflexivity.
Qed.

(** C7, as the code has it: a closing parenthesis that finds no open one on
    the stack moves every pending operator to the output; what is on the
    stack at the end, open parentheses included, is appended to the output.
    So the prefix output never holds [")"], and it holds ["("] exactly when
    an open parenthesis is left on the stack. *)
Theorem infixToPrefix_parentheses (tokens : list string) (s : shunt) :
  (~ In "(" (ops s) ->
   shunt_step s ")" = mkShunt [] (output s ++ ops s)) /\
  let final := fold_left shunt_step (map swap_paren (rev tokens)) (mkShunt [] []) in
  infixToPrefix_tokens tokens = rev (output final ++ ops final) /\
  ~ In ")" (infixToPrefix_tokens tokens) /\
  (In "(" (infixToPrefix_tokens tokens) <-> In "(" (ops final)).
Proof.
  split.
  - intros Hno. unfold shunt_step.
    change (isalnum (first_char ")")) with false.
    change (")" =? "(") with false. change (")" =? ")") with true.
    cbv iota. rewrite (pop_to_paren_no_open _ _ Hno). reflexivity.
  - intros final.
    assert (Hinv : shunt_inv final).
    { apply fold_shunt_inv. unfold shunt_inv; simpl. tauto. }
    destruct Hinv as (Hops & Hout & Hopen).
    assert (Heq : infixToPrefix_tokens tokens = rev (output final ++ ops final)).
    { unfold infixToPrefix_tokens. rewrite flush_ops_app. reflexivity. }
    split; [exact Heq|]. rewrite Heq. split.
    + rewrite <- in_rev, in_app_iff. tauto.
    + rewrite <- in_rev, in_app_iff. tauto.
Qed.

Lemma infixToPrefix_parentheses_witness :
  shunt_step (mkShunt ["+"; "*"] ["r"; "q"]) ")" = mkShunt [] ["r"; "q"; "+"; "*"].
Proof.
  apply (proj1 (infixToPrefix_parentheses [] (mkShunt ["+"; "*"] ["r"; "q"]))).
  simpl. intros [H|[H|[]]]; discriminate.
Defined.

(** C7 as stated fails on [p)]: after the reversal its parenthesis is an
    open one that nothing closes, and it ends up in the prefix output. *)
Lemma infixToPrefix_parentheses_counterexample :
  infixToPrefix "p)" = ["("; "p"] /\
  In "(" (infixToPrefix_tokens ["p"; ")"]) /\
  buildParseTree (infixToPrefix "p)") = nullptr.
Proof.
  split; [vm_compute; reflexivity|]. split; [left; reflexivity|].
  vm_compute; reflexivity.
Qed.

(** ** Chains of one binary operator group to the left *)

Lemma atom_token_not_operator (a : string) :
  is_atom_token a -> isOperator a = false.
Proof.
  unfold is_atom_token. intros H.
  destruct (isOperator a) eqn:Hop; [|reflexivity].
  apply isOperator_true in Hop.
  destruct Hop as [-> | [-> | [-> | ->]]]; vm_compute in H; discriminate.
Qed.

Lemma atom_token_swap (a : string) : is_atom_token a -> swap_paren a = a.
Proof.
  intros H. destruct (isalnum_first_char_not_paren a H) as [H1 H2].
  unfold swap_paren.
  apply String.eqb_neq in H1, H2. rewrite H1, H2. reflexivity.
Qed.

Lemma shunt_step_atom (s : shunt) (a : string) :
  is_atom_token a -> shunt_step s a = mkShunt (ops s) (output s ++ [a]).
Proof. intros H. unfold shunt_step. rewrite H. reflexivity. Qed.

Lemma shunt_step_same_operator (op : string) (m : nat) (out : list string) :
  op = "*" \/ op = "+" \/ op = ">" ->
  shunt_step (mkShunt (repeat op m) out) op = mkShunt (repeat op (S m)) out.
Proof.
  intros Hop.
  assert (Hpop : pop_higher op (repeat op m) out = mkShunt (repeat op m) out).
  { destruct m; simpl; [reflexivity|]. rewrite Z.ltb_irrefl. reflexivity. }
  destruct Hop as [-> | [-> | ->]]; unfold shunt_step;
    cbn [ops output first_char]; rewrite Hpop; reflexivity.
Qed.

(** The conversion loop on the reversed chain, last operand first. *)
Lemma fold_shunt_chain (op : string) (bs : list string) :
  op = "*" \/ op = "+" \/ op = ">" ->
  Forall is_atom_token bs ->
  forall (m : nat) (out : list string),
    fold_left shunt_step (flat_map (fun b => [b; op]) bs) (mkShunt (repeat op m) out) =
    mkShunt (repeat op (length bs + m)) (out ++ bs).
Proof.
  intros Hop Hbs. induction Hbs as [|b bs Hb Hbs IH]; intros m out; simpl.
  - rewrite app_nil_r. reflexivity.
  - rewrite (shunt_step_atom _ b Hb). cbn [ops output].
    rewrite (shunt_step_same_operator op m _ Hop), IH.
    rewrite <- app_assoc. simpl.
    replace (length bs + S m)%nat with (S (length bs + m)) by lia. reflexivity.
Qed.

Lemma rev_chain_tokens (op a : string) (rest : list string) :
  rev (chain_tokens op a rest) = flat_map (fun b => [b; op]) (rev rest) ++ [a].
Proof.
  unfold chain_tokens. simpl. f_equal.
  induction rest as [|b rest IH]; simpl; [reflexivity|].
  rewrite IH, flat_map_app. simpl. rewrite <- !app_assoc. reflexivity.
Qed.

Lemma map_swap_paren_chain (op : string) (bs : list string) :
  op = "*" \/ op = "+" \/ op = ">" ->
  Forall is_atom_token bs ->
  map swap_paren (flat_map (fun b => [b; op]) bs) = flat_map (fun b => [b; op]) bs.
Proof.
  intros Hop Hbs. induction Hbs as [|b bs Hb Hbs IH]; simpl; [reflexivity|].
  rewrite IH, (atom_token_swap b Hb).
  destruct Hop as [-> | [-> | ->]]; reflexivity.
Qed.

Lemma infixToPrefix_chain (op a : string) (rest : list string) :
  op = "*" \/ op = "+" \/ op = ">" ->
  is_atom_token a -> Forall is_atom_token rest ->
  infixToPrefix_tokens (chain_tokens op a rest) =
  repeat op (length rest) ++ a :: rest.
Proof.
  intros Hop Ha Hrest. unfold infixToPrefix_tokens.
  assert (Hrev : Forall is_atom_token (rev rest)).
  { rewrite Forall_forall in *. intros x Hx. apply Hrest.
    apply list_elem_of_In, in_rev, list_elem_of_In, Hx. }
  rewrite rev_chain_tokens, map_app, (map_swap_paren_chain op _ Hop Hrev).
  simpl. rewrite (atom_token_swap a Ha), fold_left_app.
  pose proof (fold_shunt_chain op (rev rest) Hop Hrev 0 []) as Hfold.
  cbn [repeat app] in Hfold. rewrite Hfold. simpl.
  rewrite (shunt_step_atom _ a Ha). cbn [ops output].
  rewrite flush_ops_app, !rev_app_distr, rev_involutive, length_rev, Nat.add_0_r.
  simpl. rewrite rev_repeat. reflexivity.
Qed.

Lemma buildParseTree_loop_atoms (bs : list string) :
  Forall is_atom_token bs ->
  forall (tokens : list string) (st : list Node),
    buildParseTree_loop (rev bs ++ tokens) st =
    buildParseTree_loop tokens (map leaf bs ++ st).
Proof.
  induction 1 as [|b bs Hb Hbs IH]; intros tokens st; simpl; [reflexivity|].
  rewrite <- app_assoc, IH. simpl.
  rewrite (atom_token_not_operator b Hb). reflexivity.
Qed.

Lemma buildParseTree_loop_operators (op : string) (bs : list string) :
  op = "*" \/ op = "+" \/ op = ">" ->
  forall acc : Node,
    buildParseTree_loop (repeat op (length bs)) (acc :: map leaf bs) =
    fold_left (fun acc b => mkNode op acc (leaf b)) bs acc.
Proof.
  intros Hop. induction bs as [|b bs IH]; intros acc; simpl; [reflexivity|].
  rewrite <- IH.
  destruct Hop as [-> | [-> | ->]]; reflexivity.
Qed.

(** For every chain of one binary operator over atoms, implication
    included, the tree that is built groups to the left. *)
Lemma chain_groups_left (op a : string) (rest : list string) :
  op = "*" \/ op = "+" \/ op = ">" ->
  is_atom_token a -> Forall is_atom_token rest ->
  buildParseTree (infixToPrefix_tokens (chain_tokens op a rest)) =
  left_nested op a rest.
Proof.
  intros Hop Ha Hrest. rewrite (infixToPrefix_chain op a rest Hop Ha Hrest).
  unfold buildParseTree, left_nested.
  rewrite rev_app_distr. change (a :: rest) with ([a] ++ rest).
  rewrite rev_app_distr, <- app_assoc.
  rewrite (buildParseTree_loop_atoms rest Hrest). simpl.
  rewrite (atom_token_not_operator a Ha), app_nil_r, rev_repeat.
  apply buildParseTree_loop_operators, Hop.
Qed.

(** ** Associativity of parsed chains *)

(** C2: the line [p > q > r] is converted to the prefix tokens [> > p q r]
    and built into the tree of [(p > q) > r]: an implication chain groups to
    the left, as the chains of [*] and [+] do.  Under [p], [q], [r] all false
    that tree is false, where [p > (q > r)] is true. *)
Theorem implies_chain_parse :
  infixToPrefix "p > q > r" = [">"; ">"; "p"; "q"; "r"] /\
  parse "p > q > r" = mkNode ">" (mkNode ">" (leaf "p") (leaf "q")) (leaf "r") /\
  parse "p * q * r" = mkNode "*" (mkNode "*" (leaf "p") (leaf "q")) (leaf "r") /\
  parse "p + q + r" = mkNode "+" (mkNode "+" (leaf "p") (leaf "q")) (leaf "r") /\
  evaluate (parse "p > q > r")
    (<["p" := false]> (<["q" := false]> (<["r" := false]> ∅))) = Ok false /\
  evaluate (mkNode ">" (leaf "p") (mkNode ">" (leaf "q") (leaf "r")))
    (<["p" := false]> (<["q" := false]> (<["r" := false]> ∅))) = Ok true.
Proof. repeat split; vm_compute; reflexivity. Qed.

(** ** Tree building *)

Lemma buildParseTree_loop_null (tokens : list string) (st : list Node) :
  Forall (fun t => t <> nullptr) st ->
  buildParseTree_loop tokens st = nullptr <->
  match operand_count tokens (length st) with
  | None => True
  | Some depth => depth <> 1
  end.
Proof.
  revert st. induction tokens as [|token tokens IH]; intros st Hst; simpl.
  - destruct st as [|root [|second st]]; simpl.
    + split; [intros _; lia | reflexivity].
    + inversion Hst; subst. split; [contradiction | lia].
    + split; [intros _; lia | reflexivity].
  - destruct (isOperator token).
    + destruct (token =? "~").
      * destruct st as [|l st]; simpl; [tauto|].
        inversion Hst; subst.
        apply (IH (mkNode token l nullptr :: st)).
        constructor; [discriminate | assumption].
      * destruct st as [|l [|r st]]; simpl; [tauto | tauto |].
        inversion Hst as [|? ? _ Hst']; subst. inversion Hst'; subst.
        try rewrite Nat.sub_0_r.
        apply (IH (mkNode token l r :: st)).
        constructor; [discriminate | assumption].
    + apply (IH (leaf token :: st)).
      constructor; [discriminate | assumption].
Qed.

(** C5: [buildParseTree] returns the null pointer exactly when, visiting the
    prefix tokens from last to first, an operator cannot pop its operands or
    the final stack holds other than exactly one subtree. *)
Theorem buildParseTree_fails_iff (prefix : list string) :
  buildParseTree prefix = nullptr <-> build_fails prefix.
Proof.
  unfold buildParseTree, build_fails.
  apply (buildParseTree_loop_null (rev prefix) []). constructor.
Qed.

Lemma buildParseTree_loop_well_formed (tokens : list string) (st : list Node) :
  Forall well_formed st ->
  buildParseTree_loop tokens st <> nullptr ->
  well_formed (buildParseTree_loop tokens st).
Proof.
  revert st. induction tokens as [|token tokens IH]; intros st Hst; simpl.
  - destruct st as [|root [|second st]]; try congruence.
    intros _. inversion Hst; assumption.
  - destruct (isOperator token) eqn:Hop.
    + destruct (token =? "~") eqn:Hnot.
      * destruct st as [|l st]; [congruence|].
        apply String.eqb_eq in Hnot; subst token.
        inversion Hst; subst. apply IH. constructor; [|assumption].
        constructor; assumption.
      * destruct st as [|l [|r st]]; [congruence | congruence |].
        inversion Hst as [|? ? Hl Hst']; subst.
        inversion Hst' as [|? ? Hr Hst'']; subst.
        apply IH. constructor; [|assumption].
        apply isOperator_true in Hop. apply String.eqb_neq in Hnot.
        constructor; [tauto | assumption | assumption].
    + apply IH. constructor; [|assumption]. constructor; assumption.
Qed.

(** A tree that [buildParseTree] returns is well formed. *)
Lemma buildParseTree_well_formed (prefix : list string) :
  buildParseTree prefix <> nullptr -> well_formed (buildParseTree prefix).
Proof.
  apply buildParseTree_loop_well_formed. constructor.
Qed.

(** ** The evaluator on malformed internal nodes *)

Lemma evaluateNode_evaluate (root : Node) (values : gmap string bool) :
  evaluateNode root values = evaluate root values.
Proof.
  induction root as [|value l IHl r IHr]; simpl; [reflexivity|].
  rewrite IHl, IHr. reflexivity.
Qed.

(** C10: a node with at least one child whose value is none of [~], [*],
    [+], [>] evaluates to [false] under every assignment, in [evaluate] and
    in [evaluateNode] alike; no failure is signalled. *)
Theorem evaluate_unrecognized_operator
    (value : string) (l r : Node) (values : gmap string bool) :
  no_children l r = false ->
  isOperator value = false ->
  evaluate (mkNode value l r) values = Ok false /\
  evaluateNode (mkNode value l r) values = Ok false.
Proof.
  intros Hc Hop.
  apply isOperator_false in Hop. destruct Hop as (Hand & Hor & Himp & Hnot).
  simpl. rewrite Hc, Hnot, Hand, Hor, Himp. split; reflexivity.
Qed.

Lemma evaluate_unrecognized_operator_witness :
  evaluate (mkNode "&" (leaf "p") (leaf "q")) ∅ = Ok false /\
  evaluateNode (mkNode "&" (leaf "p") (leaf "q")) ∅ = Ok false.
Proof.
  apply (evaluate_unrecognized_operator "&" (leaf "p") (leaf "q") ∅);
    reflexivity.
Defined.

(** ** Atoms and total evaluation *)

Lemma collectAtoms_In (a : string) (t : Node) (atoms : list string) :
  In a (collectAtoms t atoms) <-> In a atoms \/ atom_in a t.
Proof.
  revert atoms. induction t as [|value l IHl r IHr]; intros atoms; simpl.
  - tauto.
  - rewrite IHr, IHl.
    destruct (no_children l r); destruct (isOperator value); simpl;
      rewrite ?set_insert_In; intuition congruence.
Qed.

Lemma complete_leaves_defined (values : gmap string bool) (t : Node) :
  well_formed t -> complete values t -> leaves_defined values t.
Proof.
  unfold complete. intros Hwf.
  induction Hwf as [name Hname | l Hl IHl | op l r Hop Hl IHl Hr IHr];
    intros Hc.
  - simpl. split; [|tauto]. intros _. apply Hc.
    apply collectAtoms_In. right. simpl. tauto.
  - simpl. rewrite (no_children_left l nullptr (well_formed_not_null l Hl)).
    split; [discriminate|]. split; [|exact I].
    apply IHl. intros a Ha. apply Hc.
    apply collectAtoms_In in Ha. apply collectAtoms_In. simpl. tauto.
  - simpl. rewrite (no_children_left l r (well_formed_not_null l Hl)).
    split; [discriminate|]. split.
    + apply IHl. intros a Ha. apply Hc.
      apply collectAtoms_In in Ha. apply collectAtoms_In. simpl. tauto.
    + apply IHr. intros a Ha. apply Hc.
      apply collectAtoms_In in Ha. apply collectAtoms_In. simpl. tauto.
Qed.

Lemma evaluate_denote (values : gmap string bool) (t : Node) :
  well_formed t -> leaves_defined values t ->
  evaluate t values = Ok (denote values t).
Proof.
  induction 1 as [name Hname | l Hl IHl | op l r Hop Hl IHl Hr IHr];
    cbn [evaluate denote leaves_defined leaf no_children].
  - intros (Hv & _). destruct (Hv eq_refl) as [b Hb].
    unfold map_at. rewrite Hb. reflexivity.
  - intros (_ & Hdl & _).
    rewrite (no_children_left l nullptr (well_formed_not_null l Hl)).
    change ("~" =? "~") with true. cbv iota. rewrite (IHl Hdl). reflexivity.
  - intros (_ & Hdl & Hdr).
    rewrite (no_children_left l r (well_formed_not_null l Hl)).
    rewrite (IHl Hdl), (IHr Hdr).
    destruct Hop as [-> | [-> | ->]]; simpl;
      destruct (denote values l); reflexivity.
Qed.

(** ** The truth table for up to 30 atoms *)

Lemma set_insert_HdRel (x y : string) (s : list string) :
  String_as_OT.lt y x ->
  HdRel String_as_OT.lt y s ->
  HdRel String_as_OT.lt y (set_insert x s).
Proof.
  intros Hyx Hs. destruct s as [|z s]; simpl; [constructor; assumption|].
  destruct (String_as_OT.compare x z); [assumption | constructor; assumption |].
  inversion Hs; subst. constructor; assumption.
Qed.

Lemma set_insert_sorted (x : string) (s : list string) :
  Sorted String_as_OT.lt s -> Sorted String_as_OT.lt (set_insert x s).
Proof.
  induction 1 as [|y s Hs IH Hhd]; simpl; [repeat constructor|].
  destruct (String_as_OT.compare_spec x y) as [Heq|Hlt|Hgt].
  - constructor; assumption.
  - constructor; [constructor; assumption | constructor; assumption].
  - constructor; [assumption | apply set_insert_HdRel; assumption].
Qed.

Lemma collectAtoms_sorted (t : Node) (atoms : list string) :
  Sorted String_as_OT.lt atoms -> Sorted String_as_OT.lt (collectAtoms t atoms).
Proof.
  revert atoms. induction t as [|value l IHl r IHr]; intros atoms Hs; simpl;
    [assumption|].
  apply IHr, IHl.
  destruct (no_children l r && negb (isOperator value));
    [apply set_insert_sorted|]; assumption.
Qed.

Lemma collectAtoms_StronglySorted (t : Node) :
  StronglySorted String_as_OT.lt (collectAtoms t []).
Proof.
  apply Sorted_StronglySorted.
  - intros x y z. apply String_as_OT.lt_strorder.
  - apply collectAtoms_sorted. constructor.
Qed.

Lemma StronglySorted_lt_NoDup (s : list string) :
  StronglySorted String_as_OT.lt s -> NoDup s.
Proof.
  induction 1 as [|x s Hs IH Hall]; constructor; [|assumption].
  intros Hin. rewrite Forall_forall in Hall.
  apply (StrictOrder_Irreflexive (R := String_as_OT.lt) x), Hall, Hin.
Qed.

Lemma land_1_testbit (x : Z) : Z.land x 1 = Z.b2z (Z.testbit x 0).
Proof.
  rewrite Z.bit0_mod. apply (Z.land_ones x 1). lia.
Qed.

Lemma bit_of_testbit (n i j : Z) :
  (0 <= n - j - 1)%Z -> bit_of n i j = Z.testbit i (n - j - 1).
Proof.
  intros Hk. unfold bit_of. rewrite land_1_testbit.
  rewrite Z.shiftr_spec by lia. rewrite Z.add_0_l.
  destruct (Z.testbit i (n - j - 1)); reflexivity.
Qed.

Lemma fill_row_values (n i : Z) (rest : list string) :
  forall (j : Z) (assignment : gmap string bool) (printed : list bool),
    snd (fill_row n i j rest assignment printed) =
    printed ++ map (fun k => bit_of n i (j + Z.of_nat k)) (seq 0 (length rest)).
Proof.
  induction rest as [|atom rest IH]; intros j assignment printed; simpl.
  - rewrite app_nil_r. reflexivity.
  - rewrite IH, <- app_assoc. simpl. f_equal. f_equal.
    + unfold bit_of. f_equal. f_equal. f_equal. f_equal. lia.
    + rewrite <- seq_shift, map_map. apply map_ext. intros k.
      f_equal. lia.
Qed.

Lemma fill_row_other (n i : Z) (rest : list string) (a : string) :
  forall (j : Z) (assignment : gmap string bool) (printed : list bool),
    ~ In a rest ->
    fst (fill_row n i j rest assignment printed) !! a = assignment !! a.
Proof.
  induction rest as [|atom rest IH]; intros j assignment printed Hnot; simpl;
    [reflexivity|].
  simpl in Hnot. rewrite IH by tauto.
  apply lookup_insert_ne. intros ->. tauto.
Qed.

Lemma fill_row_assignment (n i : Z) (rest : list string) :
  forall (j : Z) (assignment : gmap string bool) (printed : list bool)
         (k : nat) (a : string),
    NoDup rest ->
    rest !! k = Some a ->
    fst (fill_row n i j rest assignment printed) !! a =
    Some (bit_of n i (j + Z.of_nat k)).
Proof.
  induction rest as [|atom rest IH]; intros j assignment printed k a Hnd Hk;
    [discriminate|].
  apply NoDup_cons in Hnd. destruct Hnd as [Hnot Hnd].
  destruct k as [|k]; simpl in Hk |- *.
  - inversion Hk; subst.
    rewrite fill_row_other by (rewrite <- list_elem_of_In; exact Hnot).
    rewrite lookup_insert_eq. unfold bit_of. do 6 f_equal. lia.
  - rewrite (IH _ _ _ k a Hnd Hk). do 2 f_equal. lia.
Qed.

Lemma rows_loop_spec (root : Node) (atoms : list string) (n : Z) (count : nat) :
  forall i : Z,
    (forall k, (k < count)%nat ->
       evaluateNode root (fst (fill_row n (i + Z.of_nat k) 0 atoms ∅ [])) =
       Ok (denote (fst (fill_row n (i + Z.of_nat k) 0 atoms ∅ [])) root)) ->
    rows_loop root atoms n count i =
    Ok (map (fun k => row_of root atoms n (i + Z.of_nat k)) (seq 0 count)).
Proof.
  induction count as [|count IH]; intros i Hev; [reflexivity|].
  cbn [rows_loop seq map]. unfold row_of at 1.
  pose proof (Hev 0%nat ltac:(lia)) as H0. rewrite Z.add_0_r in *.
  destruct (fill_row n i 0 atoms ∅ []) as [assignment printed].
  simpl in H0. rewrite H0, bind_Ok_eq.
  rewrite (IH (i + 1)%Z).
  - rewrite bind_Ok_eq. f_equal. f_equal.
    rewrite <- seq_shift, map_map. apply map_ext. intros k. f_equal. lia.
  - intros k Hk. pose proof (Hev (S k) ltac:(lia)) as HS.
    replace (i + 1 + Z.of_nat k)%Z with (i + Z.of_nat (S k))%Z by lia.
    exact HS.
Qed.

Lemma well_formed_has_atom (t : Node) : well_formed t -> exists a, atom_in a t.
Proof.
  induction 1 as [name Hname | l Hl [a Ha] | op l r Hop Hl [a Ha] Hr _].
  - exists name. simpl. tauto.
  - exists a. simpl. tauto.
  - exists a. simpl. tauto.
Qed.

Lemma row_evaluates (t : Node) (n i : Z) :
  well_formed t ->
  evaluateNode t (fst (fill_row n i 0 (collectAtoms t []) ∅ [])) =
  Ok (denote (fst (fill_row n i 0 (collectAtoms t []) ∅ [])) t).
Proof.
  intros Hwf. change evaluateNode with evaluate.
  apply evaluate_denote; [assumption|].
  apply complete_leaves_defined; [assumption|].
  intros a Ha. apply list_elem_of_In, list_elem_of_lookup in Ha.
  destruct Ha as [k Hk].
  rewrite (fill_row_assignment n i _ 0 ∅ [] k a); [eauto| |exact Hk].
  apply StronglySorted_lt_NoDup, collectAtoms_StronglySorted.
Qed.

Lemma shl_int_small (n : nat) :
  (n <= 30)%nat -> shl_int 1 (Z.of_nat n) = Ok (Z.of_nat (2 ^ n)).
Proof.
  intros Hn. unfold shl_int, int_width.
  replace ((Z.of_nat n <? 0)%Z || (32 <=? Z.of_nat n)%Z) with false
    by (symmetry; apply orb_false_iff; split; [apply Z.ltb_ge | apply Z.leb_gt]; lia).
  rewrite Z.shiftl_1_l. f_equal. unfold wrap_int, int_width.
  rewrite Nat2Z.inj_pow. change (Z.of_nat 2) with 2%Z.
  assert (Hle : (2 ^ Z.of_nat n <= 2 ^ 30)%Z) by (apply Z.pow_le_mono_r; lia).
  assert (Hpos : (0 < 2 ^ Z.of_nat n)%Z) by (apply Z.pow_pos_nonneg; lia).
  change (2 ^ 30)%Z with 1073741824%Z in Hle.
  change (2 ^ (32 - 1))%Z with 2147483648%Z.
  change (2 ^ 32)%Z with 4294967296%Z.
  rewrite Z.mod_small by lia. lia.
Qed.

Lemma testbit_eq_below (n : nat) (i1 i2 : Z) :
  (0 <= i1 < 2 ^ Z.of_nat n)%Z -> (0 <= i2 < 2 ^ Z.of_nat n)%Z ->
  (forall k : nat, (k < n)%nat ->
     Z.testbit i1 (Z.of_nat k) = Z.testbit i2 (Z.of_nat k)) ->
  i1 = i2.
Proof.
  intros H1 H2 Hbits. apply Z.bits_inj'. intros k Hk.
  destruct (Z.lt_ge_cases k (Z.of_nat n)) as [Hlt|Hge].
  - rewrite <- (Z2Nat.id k Hk). apply Hbits. lia.
  - rewrite <- (Z.mod_small i1 (2 ^ Z.of_nat n)), <- (Z.mod_small i2 (2 ^ Z.of_nat n))
      by assumption.
    rewrite !Z.mod_pow2_bits_high by lia. reflexivity.
Qed.

Lemma well_formed_atoms_nonempty (t : Node) :
  well_formed t -> (1 <= length (collectAtoms t []))%nat.
Proof.
  intros Hwf. destruct (well_formed_has_atom t Hwf) as [a Ha].
  assert (Hin : In a (collectAtoms t [])) by (apply collectAtoms_In; tauto).
  destruct (collectAtoms t []); [contradiction | simpl; lia].
Qed.

(** The rows printed for a well-formed tree with at most 30 atoms. *)
Lemma generateTruthTable_rows (t : Node) :
  well_formed t ->
  (length (collectAtoms t []) <= 30)%nat ->
  generateTruthTable t =
  Ok (Table (collectAtoms t [])
        (map (fun k => row_of t (collectAtoms t [])
                         (Z.of_nat (length (collectAtoms t []))) (Z.of_nat k))
             (seq 0 (2 ^ length (collectAtoms t []))))).
Proof.
  intros Hwf Hn. pose proof (well_formed_atoms_nonempty t Hwf) as Hpos.
  unfold generateTruthTable.
  destruct t as [|value l r]; [inversion Hwf|].
  set (t := mkNode value l r) in *.
  set (atoms := collectAtoms t []) in *.
  replace (Z.of_nat (length atoms) =? 0)%Z with false
    by (symmetry; apply Z.eqb_neq; lia).
  rewrite (shl_int_small _ Hn), bind_Ok_eq, Nat2Z.id.
  rewrite (rows_loop_spec t atoms _ _ 0%Z).
  - reflexivity.
  - intros k _. apply row_evaluates, Hwf.
Qed.

Lemma row_of_fields (root : Node) (atoms : list string) (n i : Z) :
  row_assignment (row_of root atoms n i) = fst (fill_row n i 0 atoms ∅ []) /\
  row_values (row_of root atoms n i) = snd (fill_row n i 0 atoms ∅ []) /\
  row_result (row_of root atoms n i) = denote (fst (fill_row n i 0 atoms ∅ [])) root.
Proof.
  unfold row_of. destruct (fill_row n i 0 atoms ∅ []); simpl. tauto.
Qed.

Lemma rows_lookup (t : Node) (atoms : list string) (n : Z) (count i : nat) (r : row) :
  map (fun k => row_of t atoms n (Z.of_nat k)) (seq 0 count) !! i = Some r ->
  (i < count)%nat /\ r = row_of t atoms n (Z.of_nat i).
Proof.
  change (map ?f ?l) with (f <$> l). rewrite list_lookup_fmap.
  destruct (seq 0 count !! i) as [k|] eqn:Hk; [|discriminate].
  apply lookup_seq in Hk. destruct Hk as [-> Hlt]. simpl.
  intros H. inversion H. split; [assumption | reflexivity].
Qed.

(** The truth table of a well-formed tree with [n <= 30] atoms: the columns
    are the atoms in ascending order, there are [2^n] rows with pairwise
    distinct assignments, and in row [i] atom [j] has bit [n-1-j] of [i],
    both as printed and in the assignment under which the result is
    evaluated. *)
Lemma truth_table_shape (t : Node) :
  well_formed t ->
  (length (collectAtoms t []) <= 30)%nat ->
  StronglySorted String_as_OT.lt (collectAtoms t []) /\
  exists rows,
    generateTruthTable t = Ok (Table (collectAtoms t []) rows) /\
    length rows = (2 ^ length (collectAtoms t []))%nat /\
    NoDup (map row_assignment rows) /\
    forall (i : nat) (r : row),
      rows !! i = Some r ->
      evaluate t (row_assignment r) = Ok (row_result r) /\
      forall (j : nat) (a : string),
        collectAtoms t [] !! j = Some a ->
        let b := Z.testbit (Z.of_nat i)
                   (Z.of_nat (length (collectAtoms t []) - 1 - j)) in
        row_values r !! j = Some b /\ row_assignment r !! a = Some b.
Proof.
  intros Hwf Hn. split; [apply collectAtoms_StronglySorted|].
  pose proof (StronglySorted_lt_NoDup _ (collectAtoms_StronglySorted t)) as Hnd.
  rewrite (generateTruthTable_rows t Hwf Hn).
  set (atoms := collectAtoms t []) in *.
  set (n := length atoms) in *.
  eexists. split; [reflexivity|].
  assert (Hrow : forall (i : nat) (j : nat) (a : string),
    atoms !! j = Some a ->
    snd (fill_row (Z.of_nat n) (Z.of_nat i) 0 atoms ∅ []) !! j =
      Some (Z.testbit (Z.of_nat i) (Z.of_nat (n - 1 - j))) /\
    fst (fill_row (Z.of_nat n) (Z.of_nat i) 0 atoms ∅ []) !! a =
      Some (Z.testbit (Z.of_nat i) (Z.of_nat (n - 1 - j)))).
  { intros i j a Hj. pose proof (lookup_lt_Some _ _ _ Hj) as Hlt. fold n in Hlt.
    assert (Hbit : bit_of (Z.of_nat n) (Z.of_nat i) (0 + Z.of_nat j) =
                   Z.testbit (Z.of_nat i) (Z.of_nat (n - 1 - j))).
    { rewrite bit_of_testbit by lia. f_equal. lia. }
    split.
    - rewrite fill_row_values. simpl.
      change (map ?f ?l) with (f <$> l). rewrite list_lookup_fmap.
      rewrite lookup_seq_lt by exact Hlt. simpl. rewrite Hbit. reflexivity.
    - rewrite (fill_row_assignment _ _ _ _ _ _ j a Hnd Hj), Hbit. reflexivity. }
  split; [rewrite length_map, length_seq; reflexivity|].
  split.
  - apply NoDup_alt. intros i1 i2 x H1 H2.
    change (map ?f ?l) with (f <$> l) in H1, H2.
    rewrite list_lookup_fmap in H1, H2.
    destruct (_ !! i1) as [r1|] eqn:Hr1 in H1; [|discriminate].
    destruct (_ !! i2) as [r2|] eqn:Hr2 in H2; [|discriminate].
    apply rows_lookup in Hr1, Hr2.
    destruct Hr1 as [Hlt1 ->], Hr2 as [Hlt2 ->].
    simpl in H1, H2. inversion H1 as [Hx1]. inversion H2 as [Hx2].
    rewrite <- Hx2 in Hx1.
    rewrite !(proj1 (row_of_fields _ _ _ _)) in Hx1.
    apply Nat2Z.inj, (testbit_eq_below n).
    + split; [lia|]. rewrite <- (Nat2Z.inj_pow 2). lia.
    + split; [lia|]. rewrite <- (Nat2Z.inj_pow 2). lia.
    + intros k Hk.
      destruct (lookup_lt_is_Some_2 atoms (n - 1 - k)) as [a Ha]; [fold n; lia|].
      destruct (Hrow i1 _ _ Ha) as [_ Ha1]. destruct (Hrow i2 _ _ Ha) as [_ Ha2].
      rewrite Hx1, Ha2 in Ha1.
      replace (n - 1 - (n - 1 - k))%nat with k in Ha1 by lia. congruence.
  - intros i r Hr. apply rows_lookup in Hr. destruct Hr as [Hlt ->].
    destruct (row_of_fields t atoms (Z.of_nat n) (Z.of_nat i)) as (Hra & Hrv & Hrr).
    rewrite Hra, Hrv, Hrr. split.
    + apply (row_evaluates t (Z.of_nat n) (Z.of_nat i) Hwf).
    + intros j a Hj. apply Hrow, Hj.
Qed.

(** A tree without atoms gets no rows. *)
Lemma truth_table_no_atoms (t : Node) :
  collectAtoms t [] = [] ->
  generateTruthTable t = Ok EmptyTree \/ generateTruthTable t = Ok NoAtoms.
Proof.
  intros Hnone. destruct t as [|value l r]; [left; reflexivity|].
  right. unfold generateTruthTable. rewrite Hnone. reflexivity.
Qed.

(** ** The truth table *)

(** C8 on a tree with 31 atoms: [1 << n] does not fit in an [int], [total]
    is negative and the row loop does not run; the header is printed and no
    row follows, where the claim has 2^31 rows.  With 32 atoms the shift
    itself is undefined. *)
Theorem truth_table_31_atoms :
  well_formed atoms31 /\
  length (collectAtoms atoms31 []) = 31 /\
  shl_int 1 31 = Ok (- 2 ^ 31)%Z /\
  generateTruthTable atoms31 = Ok (Table (collectAtoms atoms31 []) []) /\
  well_formed atoms32 /\
  length (collectAtoms atoms32 []) = 32 /\
  generateTruthTable atoms32 = Fail ShiftTooWide.
Proof.
  split; [apply buildParseTree_well_formed; vm_compute; discriminate|].
  split; [vm_compute; reflexivity|].
  split; [vm_compute; reflexivity|].
  split; [vm_compute; reflexivity|].
  split; [apply buildParseTree_well_formed; vm_compute; discriminate|].
  split; vm_compute; reflexivity.
Qed.

(** ** The CNF passes: shape of the trees *)

(** The defining equations of [moveNegations], in one piece. *)
Lemma moveNegations_body (root : Node) :
  moveNegations root =
  match root with
  | nullptr => nullptr
  | mkNode value l r =>
      if no_children l r then root
      else if value =? "~" then
        match l with
        | nullptr => nullptr
        | mkNode cvalue cleft cright =>
            if cvalue =? "~" then moveNegations cleft
            else if cvalue =? "+" then
              mkNode "*" (moveNegations (mkNode "~" cleft nullptr))
                         (moveNegations (mkNode "~" cright nullptr))
            else if cvalue =? "*" then
              mkNode "+" (moveNegations (mkNode "~" cleft nullptr))
                         (moveNegations (mkNode "~" cright nullptr))
            else root
        end
      else mkNode value (moveNegations l) (moveNegations r)
  end.
Proof.
  destruct root as [|value l r]; simp moveNegations; [reflexivity|].
  destruct (no_children l r); simp moveNegations; [reflexivity|].
  destruct (value =? "~"); simp moveNegations; [|reflexivity].
  destruct l as [|cvalue cleft cright]; unfold inspect; simp moveNegations;
    [reflexivity|].
  destruct (cvalue =? "~"); simp moveNegations; [reflexivity|].
  destruct (cvalue =? "+"); simp moveNegations; [reflexivity|].
  destruct (cvalue =? "*"); simp moveNegations; reflexivity.
Qed.

Lemma moveNegations_leaf (name : string) :
  moveNegations (leaf name) = leaf name.
Proof. rewrite moveNegations_body. reflexivity. Qed.

Lemma moveNegations_not_not (a b r : Node) :
  moveNegations (mkNode "~" (mkNode "~" a b) r) = moveNegations a.
Proof. rewrite moveNegations_body. reflexivity. Qed.

Lemma moveNegations_not_or (a b r : Node) :
  moveNegations (mkNode "~" (mkNode "+" a b) r) =
  mkNode "*" (moveNegations (mkNode "~" a nullptr))
             (moveNegations (mkNode "~" b nullptr)).
Proof. rewrite moveNegations_body. reflexivity. Qed.

Lemma moveNegations_not_and (a b r : Node) :
  moveNegations (mkNode "~" (mkNode "*" a b) r) =
  mkNode "+" (moveNegations (mkNode "~" a nullptr))
             (moveNegations (mkNode "~" b nullptr)).
Proof. rewrite moveNegations_body. reflexivity. Qed.

Lemma moveNegations_not_atom (name : string) :
  isOperator name = false ->
  moveNegations (mkNode "~" (leaf name) nullptr) = mkNode "~" (leaf name) nullptr.
Proof.
  intros H. apply isOperator_false in H. destruct H as (Hand & Hor & _ & Hnot).
  rewrite moveNegations_body. unfold leaf. cbn [no_children].
  change ("~" =? "~") with true. cbv iota.
  rewrite Hnot, Hor, Hand. reflexivity.
Qed.

Lemma moveNegations_node (value : string) (l r : Node) :
  (value =? "~") = false -> no_children l r = false ->
  moveNegations (mkNode value l r) =
  mkNode value (moveNegations l) (moveNegations r).
Proof.
  intros Hv Hc. rewrite moveNegations_body, Hc, Hv. reflexivity.
Qed.

Lemma moveNegations_nullptr : moveNegations nullptr = nullptr.
Proof. rewrite moveNegations_body. reflexivity. Qed.

Lemma implication_free_not_null (t : Node) : implication_free t -> t <> nullptr.
Proof. destruct 1; discriminate. Qed.

Lemma nnf_not_null (t : Node) : nnf t -> t <> nullptr.
Proof. destruct 1; discriminate. Qed.

Lemma clause_nnf (t : Node) : clause t -> nnf t.
Proof. induction 1; constructor; assumption. Qed.

Lemma cnf_nnf (t : Node) : cnf t -> nnf t.
Proof. induction 1; [apply clause_nnf; assumption | constructor; assumption]. Qed.

Lemma nnf_implication_free (t : Node) : nnf t -> implication_free t.
Proof. induction 1; repeat constructor; assumption. Qed.

Lemma implication_free_well_formed (t : Node) : implication_free t -> well_formed t.
Proof. induction 1; constructor; auto. Qed.

Lemma nnf_negations_on_atoms (t : Node) : nnf t -> negations_on_atoms t.
Proof.
  induction 1 as [name Hname | name Hname | l r Hl IHl Hr IHr | l r Hl IHl Hr IHr];
    simpl.
  - split; [|tauto]. intros ->. discriminate.
  - split; [intros _; split; [eauto | reflexivity]|].
    split; [|exact I]. split; [|tauto]. intros ->. discriminate.
  - split; [discriminate | tauto].
  - split; [discriminate | tauto].
Qed.

Lemma eliminateImplications_implication_free (t : Node) :
  well_formed t -> implication_free (eliminateImplications t).
Proof.
  induction 1 as [name Hname | l Hl IHl | op l r Hop Hl IHl Hr IHr].
  - simpl. constructor; assumption.
  - cbn [eliminateImplications].
    rewrite (no_children_left l nullptr (well_formed_not_null l Hl)).
    change ("~" =? ">") with false. cbv iota. constructor; assumption.
  - cbn [eliminateImplications].
    rewrite (no_children_left l r (well_formed_not_null l Hl)).
    destruct Hop as [-> | [-> | ->]].
    + change ("*" =? ">") with false. constructor; assumption.
    + change ("+" =? ">") with false. constructor; assumption.
    + change (">" =? ">") with true. repeat constructor; assumption.
Qed.

Lemma moveNegations_nnf_both (t : Node) :
  implication_free t ->
  nnf (moveNegations t) /\ nnf (moveNegations (mkNode "~" t nullptr)).
Proof.
  induction 1 as [name Hname | l Hl [IHl IHnl]
                 | l r Hl [IHl IHnl] Hr [IHr IHnr]
                 | l r Hl [IHl IHnl] Hr [IHr IHnr]].
  - rewrite moveNegations_leaf, moveNegations_not_atom by assumption.
    split; constructor; assumption.
  - rewrite moveNegations_not_not. tauto.
  - rewrite moveNegations_not_and, moveNegations_node;
      [| reflexivity | apply no_children_left, implication_free_not_null, Hl].
    split; constructor; assumption.
  - rewrite moveNegations_not_or, moveNegations_node;
      [| reflexivity | apply no_children_left, implication_free_not_null, Hl].
    split; constructor; assumption.
Qed.

Lemma moveNegations_nnf (t : Node) :
  implication_free t -> nnf (moveNegations t).
Proof. intros H. apply moveNegations_nnf_both, H. Qed.

Lemma eliminateImplications_fixed (t : Node) :
  implication_free t -> eliminateImplications t = t.
Proof.
  induction 1 as [name Hname | l Hl IHl | l r Hl IHl Hr IHr | l r Hl IHl Hr IHr];
    cbn [eliminateImplications]; [reflexivity | | |];
    rewrite (no_children_left l _ (implication_free_not_null l Hl)), IHl.
  - reflexivity.
  - rewrite IHr. reflexivity.
  - rewrite IHr. reflexivity.
Qed.

Lemma moveNegations_fixed (t : Node) : nnf t -> moveNegations t = t.
Proof.
  induction 1 as [name Hname | name Hname | l r Hl IHl Hr IHr | l r Hl IHl Hr IHr].
  - apply moveNegations_leaf.
  - apply moveNegations_not_atom, Hname.
  - rewrite moveNegations_node, IHl, IHr;
      [reflexivity | reflexivity | apply no_children_left, nnf_not_null, Hl].
  - rewrite moveNegations_node, IHl, IHr;
      [reflexivity | reflexivity | apply no_children_left, nnf_not_null, Hl].
Qed.

(** ** The CNF passes: meaning *)

Lemma eliminateImplications_denote (values : gmap string bool) (t : Node) :
  well_formed t ->
  denote values (eliminateImplications t) = denote values t /\
  (leaves_defined values t -> leaves_defined values (eliminateImplications t)).
Proof.
  induction 1 as [name Hname | l Hl [IHl IHdl] | op l r Hop Hl [IHl IHdl] Hr [IHr IHdr]].
  - simpl. tauto.
  - cbn [eliminateImplications].
    rewrite (no_children_left l nullptr (well_formed_not_null l Hl)).
    change ("~" =? ">") with false. cbv iota.
    pose proof (implication_free_not_null _
                  (eliminateImplications_implication_free l Hl)) as Hnn.
    cbn [denote leaves_defined].
    rewrite (no_children_left _ nullptr Hnn),
            (no_children_left l nullptr (well_formed_not_null l Hl)).
    simpl. rewrite IHl. intuition discriminate.
  - pose proof (implication_free_not_null _
                  (eliminateImplications_implication_free l Hl)) as Hnn.
    cbn [eliminateImplications].
    rewrite (no_children_left l r (well_formed_not_null l Hl)).
    destruct Hop as [-> | [-> | ->]].
    + change ("*" =? ">") with false. cbv iota. cbn [denote leaves_defined].
      rewrite (no_children_left _ _ Hnn),
              (no_children_left l r (well_formed_not_null l Hl)).
      simpl. rewrite IHl, IHr. intuition discriminate.
    + change ("+" =? ">") with false. cbv iota. cbn [denote leaves_defined].
      rewrite (no_children_left _ _ Hnn),
              (no_children_left l r (well_formed_not_null l Hl)).
      simpl. rewrite IHl, IHr. intuition discriminate.
    + change (">" =? ">") with true. cbv iota. cbn [denote leaves_defined].
      rewrite (no_children_left _ _ Hnn),
              (no_children_left l r (well_formed_not_null l Hl)).
      simpl. rewrite IHl, IHr. intuition discriminate.
Qed.

Lemma moveNegations_denote (values : gmap string bool) (t : Node) :
  implication_free t ->
  (denote values (moveNegations t) = denote values t /\
   denote values (moveNegations (mkNode "~" t nullptr)) = negb (denote values t)) /\
  (leaves_defined values t ->
   leaves_defined values (moveNegations t) /\
   leaves_defined values (moveNegations (mkNode "~" t nullptr))).
Proof.
  induction 1 as [name Hname | l Hl [[IHl IHnl] IHd]
                 | l r Hl [[IHl IHnl] IHdl] Hr [[IHr IHnr] IHdr]
                 | l r Hl [[IHl IHnl] IHdl] Hr [[IHr IHnr] IHdr]].
  - rewrite moveNegations_leaf, moveNegations_not_atom by assumption.
    simpl. intuition discriminate.
  - rewrite moveNegations_not_not.
    pose proof (implication_free_not_null l Hl) as Hnn.
    cbn [denote leaves_defined]. rewrite (no_children_left l nullptr Hnn).
    simpl. rewrite IHl, IHnl, negb_involutive. intuition auto.
  - pose proof (implication_free_not_null l Hl) as Hnn.
    pose proof (nnf_not_null _ (moveNegations_nnf l Hl)) as Hnl.
    pose proof (nnf_not_null _ (proj2 (moveNegations_nnf_both l Hl))) as Hnnl.
    rewrite moveNegations_not_and, moveNegations_node;
      [| reflexivity | apply no_children_left, Hnn].
    cbn [denote leaves_defined].
    rewrite (no_children_left _ _ Hnn), (no_children_left _ _ Hnl),
            (no_children_left _ _ Hnnl).
    simpl. rewrite IHl, IHr, IHnl, IHnr, negb_andb. intuition discriminate.
  - pose proof (implication_free_not_null l Hl) as Hnn.
    pose proof (nnf_not_null _ (moveNegations_nnf l Hl)) as Hnl.
    pose proof (nnf_not_null _ (proj2 (moveNegations_nnf_both l Hl))) as Hnnl.
    rewrite moveNegations_not_or, moveNegations_node;
      [| reflexivity | apply no_children_left, Hnn].
    cbn [denote leaves_defined].
    rewrite (no_children_left _ _ Hnn), (no_children_left _ _ Hnl),
            (no_children_left _ _ Hnnl).
    simpl. rewrite IHl, IHr, IHnl, IHnr, negb_orb. intuition discriminate.
Qed.

(** ** The distribution pass *)

Lemma distribute_rec_node (n : nat) (value : string) (l r : Node) :
  distribute_rec (S n) (mkNode value l r) =
  if no_children l r then Ok (mkNode value l r)
  else
    do A <- distribute_rec n l;
    do B <- distribute_rec n r;
    if value =? "+" then
      match A with
      | nullptr => Fail NullDereference
      | mkNode avalue aleft aright =>
          if avalue =? "*" then
            do x <- distribute_rec n (mkNode "+" aleft B);
            do y <- distribute_rec n (mkNode "+" aright B);
            Ok (mkNode "*" x y)
          else
            match B with
            | nullptr => Fail NullDereference
            | mkNode bvalue bleft bright =>
                if bvalue =? "*" then
                  do x <- distribute_rec n (mkNode "+" A bleft);
                  do y <- distribute_rec n (mkNode "+" A bright);
                  Ok (mkNode "*" x y)
                else Ok (mkNode value A B)
            end
      end
    else Ok (mkNode value A B).
Proof. reflexivity. Qed.

Lemma cnf_not_null (t : Node) : cnf t -> t <> nullptr.
Proof. intros H. apply nnf_not_null, cnf_nnf, H. Qed.

Lemma clause_value_not_and (value : string) (l r : Node) :
  clause (mkNode value l r) -> (value =? "*") = false.
Proof.
  inversion 1; subst; try reflexivity.
  match goal with H : isOperator _ = false |- _ =>
    apply isOperator_false in H; tauto end.
Qed.

Lemma cnf_cases (value : string) (l r : Node) :
  cnf (mkNode value l r) ->
  (value = "*" /\ cnf l /\ cnf r) \/
  ((value =? "*") = false /\ clause (mkNode value l r)).
Proof.
  inversion 1 as [t Hc | l' r' Hl Hr]; subst.
  - right. split; [eapply clause_value_not_and; eassumption | assumption].
  - left. tauto.
Qed.

Lemma denote_or (values : gmap string bool) (l r : Node) :
  l <> nullptr ->
  denote values (mkNode "+" l r) = denote values l || denote values r.
Proof. intros H. cbn [denote]. rewrite (no_children_left l r H). reflexivity. Qed.

Lemma denote_and (values : gmap string bool) (l r : Node) :
  l <> nullptr ->
  denote values (mkNode "*" l r) = denote values l && denote values r.
Proof. intros H. cbn [denote]. rewrite (no_children_left l r H). reflexivity. Qed.

Lemma leaves_defined_node (values : gmap string bool) (value : string) (l r : Node) :
  l <> nullptr ->
  leaves_defined values (mkNode value l r) <->
  leaves_defined values l /\ leaves_defined values r.
Proof.
  intros H. cbn [leaves_defined]. rewrite (no_children_left l r H).
  intuition discriminate.
Qed.

Lemma distributed_from_or_left (a1 a2 B x y : Node) :
  cnf a1 -> cnf a2 -> cnf B ->
  distributed_from (mkNode "+" a1 B) x ->
  distributed_from (mkNode "+" a2 B) y ->
  distributed_from (mkNode "+" (mkNode "*" a1 a2) B) (mkNode "*" x y).
Proof.
  intros H1 H2 HB [Hx Hxv] [Hy Hyv]. split; [constructor; assumption|].
  intros values. destruct (Hxv values) as [Hxd Hxl].
  destruct (Hyv values) as [Hyd Hyl].
  pose proof (cnf_not_null _ H1). pose proof (cnf_not_null _ H2).
  pose proof (cnf_not_null _ Hx).
  rewrite denote_and, Hxd, Hyd, !denote_or, denote_and by congruence.
  rewrite !leaves_defined_node in * by congruence.
  split; [|tauto].
  destruct (denote values a1), (denote values a2), (denote values B); reflexivity.
Qed.

Lemma distributed_from_or_right (A b1 b2 x y : Node) :
  cnf A -> cnf b1 -> cnf b2 ->
  distributed_from (mkNode "+" A b1) x ->
  distributed_from (mkNode "+" A b2) y ->
  distributed_from (mkNode "+" A (mkNode "*" b1 b2)) (mkNode "*" x y).
Proof.
  intros HA H1 H2 [Hx Hxv] [Hy Hyv]. split; [constructor; assumption|].
  intros values. destruct (Hxv values) as [Hxd Hxl].
  destruct (Hyv values) as [Hyd Hyl].
  pose proof (cnf_not_null _ HA). pose proof (cnf_not_null _ H1).
  pose proof (cnf_not_null _ Hx).
  rewrite denote_and, Hxd, Hyd, !denote_or, denote_and by congruence.
  rewrite !leaves_defined_node in * by congruence.
  split; [|tauto].
  destruct (denote values A), (denote values b1), (denote values b2); reflexivity.
Qed.

Lemma distributed_from_node (op : string) (l r A B : Node) :
  op = "*" \/ op = "+" ->
  nnf l ->
  cnf (mkNode op A B) ->
  distributed_from l A -> distributed_from r B ->
  distributed_from (mkNode op l r) (mkNode op A B).
Proof.
  intros Hop Hl Hc [HA HAv] [HB HBv]. split; [assumption|].
  intros values. destruct (HAv values) as [HAd HAl].
  destruct (HBv values) as [HBd HBl].
  pose proof (nnf_not_null _ Hl). pose proof (cnf_not_null _ HA).
  rewrite !leaves_defined_node by congruence.
  split; [|tauto].
  destruct Hop as [-> | ->].
  - rewrite !denote_and by congruence. congruence.
  - rewrite !denote_or by congruence. congruence.
Qed.

Lemma distributed_from_trans (t u c : Node) :
  (forall values, denote values u = denote values t /\
                  (leaves_defined values t -> leaves_defined values u)) ->
  distributed_from u c -> distributed_from t c.
Proof.
  intros Hu [Hc Hcv]. split; [assumption|]. intros values.
  destruct (Hu values), (Hcv values). split; [congruence | tauto].
Qed.

Lemma distribute_rec_sound (n : nat) (t c : Node) :
  nnf t -> distribute_rec n t = Ok c -> distributed_from t c.
Proof.
  revert t c. induction n as [|n IH]; intros t c Hnnf Hrun; [discriminate|].
  destruct Hnnf as [name Hname | name Hname | l r Hl Hr | l r Hl Hr].
  - inversion Hrun; subst.
    split; [repeat constructor; assumption | tauto].
  - rewrite distribute_rec_node in Hrun. cbn [no_children leaf] in Hrun.
    destruct n as [|n]; [discriminate|]. simpl in Hrun. inversion Hrun; subst.
    split; [apply cnf_clause, clause_not; assumption | tauto].
  - rewrite distribute_rec_node in Hrun.
    rewrite (no_children_left l r (nnf_not_null l Hl)) in Hrun.
    apply bind_Ok in Hrun. destruct Hrun as (A & HA & Hrun).
    apply bind_Ok in Hrun. destruct Hrun as (B & HB & Hrun).
    change ("*" =? "+") with false in Hrun. cbv iota in Hrun.
    inversion Hrun; subst.
    pose proof (IH _ _ Hl HA) as HdA. pose proof (IH _ _ Hr HB) as HdB.
    apply distributed_from_node; try assumption; [tauto|].
    destruct HdA, HdB. constructor; assumption.
  - rewrite distribute_rec_node in Hrun.
    rewrite (no_children_left l r (nnf_not_null l Hl)) in Hrun.
    apply bind_Ok in Hrun. destruct Hrun as (A & HA & Hrun).
    apply bind_Ok in Hrun. destruct Hrun as (B & HB & Hrun).
    change ("+" =? "+") with true in Hrun. cbv iota in Hrun.
    pose proof (IH _ _ Hl HA) as HdA. pose proof (IH _ _ Hr HB) as HdB.
    assert (HcA : cnf A) by apply HdA. assert (HcB : cnf B) by apply HdB.
    assert (Hstep : forall values,
      denote values (mkNode "+" A B) = denote values (mkNode "+" l r) /\
      (leaves_defined values (mkNode "+" l r) ->
       leaves_defined values (mkNode "+" A B))).
    { intros values. destruct HdA as [_ HAv], HdB as [_ HBv].
      destruct (HAv values), (HBv values).
      pose proof (nnf_not_null _ Hl). pose proof (cnf_not_null _ HcA).
      rewrite !denote_or, !leaves_defined_node by congruence.
      split; [congruence | tauto]. }
    apply (distributed_from_trans _ (mkNode "+" A B)); [exact Hstep|].
    destruct A as [|avalue aleft aright]; [discriminate|].
    destruct (cnf_cases _ _ _ HcA) as [(-> & Ha1 & Ha2) | (HnA & HclA)].
    + change ("*" =? "*") with true in Hrun. cbv iota in Hrun.
      apply bind_Ok in Hrun. destruct Hrun as (x & Hx & Hrun).
      apply bind_Ok in Hrun. destruct Hrun as (y & Hy & Hrun).
      inversion Hrun; subst.
      apply distributed_from_or_left; try assumption.
      * apply (IH _ _ (nnf_or _ _ (cnf_nnf _ Ha1) (cnf_nnf _ HcB)) Hx).
      * apply (IH _ _ (nnf_or _ _ (cnf_nnf _ Ha2) (cnf_nnf _ HcB)) Hy).
    + rewrite HnA in Hrun.
      destruct B as [|bvalue bleft bright]; [discriminate|].
      destruct (cnf_cases _ _ _ HcB) as [(-> & Hb1 & Hb2) | (HnB & HclB)].
      * change ("*" =? "*") with true in Hrun. cbv iota in Hrun.
        apply bind_Ok in Hrun. destruct Hrun as (x & Hx & Hrun).
        apply bind_Ok in Hrun. destruct Hrun as (y & Hy & Hrun).
        inversion Hrun; subst.
        apply distributed_from_or_right; try assumption.
        -- apply (IH _ _ (nnf_or _ _ (cnf_nnf _ HcA) (cnf_nnf _ Hb1)) Hx).
        -- apply (IH _ _ (nnf_or _ _ (cnf_nnf _ HcA) (cnf_nnf _ Hb2)) Hy).
      * rewrite HnB in Hrun. inversion Hrun; subst.
        split; [|tauto]. apply cnf_clause, clause_or; assumption.
Qed.

(** *** The counter is never used up *)

Lemma treeHeight_le_size (t : Node) : treeHeight t <= size t.
Proof. induction t as [|value l IHl r IHr]; simpl; lia. Qed.

(** A tree in CNF passes through unchanged: every write of the pass stores
    the pointer that was there.  This is also why the second parent that
    [distributeOrOverAnd] gives to an operand it distributes over does not
    disturb the first. *)
Lemma distribute_rec_clause (t : Node) :
  clause t -> forall n, treeHeight t < n -> distribute_rec n t = Ok t.
Proof.
  induction 1 as [name Hname | name Hname | l r Hl IHl Hr IHr];
    intros n Hn; simpl in Hn.
  - destruct n; [lia | reflexivity].
  - destruct n as [|[|[|n]]]; try lia. reflexivity.
  - destruct n as [|n]; [lia|]. rewrite distribute_rec_node.
    rewrite (no_children_left l r (nnf_not_null _ (clause_nnf _ Hl))).
    rewrite IHl, IHr by lia. rewrite !bind_Ok_eq.
    change ("+" =? "+") with true. cbv iota.
    destruct l as [|lv ll lr]; [inversion Hl|].
    destruct r as [|rv rl rr]; [inversion Hr|].
    rewrite (clause_value_not_and _ _ _ Hl), (clause_value_not_and _ _ _ Hr).
    reflexivity.
Qed.

Lemma distribute_rec_cnf (t : Node) :
  cnf t -> forall n, treeHeight t < n -> distribute_rec n t = Ok t.
Proof.
  induction 1 as [t Hc | l r Hl IHl Hr IHr]; intros n Hn.
  - apply distribute_rec_clause; assumption.
  - simpl in Hn. destruct n as [|n]; [lia|]. rewrite distribute_rec_node.
    rewrite (no_children_left l r (cnf_not_null _ Hl)).
    rewrite IHl, IHr by lia. reflexivity.
Qed.

Lemma treeHeight_pos (t : Node) : t <> nullptr -> 1 <= treeHeight t.
Proof. destruct t; [congruence | simpl; lia]. Qed.

(** Distributing the disjunction of two trees in CNF. *)
Lemma distribute_rec_or (k : nat) :
  forall a b n,
    cnf a -> cnf b ->
    treeHeight a + treeHeight b <= k -> k + 2 <= n ->
    exists c, distribute_rec n (mkNode "+" a b) = Ok c /\
              treeHeight c <= treeHeight a + treeHeight b + 1.
Proof.
  induction k as [|k IH]; intros a b n Ha Hb Hk Hn.
  { pose proof (treeHeight_pos a (cnf_not_null _ Ha)). lia. }
  destruct n as [|n]; [lia|]. rewrite distribute_rec_node.
  rewrite (no_children_left a b (cnf_not_null _ Ha)).
  rewrite (distribute_rec_cnf a Ha), (distribute_rec_cnf b Hb) by lia.
  rewrite !bind_Ok_eq. change ("+" =? "+") with true. cbv iota.
  destruct a as [|av a1 a2]; [exfalso; exact (cnf_not_null _ Ha eq_refl)|].
  destruct (cnf_cases _ _ _ Ha) as [(-> & Ha1 & Ha2) | (HnA & HclA)].
  - change ("*" =? "*") with true. cbv iota. simpl in Hk.
    destruct (IH a1 b n Ha1 Hb) as (x & Hx & Hhx); [lia | lia |].
    destruct (IH a2 b n Ha2 Hb) as (y & Hy & Hhy); [lia | lia |].
    rewrite Hx, Hy. rewrite !bind_Ok_eq. eexists; split; [reflexivity|].
    simpl. lia.
  - rewrite HnA.
    destruct b as [|bv b1 b2]; [exfalso; exact (cnf_not_null _ Hb eq_refl)|].
    destruct (cnf_cases _ _ _ Hb) as [(-> & Hb1 & Hb2) | (HnB & HclB)].
    + change ("*" =? "*") with true. cbv iota. simpl in Hk.
      destruct (IH (mkNode av a1 a2) b1 n Ha Hb1) as (x & Hx & Hhx);
        [simpl; lia | lia |].
      destruct (IH (mkNode av a1 a2) b2 n Ha Hb2) as (y & Hy & Hhy);
        [simpl; lia | lia |].
      rewrite Hx, Hy. rewrite !bind_Ok_eq. eexists; split; [reflexivity|].
      simpl in *. lia.
    + rewrite HnB. eexists; split; [reflexivity|]. simpl. lia.
Qed.

Lemma distribute_rec_total (t : Node) :
  nnf t ->
  forall n, size t + 2 <= n ->
  exists c, distribute_rec n t = Ok c /\ treeHeight c <= size t.
Proof.
  induction 1 as [name Hname | name Hname | l r Hl IHl Hr IHr | l r Hl IHl Hr IHr];
    intros n Hn; simpl in Hn.
  - destruct n; [lia|]. eexists; split; [reflexivity | simpl; lia].
  - destruct n as [|[|n]]; try lia. eexists; split; [reflexivity | simpl; lia].
  - destruct n as [|n]; [lia|]. rewrite distribute_rec_node.
    rewrite (no_children_left l r (nnf_not_null _ Hl)).
    destruct (IHl n) as (A & HA & HhA); [lia|].
    destruct (IHr n) as (B & HB & HhB); [lia|].
    rewrite HA, HB. rewrite !bind_Ok_eq.
    change ("*" =? "+") with false. cbv iota.
    eexists; split; [reflexivity | simpl; lia].
  - destruct n as [|n]; [lia|]. rewrite distribute_rec_node.
    rewrite (no_children_left l r (nnf_not_null _ Hl)).
    destruct (IHl n) as (A & HA & HhA); [lia|].
    destruct (IHr n) as (B & HB & HhB); [lia|].
    rewrite HA, HB. rewrite !bind_Ok_eq.
    assert (HcA : cnf A) by apply (distribute_rec_sound _ _ _ Hl HA).
    assert (HcB : cnf B) by apply (distribute_rec_sound _ _ _ Hr HB).
    destruct (distribute_rec_or (treeHeight A + treeHeight B) A B (S n) HcA HcB)
      as (c & Hc & Hhc); [lia | lia |].
    rewrite distribute_rec_node in Hc.
    rewrite (no_children_left A B (cnf_not_null _ HcA)) in Hc.
    rewrite (distribute_rec_cnf A HcA), (distribute_rec_cnf B HcB) in Hc by lia.
    rewrite !bind_Ok_eq in Hc.
    exists c. split; [exact Hc | simpl; lia].
Qed.

(** On a tree in negation normal form the pass returns a tree in CNF. *)
Lemma distributeOrOverAnd_nnf (t : Node) :
  nnf t -> exists c, distributeOrOverAnd t = Ok c /\ distributed_from t c.
Proof.
  intros Hnnf. unfold distributeOrOverAnd.
  destruct (distribute_rec_total t Hnnf (S (S (size t)))) as (c & Hc & _); [lia|].
  exists c. split; [exact Hc|]. exact (distribute_rec_sound _ _ _ Hnnf Hc).
Qed.

Lemma distributeOrOverAnd_fixed (t : Node) :
  cnf t -> distributeOrOverAnd t = Ok t.
Proof.
  intros Hc. apply distribute_rec_cnf; [assumption|].
  pose proof (treeHeight_le_size t). lia.
Qed.

(** ** The recursion counter on arbitrary trees

    The lemmas above bound the counter on trees in negation normal form.
    The same bound holds for every tree, null children and unknown values
    included, so that [distributeOrOverAnd] satisfies the recursion of the
    C++ function without a counter. *)

Lemma bind_mono {A B : Type} (x x' : result A) (f f' : A -> result B) :
  (x <> Fail FuelExhausted -> x' = x) ->
  (forall a, f a <> Fail FuelExhausted -> f' a = f a) ->
  bind x f <> Fail FuelExhausted -> bind x' f' = bind x f.
Proof.
  intros Hx Hf Hb. destruct x as [a|e]; simpl in *.
  - rewrite Hx by discriminate. simpl. apply Hf, Hb.
  - rewrite Hx by congruence. reflexivity.
Qed.

(** More fuel does not change a result that was reached. *)
Lemma distribute_rec_mono (n : nat) :
  forall m t, n <= m ->
    distribute_rec n t <> Fail FuelExhausted ->
    distribute_rec m t = distribute_rec n t.
Proof.
  induction n as [|n IH]; intros m t Hm Hres; [simpl in Hres; congruence|].
  destruct m as [|m]; [lia|]. assert (Hnm : n <= m) by lia.
  destruct t as [|value l r]; [reflexivity|].
  rewrite !distribute_rec_node in *.
  destruct (no_children l r); [reflexivity|].
  revert Hres. apply bind_mono; [apply IH, Hnm|]. intros A.
  apply bind_mono; [apply IH, Hnm|]. intros B.
  destruct (value =? "+"); [|reflexivity].
  destruct A as [|avalue aleft aright]; [reflexivity|].
  destruct (avalue =? "*").
  { apply bind_mono; [apply IH, Hnm|]. intros x.
    apply bind_mono; [apply IH, Hnm|]. reflexivity. }
  destruct B as [|bvalue bleft bright]; [reflexivity|].
  destruct (bvalue =? "*"); [|reflexivity].
  apply bind_mono; [apply IH, Hnm|]. intros x.
  apply bind_mono; [apply IH, Hnm|]. reflexivity.
Qed.

Lemma distribute_rec_settled (t : Node) :
  settled t -> forall n, treeHeight t < n -> distribute_rec n t = Ok t.
Proof.
  induction t as [|value l IHl r IHr]; intros Hs n Hn.
  - destruct n; [lia | reflexivity].
  - simpl in Hn. destruct n as [|n]; [lia|]. rewrite distribute_rec_node.
    destruct (no_children l r) eqn:Hc; [reflexivity|].
    simpl in Hs. rewrite Hc in Hs.
    destruct Hs as [Hs | (Hl & Hr & Hv)]; [discriminate|].
    rewrite (IHl Hl), (IHr Hr) by lia. rewrite !bind_Ok_eq.
    destruct (value =? "+"); [|reflexivity].
    destruct (Hv eq_refl) as [Hvl Hvr].
    destruct l as [|lv ll lr]; [contradiction|].
    destruct r as [|rv rl rr]; [contradiction|].
    simpl in Hvl, Hvr. rewrite Hvl, Hvr. reflexivity.
Qed.

Lemma distribute_rec_returns_settled (n : nat) :
  forall t c, distribute_rec n t = Ok c -> settled c.
Proof.
  induction n as [|n IH]; intros t c Hrun; [discriminate|].
  destruct t as [|value l r]; [inversion Hrun; exact I|].
  rewrite distribute_rec_node in Hrun.
  destruct (no_children l r) eqn:Hc.
  { inversion Hrun; subst. simpl. left. exact Hc. }
  apply bind_Ok in Hrun. destruct Hrun as (A & HA & Hrun).
  apply bind_Ok in Hrun. destruct Hrun as (B & HB & Hrun).
  pose proof (IH _ _ HA) as HsA. pose proof (IH _ _ HB) as HsB.
  destruct (value =? "+") eqn:Hv.
  2:{ inversion Hrun; subst. simpl. right. rewrite Hv.
      split; [assumption|]. split; [assumption | discriminate]. }
  destruct A as [|avalue aleft aright]; [discriminate|].
  destruct (avalue =? "*") eqn:Ha.
  { apply bind_Ok in Hrun. destruct Hrun as (x & Hx & Hrun).
    apply bind_Ok in Hrun. destruct Hrun as (y & Hy & Hrun).
    inversion Hrun; subst. simpl. right.
    split; [exact (IH _ _ Hx)|]. split; [exact (IH _ _ Hy) | discriminate]. }
  destruct B as [|bvalue bleft bright]; [discriminate|].
  destruct (bvalue =? "*") eqn:Hb.
  { apply bind_Ok in Hrun. destruct Hrun as (x & Hx & Hrun).
    apply bind_Ok in Hrun. destruct Hrun as (y & Hy & Hrun).
    inversion Hrun; subst. simpl. right.
    split; [exact (IH _ _ Hx)|]. split; [exact (IH _ _ Hy) | discriminate]. }
  inversion Hrun; subst. right.
  split; [assumption|]. split; [assumption|]. intros _. simpl. tauto.
Qed.

Lemma settled_children (value : string) (l r : Node) :
  settled (mkNode value l r) -> settled l /\ settled r.
Proof.
  simpl. intros [Hc | (Hl & Hr & _)]; [|tauto].
  destruct l; [|discriminate]. destruct r; [|discriminate]. simpl. tauto.
Qed.

Lemma within_bind (bound : nat) (x : result Node) (f : Node -> result Node) :
  x <> Fail FuelExhausted ->
  (forall a, x = Ok a -> within bound (f a)) ->
  within bound (bind x f).
Proof.
  intros Hx Hf. destruct x as [a|e]; simpl; [apply Hf; reflexivity | congruence].
Qed.

Lemma within_not_exhausted (bound : nat) (res : result Node) :
  within bound res -> res <> Fail FuelExhausted.
Proof. destruct res; simpl; congruence. Qed.

Lemma within_pair (bound bx by' : nat) (x y : result Node) :
  within bx x -> within by' y ->
  S (Nat.max bx by') <= bound ->
  within bound (do x' <- x; do y' <- y; Ok (mkNode "*" x' y')).
Proof.
  intros Hx Hy Hb. destruct x as [x'|e]; simpl in *; [|assumption].
  destruct y as [y'|e]; simpl in *; [lia | assumption].
Qed.

Lemma distribute_rec_or_within (k : nat) :
  forall a b n,
    settled a -> settled b ->
    treeHeight a + treeHeight b <= k -> k + 2 <= n ->
    within (treeHeight a + treeHeight b + 1) (distribute_rec n (mkNode "+" a b)).
Proof.
  induction k as [|k IH]; intros a b n Ha Hb Hk Hn.
  { destruct n as [|n]; [lia|].
    destruct a; [|simpl in Hk; lia]. destruct b; [|simpl in Hk; lia].
    simpl. lia. }
  destruct n as [|n]; [lia|]. rewrite distribute_rec_node.
  destruct (no_children a b) eqn:Hc; [simpl; lia|].
  rewrite (distribute_rec_settled a Ha), (distribute_rec_settled b Hb) by lia.
  rewrite !bind_Ok_eq. change ("+" =? "+") with true. cbv iota.
  destruct a as [|av a1 a2]; [simpl; congruence|].
  destruct (settled_children _ _ _ Ha) as [Ha1 Ha2].
  destruct (av =? "*").
  { simpl in Hk.
    apply (within_pair _ (treeHeight a1 + treeHeight b + 1)
                         (treeHeight a2 + treeHeight b + 1));
      [apply IH; try assumption; lia | apply IH; try assumption; lia |].
    simpl. lia. }
  destruct b as [|bv b1 b2]; [simpl; congruence|].
  destruct (settled_children _ _ _ Hb) as [Hb1 Hb2].
  destruct (bv =? "*"); [|simpl; lia].
  simpl in Hk.
  apply (within_pair _ (treeHeight (mkNode av a1 a2) + treeHeight b1 + 1)
                       (treeHeight (mkNode av a1 a2) + treeHeight b2 + 1));
    [apply IH; try assumption; simpl; lia
    | apply IH; try assumption; simpl; lia |].
  simpl. lia.
Qed.

Lemma within_weaken (bound bound' : nat) (res : result Node) :
  bound <= bound' -> within bound res -> within bound' res.
Proof. destruct res; simpl; [lia | tauto]. Qed.

Lemma distribute_rec_within (t : Node) :
  forall n, size t + 2 <= n -> within (size t) (distribute_rec n t).
Proof.
  induction t as [|value l IHl r IHr]; intros n Hn.
  - destruct n; [lia|]. simpl. lia.
  - simpl in Hn. destruct n as [|n]; [lia|]. rewrite distribute_rec_node.
    pose proof (treeHeight_le_size l). pose proof (treeHeight_le_size r).
    destruct (no_children l r) eqn:Hc; [simpl; lia|].
    pose proof (IHl n ltac:(lia)) as HwA. pose proof (IHr n ltac:(lia)) as HwB.
    apply within_bind; [eapply within_not_exhausted, HwA|]. intros A HA.
    apply within_bind; [eapply within_not_exhausted, HwB|]. intros B HB.
    rewrite HA in HwA. rewrite HB in HwB. simpl in HwA, HwB.
    destruct (value =? "+") eqn:Hv; [|simpl; lia].
    apply String.eqb_eq in Hv; subst value.
    pose proof (distribute_rec_returns_settled _ _ _ HA) as HsA.
    pose proof (distribute_rec_returns_settled _ _ _ HB) as HsB.
    destruct A as [|avalue aleft aright]; [simpl; congruence|].
    pose proof (distribute_rec_or_within
                  (treeHeight (mkNode avalue aleft aright) + treeHeight B)
                  (mkNode avalue aleft aright) B (S n)
                  HsA HsB ltac:(lia) ltac:(lia)) as Hor.
    rewrite distribute_rec_node in Hor. cbn [no_children] in Hor.
    rewrite (distribute_rec_settled _ HsA), (distribute_rec_settled _ HsB) in Hor
      by lia.
    rewrite !bind_Ok_eq in Hor. change ("+" =? "+") with true in Hor.
    cbv iota in Hor.
    eapply within_weaken; [|exact Hor]. simpl in *. lia.
Qed.

(** The counter handed to the recursion is never used up. *)
Theorem distribute_fuel_enough (t : Node) :
  distributeOrOverAnd t <> Fail FuelExhausted.
Proof.
  unfold distributeOrOverAnd.
  apply (within_not_exhausted (size t)), distribute_rec_within. lia.
Qed.

Lemma distribute_rec_enough (t : Node) (n : nat) :
  size t + 2 <= n -> distribute_rec n t = distributeOrOverAnd t.
Proof.
  intros Hn. apply distribute_rec_mono; [lia | apply distribute_fuel_enough].
Qed.

Lemma distribute_rec_or_enough (a b : Node) (n : nat) :
  settled a -> settled b ->
  treeHeight a + treeHeight b + 2 <= n ->
  distribute_rec n (mkNode "+" a b) = distributeOrOverAnd (mkNode "+" a b).
Proof.
  intros Ha Hb Hn.
  pose proof (within_not_exhausted _ _
    (distribute_rec_or_within (treeHeight a + treeHeight b) a b
       (treeHeight a + treeHeight b + 2) Ha Hb ltac:(lia) ltac:(lia))) as Hne.
  rewrite (distribute_rec_mono _ n (mkNode "+" a b) Hn Hne).
  unfold distributeOrOverAnd. symmetry.
  apply distribute_rec_mono; [|exact Hne].
  pose proof (treeHeight_le_size a). pose proof (treeHeight_le_size b).
  simpl. lia.
Qed.

Lemma distributeOrOverAnd_height (t c : Node) :
  distributeOrOverAnd t = Ok c -> settled c /\ treeHeight c <= size t.
Proof.
  intros Hc. split.
  - exact (distribute_rec_returns_settled _ _ _ Hc).
  - pose proof (distribute_rec_within t (S (S (size t))) ltac:(lia)) as Hw.
    unfold distributeOrOverAnd in Hc. rewrite Hc in Hw. exact Hw.
Qed.

(** [distributeOrOverAnd] satisfies the recursion of the C++ function, on
    every tree. *)
Theorem distributeOrOverAnd_body (value : string) (l r : Node) :
  distributeOrOverAnd (mkNode value l r) =
  if no_children l r then Ok (mkNode value l r)
  else
    do A <- distributeOrOverAnd l;
    do B <- distributeOrOverAnd r;
    if value =? "+" then
      match A with
      | nullptr => Fail NullDereference
      | mkNode avalue aleft aright =>
          if avalue =? "*" then
            do x <- distributeOrOverAnd (mkNode "+" aleft B);
            do y <- distributeOrOverAnd (mkNode "+" aright B);
            Ok (mkNode "*" x y)
          else
            match B with
            | nullptr => Fail NullDereference
            | mkNode bvalue bleft bright =>
                if bvalue =? "*" then
                  do x <- distributeOrOverAnd (mkNode "+" A bleft);
                  do y <- distributeOrOverAnd (mkNode "+" A bright);
                  Ok (mkNode "*" x y)
                else Ok (mkNode value A B)
            end
      end
    else Ok (mkNode value A B).
Proof.
  unfold distributeOrOverAnd at 1. rewrite distribute_rec_node.
  destruct (no_children l r); [reflexivity|].
  rewrite (distribute_rec_enough l), (distribute_rec_enough r) by (simpl; lia).
  destruct (distributeOrOverAnd l) as [A|e] eqn:HA; [|reflexivity].
  destruct (distributeOrOverAnd r) as [B|e] eqn:HB; [|reflexivity].
  rewrite !bind_Ok_eq.
  destruct (value =? "+"); [|reflexivity].
  destruct (distributeOrOverAnd_height _ _ HA) as [HsA HhA].
  destruct (distributeOrOverAnd_height _ _ HB) as [HsB HhB].
  destruct A as [|avalue aleft aright]; [reflexivity|].
  destruct (settled_children _ _ _ HsA) as [Hs1 Hs2].
  simpl in HhA.
  destruct (avalue =? "*").
  { rewrite !(distribute_rec_or_enough _ B) by (simpl; assumption || lia).
    reflexivity. }
  destruct B as [|bvalue bleft bright]; [reflexivity|].
  destruct (settled_children _ _ _ HsB) as [Hs3 Hs4].
  simpl in HhB.
  destruct (bvalue =? "*"); [|reflexivity].
  rewrite !(distribute_rec_or_enough (mkNode avalue aleft aright))
    by (simpl; assumption || lia).
  reflexivity.
Qed.

(** ** convertToCNF *)

Lemma convertToCNF_cnf (t : Node) :
  well_formed t ->
  exists c, convertToCNF t = Ok c /\ cnf c /\
    nnf (moveNegations (eliminateImplications t)) /\
    forall values,
      denote values c = denote values t /\
      (leaves_defined values t -> leaves_defined values c).
Proof.
  intros Hwf. unfold convertToCNF.
  pose proof (eliminateImplications_implication_free t Hwf) as Hif.
  pose proof (moveNegations_nnf _ Hif) as Hnnf.
  destruct (distributeOrOverAnd_nnf _ Hnnf) as (c & Hc & Hcnf & Hsem).
  exists c. split; [exact Hc|]. split; [exact Hcnf|]. split; [exact Hnnf|].
  intros values.
  destruct (Hsem values) as [Hd Hl].
  destruct (eliminateImplications_denote values t Hwf) as [Hed Hel].
  destruct (moveNegations_denote values _ Hif) as [[Hmd _] Hml].
  split; [congruence|]. intros H. apply Hl, Hml, Hel, H.
Qed.

Lemma cnf_well_formed (t : Node) : cnf t -> well_formed t.
Proof.
  intros H. apply implication_free_well_formed, nnf_implication_free, cnf_nnf, H.
Qed.

(** C1: for a well-formed tree and an assignment that has a value for each
    of its atoms, [convertToCNF] returns a tree, and evaluating that tree
    gives the boolean that evaluating the original tree gives. *)
Theorem convertToCNF_preserves_evaluation (t : Node) (values : gmap string bool) :
  well_formed t ->
  complete values t ->
  exists c b,
    convertToCNF t = Ok c /\
    evaluate c values = Ok b /\
    evaluate t values = Ok b.
Proof.
  intros Hwf Hcomplete.
  destruct (convertToCNF_cnf t Hwf) as (c & Hc & Hcnf & _ & Hsem).
  destruct (Hsem values) as [Hd Hl].
  pose proof (complete_leaves_defined values t Hwf Hcomplete) as Hdef.
  exists c, (denote values t). split; [exact Hc|]. split.
  - rewrite <- Hd. apply evaluate_denote; [apply cnf_well_formed, Hcnf | auto].
  - apply evaluate_denote; assumption.
Qed.

(** C3: for a well-formed tree, after the [moveNegations] pass of
    [convertToCNF], and still in the tree that [convertToCNF] returns, every
    [~] node has a single child and that child is an atom leaf. *)
Theorem negations_on_atoms_after_moveNegations (t : Node) :
  well_formed t ->
  negations_on_atoms (moveNegations (eliminateImplications t)) /\
  exists c, convertToCNF t = Ok c /\ negations_on_atoms c.
Proof.
  intros Hwf.
  destruct (convertToCNF_cnf t Hwf) as (c & Hc & Hcnf & Hnnf & _).
  split; [apply nnf_negations_on_atoms, Hnnf|].
  exists c. split; [exact Hc|]. apply nnf_negations_on_atoms, cnf_nnf, Hcnf.
Qed.

Lemma convertToCNF_preserves_evaluation_witness :
  exists c b,
    convertToCNF (parse "(a > b) * ~(c + ~d)") = Ok c /\
    evaluate c (<["a" := true]> (<["b" := false]> (<["c" := false]> (<["d" := true]> ∅)))) = Ok b /\
    evaluate (parse "(a > b) * ~(c + ~d)")
      (<["a" := true]> (<["b" := false]> (<["c" := false]> (<["d" := true]> ∅)))) = Ok b.
Proof.
  apply (convertToCNF_preserves_evaluation
           (parse "(a > b) * ~(c + ~d)")
           (<["a" := true]> (<["b" := false]> (<["c" := false]> (<["d" := true]> ∅))))).
  - apply buildParseTree_well_formed. vm_compute. discriminate.
  - intros x Hx. vm_compute in Hx.
    destruct Hx as [<- | [<- | [<- | [<- | []]]]]; eexists; vm_compute; reflexivity.
Defined.

Lemma negations_on_atoms_after_moveNegations_witness :
  negations_on_atoms
    (moveNegations (eliminateImplications (parse "~(p > ~(q * ~r))"))) /\
  exists c, convertToCNF (parse "~(p > ~(q * ~r))") = Ok c /\ negations_on_atoms c.
Proof.
  apply (negations_on_atoms_after_moveNegations (parse "~(p > ~(q * ~r))")).
  apply buildParseTree_well_formed. vm_compute. discriminate.
Defined.

(** The invariant is one of the pipeline: [moveNegations] on its own stops
    at a negated implication, which [eliminateImplications] removes first. *)
Lemma moveNegations_negated_implication :
  moveNegations (parse "~(p > q)") = parse "~(p > q)" /\
  convertToCNF (parse "~(p > q)") = Ok (parse "p * ~q").
Proof. split; vm_compute; reflexivity. Qed.

(** ** Idempotence on trees in CNF *)

Lemma same_clause_set_refl (cs : list (list string)) : same_clause_set cs cs.
Proof.
  exists cs. split; [reflexivity|].
  induction cs; constructor; [reflexivity | assumption].
Qed.

Lemma getLiterals_clause (t : Node) :
  clause t -> forall literals, exists literals', getLiterals t literals = Ok literals'.
Proof.
  induction 1 as [name Hname | name Hname | l r Hl IHl Hr IHr]; intros literals.
  - apply isOperator_false in Hname. destruct Hname as (_ & Hor & _ & Hnot).
    cbn [getLiterals leaf]. rewrite Hor, Hnot. eauto.
  - simpl. eauto.
  - cbn [getLiterals]. change ("+" =? "+") with true. cbv iota.
    destruct (IHl literals) as (lits & ->). rewrite bind_Ok_eq. apply IHr.
Qed.

Lemma collectClauses_cnf (t : Node) :
  cnf t -> forall clauses, exists clauses', collectClauses t clauses = Ok clauses'.
Proof.
  induction 1 as [t Hc | l r Hl IHl Hr IHr]; intros clauses.
  - destruct t as [|value l r]; [inversion Hc|].
    cbn [collectClauses]. rewrite (clause_value_not_and _ _ _ Hc).
    destruct (getLiterals_clause _ Hc []) as (lits & ->). rewrite bind_Ok_eq. eauto.
  - cbn [collectClauses]. change ("*" =? "*") with true. cbv iota.
    destruct (IHl clauses) as (cs & ->). rewrite bind_Ok_eq. apply IHr.
Qed.

Lemma convertToCNF_fixed (t : Node) : cnf t -> convertToCNF t = Ok t.
Proof.
  intros Hc. unfold convertToCNF.
  rewrite (eliminateImplications_fixed t (nnf_implication_free _ (cnf_nnf _ Hc))).
  rewrite (moveNegations_fixed t (cnf_nnf _ Hc)).
  apply distributeOrOverAnd_fixed, Hc.
Qed.

(** C9: on a tree that is already in CNF - as every tree returned by
    [convertToCNF] is, see [convertToCNF_cnf] - [convertToCNF] returns a
    tree with the same clauses: [collectClauses] succeeds on both and the two
    clause lists are the same multiset of literal multisets.  The returned
    tree is in fact the given one. *)
Theorem convertToCNF_idempotent (t : Node) :
  cnf t ->
  exists t' cs cs',
    convertToCNF t = Ok t' /\
    collectClauses t [] = Ok cs /\
    collectClauses t' [] = Ok cs' /\
    same_clause_set cs cs' /\
    t' = t.
Proof.
  intros Hc. destruct (collectClauses_cnf t Hc []) as (cs & Hcs).
  exists t, cs, cs. split; [apply convertToCNF_fixed, Hc|].
  split; [exact Hcs|]. split; [exact Hcs|].
  split; [apply same_clause_set_refl | reflexivity].
Qed.

Lemma convertToCNF_idempotent_witness :
  exists t' cs cs',
    convertToCNF (parse "(a + ~c) * (b + ~c + d)") = Ok t' /\
    collectClauses (parse "(a + ~c) * (b + ~c + d)") [] = Ok cs /\
    collectClauses t' [] = Ok cs' /\
    same_clause_set cs cs' /\
    t' = parse "(a + ~c) * (b + ~c + d)".
Proof.
  apply (convertToCNF_idempotent (parse "(a + ~c) * (b + ~c + d)")).
  vm_compute. apply cnf_and.
  - apply cnf_clause, clause_or; [apply clause_atom | apply clause_not]; reflexivity.
  - apply cnf_clause, clause_or;
      [apply clause_or; [apply clause_atom | apply clause_not] | apply clause_atom];
      reflexivity.
Defined.

(** ** The clause-level tautology law *)

(** The scan reports a tautology exactly when some literal finds its
    negation among the literals seen before it. *)
Lemma clauseIsTautology_spec (clause seen : list string) :
  clauseIsTautology clause seen = true <->
  exists pre l post,
    clause = pre ++ l :: post /\
    (In (negation_of l) seen \/ In (negation_of l) pre).
Proof.
  revert seen. induction clause as [|x clause IH]; intros seen; simpl.
  - split; [discriminate|]. intros (pre & l & post & H & _).
    destruct pre; discriminate.
  - destruct (set_count (negation_of x) seen) eqn:Hcount.
    + apply set_count_In in Hcount. split; [|reflexivity].
      intros _. exists [], x, clause. simpl. auto.
    + assert (Hnot : ~ In (negation_of x) seen).
      { rewrite <- set_count_In. congruence. }
      rewrite IH. split.
      * intros (pre & l & post & Hc & Hin). exists (x :: pre), l, post.
        simpl. split; [congruence|].
        rewrite set_insert_In in Hin. intuition (subst; auto).
      * intros (pre & l & post & Hc & Hin).
        destruct pre as [|x' pre]; simpl in Hc; inversion Hc; subst.
        -- simpl in Hin. intuition (subst; auto).
        -- exists pre, l, post. split; [reflexivity|].
           rewrite set_insert_In. simpl in Hin. intuition (subst; auto).
Qed.

Lemma negation_of_atom (p : string) :
  is_atom_name p -> negation_of p = String.append "~" p.
Proof.
  intros Hp. unfold negation_of.
  destruct (Ascii.eqb_spec (first_char p) "~"%char); [contradiction | reflexivity].
Qed.

Lemma negation_of_negated (a : string) :
  negation_of (String.append "~" a) = a.
Proof. reflexivity. Qed.

Lemma complementary_iff_earlier (clause : list string) :
  Forall is_literal clause ->
  (exists pre l post, clause = pre ++ l :: post /\ In (negation_of l) pre) <->
  complementary clause.
Proof.
  intros Hlit. split.
  - intros (pre & l & post & Hc & Hin).
    assert (Hl : is_literal l).
    { rewrite Forall_forall in Hlit. apply Hlit. rewrite Hc.
      apply list_elem_of_In, in_elt. }
    assert (Hpre : forall x, In x pre -> In x clause).
    { intros x Hx. rewrite Hc. apply in_or_app. tauto. }
    destruct Hl as [Hatom | (a & Ha & ->)].
    + exists l. rewrite negation_of_atom in Hin by assumption.
      split; [assumption|]. split; [rewrite Hc; apply in_elt | auto].
    + exists a. rewrite negation_of_negated in Hin.
      split; [assumption|]. split; [auto | rewrite Hc; apply in_elt].
  - intros (p & Hp & Hin & Hneg).
    destruct (in_split _ _ Hin) as (l1 & l2 & Hc).
    assert (Hne : String.append "~" p <> p).
    { intros H. apply (f_equal String.length) in H.
      change (S (String.length p) = String.length p) in H. lia. }
    rewrite Hc in Hneg. apply in_app_or in Hneg.
    destruct Hneg as [Hneg | [Hneg | Hneg]]; [| congruence |].
    + exists l1, p, l2. rewrite negation_of_atom by assumption. auto.
    + destruct (in_split _ _ Hneg) as (m1 & m2 & Hm).
      exists (l1 ++ p :: m1), (String.append "~" p), m2.
      rewrite negation_of_negated. split.
      * rewrite Hc, Hm, <- app_assoc. reflexivity.
      * apply in_elt.
Qed.

Lemma negation_of_neq (l : string) : negation_of l <> l.
Proof.
  unfold negation_of. intros H. apply (f_equal String.length) in H.
  destruct l as [|c l]; [discriminate|]. cbn [first_char] in H.
  destruct (Ascii.eqb c "~"%char).
  - simpl in H. lia.
  - change (S (String.length (String c l)) = String.length (String c l)) in H.
    lia.
Qed.

Lemma analyzeCNFValidity_single (clause : list string) :
  analyzeCNFValidity [clause] =
  if clauseIsTautology clause [] then (true, 1%Z, 0%Z) else (false, 0%Z, 1%Z).
Proof.
  unfold analyzeCNFValidity. simpl.
  destruct (clauseIsTautology clause []); reflexivity.
Qed.

Lemma clauseIsTautology_repeat (l : string) (n : nat) (seen : list string) :
  (forall x, In x seen -> x = l) ->
  clauseIsTautology (repeat l n) seen = false.
Proof.
  revert seen. induction n as [|n IH]; intros seen Hseen; simpl; [reflexivity|].
  destruct (set_count (negation_of l) seen) eqn:Hcount.
  - apply set_count_In, Hseen in Hcount.
    exfalso. exact (negation_of_neq l Hcount).
  - apply IH. intros x Hx. apply set_insert_In in Hx. destruct Hx; auto.
Qed.

(** The counters and the verdict over a list of clauses. *)
Lemma count_clauses_spec (clauses : list (list string)) :
  forall valid_count invalid_count : Z,
    count_clauses clauses valid_count invalid_count =
    ((valid_count + Z.of_nat (tautological_count clauses))%Z,
     (invalid_count + Z.of_nat (non_tautological_count clauses))%Z).
Proof.
  unfold tautological_count, non_tautological_count.
  induction clauses as [|c clauses IH]; intros v i.
  - simpl. rewrite !Z.add_0_r. reflexivity.
  - cbn [count_clauses List.filter].
    destruct (clauseIsTautology c []); cbn [negb length]; rewrite IH;
      f_equal; lia.
Qed.

Lemma counts_partition (clauses : list (list string)) :
  (tautological_count clauses + non_tautological_count clauses)%nat =
  length clauses.
Proof.
  unfold tautological_count, non_tautological_count.
  induction clauses as [|c clauses IH]; [reflexivity|].
  cbn [List.filter]. destruct (clauseIsTautology c []); cbn [negb length]; lia.
Qed.

Lemma non_tautological_count_zero (clauses : list (list string)) :
  non_tautological_count clauses = 0%nat <->
  forall c, In c clauses -> clauseIsTautology c [] = true.
Proof.
  unfold non_tautological_count.
  induction clauses as [|c clauses IH]; [simpl; tauto|].
  cbn [List.filter]. destruct (clauseIsTautology c []) eqn:Hc; cbn [negb length].
  - rewrite IH. split; [intros H x [<- | Hx]; auto | intros H x Hx; apply H; right; exact Hx].
  - split; [discriminate|]. intros H. specialize (H c (or_introl eq_refl)).
    congruence.
Qed.

Lemma analyzeCNFValidity_spec (clauses : list (list string)) :
  analyzeCNFValidity clauses =
  (Nat.eqb (non_tautological_count clauses) 0,
   Z.of_nat (tautological_count clauses),
   Z.of_nat (non_tautological_count clauses)).
Proof.
  unfold analyzeCNFValidity. destruct clauses as [|c clauses]; [reflexivity|].
  rewrite count_clauses_spec, !Z.add_0_l. f_equal. f_equal.
  destruct (non_tautological_count (c :: clauses)); reflexivity.
Qed.

Lemma clauseIsTautology_complementary (clause : list string) :
  Forall is_literal clause ->
  clauseIsTautology clause [] = true <-> complementary clause.
Proof.
  intros Hlit.
  rewrite clauseIsTautology_spec, <- (complementary_iff_earlier clause Hlit).
  split; intros (pre & l & post & Hc & Hin); exists pre, l, post;
    simpl in *; tauto.
Qed.

Lemma complementary_counts_functional (clauses : list (list string)) :
  forall n m n' m' : nat,
    complementary_counts clauses n m ->
    complementary_counts clauses n' m' ->
    n = n' /\ m = m'.
Proof.
  induction clauses as [|c clauses IH]; intros n m n' m' H H'.
  - inversion H; inversion H'; subst. split; reflexivity.
  - inversion H; subst; inversion H'; subst; try contradiction;
      match goal with
      | H1 : complementary_counts clauses _ _,
        H2 : complementary_counts clauses _ _ |- _ =>
          destruct (IH _ _ _ _ H1 H2); subst; split; reflexivity
      end.
Qed.

Lemma complementary_counts_scan (clauses : list (list string)) :
  Forall (Forall is_literal) clauses ->
  complementary_counts clauses
    (tautological_count clauses) (non_tautological_count clauses).
Proof.
  unfold tautological_count, non_tautological_count.
  induction clauses as [|c clauses IH]; intros Hlit; [constructor|].
  inversion Hlit as [|? ? Hc Hrest]; subst.
  pose proof (clauseIsTautology_complementary c Hc) as Hscan.
  cbn [List.filter].
  destruct (clauseIsTautology c []); cbn [negb length].
  - apply counts_with; [apply Hscan; reflexivity | apply IH, Hrest].
  - apply counts_without; [|apply IH, Hrest].
    intros H. apply Hscan in H. discriminate.
Qed.

Lemma counts_insert (before after : list (list string)) (clause : list string) :
  tautological_count (before ++ clause :: after) =
    ((if clauseIsTautology clause [] then 1 else 0) +
     tautological_count (before ++ after))%nat /\
  non_tautological_count (before ++ clause :: after) =
    ((if clauseIsTautology clause [] then 0 else 1) +
     non_tautological_count (before ++ after))%nat.
Proof.
  unfold tautological_count, non_tautological_count.
  rewrite !List.filter_app, !List.length_app. cbn [List.filter].
  destruct (clauseIsTautology clause []); cbn [negb length]; lia.
Qed.

(** C4: in every list of clauses of literals, the clauses that
    [analyzeCNFValidity] counts as tautological are exactly those that hold,
    for some atom [p], both [p] and [~p], and those it counts as
    non-tautological are exactly the others; the flag is true when no clause
    is of the second kind.  So each clause of the list, taken alone, is
    classified tautological exactly when it holds such a pair; and a clause
    that only repeats one literal is counted non-tautological wherever it
    stands in a list. *)
Theorem clause_tautology_law (clauses : list (list string)) :
  Forall (Forall is_literal) clauses ->
  (exists with_pair without_pair : nat,
     complementary_counts clauses with_pair without_pair /\
     analyzeCNFValidity clauses =
       (Nat.eqb without_pair 0, Z.of_nat with_pair, Z.of_nat without_pair)) /\
  (forall clause : list string, In clause clauses ->
     (classified_tautological clause <-> complementary clause) /\
     (classified_non_tautological clause <-> ~ complementary clause)) /\
  (forall (l : string) (n : nat) (before after : list (list string)),
     exists (verdict : bool) (valid_count invalid_count : Z),
       analyzeCNFValidity (before ++ after) =
         (verdict, valid_count, invalid_count) /\
       analyzeCNFValidity (before ++ repeat l n :: after) =
         (false, valid_count, (invalid_count + 1)%Z)).
Proof.
  intros Hlit. split; [|split].
  - exists (tautological_count clauses), (non_tautological_count clauses).
    split; [apply complementary_counts_scan, Hlit | apply analyzeCNFValidity_spec].
  - intros clause Hin.
    assert (Hc : Forall is_literal clause).
    { rewrite Forall_forall in Hlit. apply Hlit, list_elem_of_In, Hin. }
    pose proof (clauseIsTautology_complementary clause Hc) as Hscan.
    unfold classified_tautological, classified_non_tautological.
    rewrite analyzeCNFValidity_single, <- Hscan.
    destruct (clauseIsTautology clause []); split; split; congruence.
  - intros l n before after.
    destruct (counts_insert before after (repeat l n)) as [Hv Hi].
    rewrite clauseIsTautology_repeat in Hv, Hi by (intros x []).
    rewrite !analyzeCNFValidity_spec, Hv, Hi.
    eexists _, _, _. split; [reflexivity|].
    cbn [Nat.add Nat.eqb]. rewrite Nat2Z.inj_succ, Z.add_1_r. reflexivity.
Qed.

Lemma clause_tautology_law_witness :
  analyzeCNFValidity [["q"; "~p"; "q"; "p"]; ["p"; "p"; "~q"]; ["p"]; ["~p"]] =
    (false, 1%Z, 3%Z) /\
  classified_tautological ["q"; "~p"; "q"; "p"] /\
  classified_non_tautological ["p"; "p"; "~q"] /\
  analyzeCNFValidity [["p"; "~p"]; ["q"; "q"; "q"]] = (false, 1%Z, 1%Z).
Proof.
  assert (Hp : is_literal "p") by (left; discriminate).
  assert (Hq : is_literal "q") by (left; discriminate).
  assert (Hnp : is_literal "~p") by (right; exists "p"; split; [discriminate | reflexivity]).
  assert (Hnq : is_literal "~q") by (right; exists "q"; split; [discriminate | reflexivity]).
  assert (Hyes : complementary ["q"; "~p"; "q"; "p"]).
  { exists "p". split; [discriminate|]. simpl. tauto. }
  assert (Hno1 : ~ complementary ["p"; "p"; "~q"]).
  { intros (p & Hatom & Hin & Hneg). simpl in Hin, Hneg.
    destruct Hin as [<- | [<- | [<- | []]]];
      destruct Hneg as [H | [H | [H | []]]]; discriminate. }
  assert (Hno2 : ~ complementary ["p"]).
  { intros (p & Hatom & Hin & Hneg). simpl in Hin, Hneg.
    destruct Hin as [<- | []]; destruct Hneg as [H | []]; discriminate. }
  assert (Hno3 : ~ complementary ["~p"]).
  { intros (p & Hatom & Hin & Hneg). simpl in Hin, Hneg.
    destruct Hin as [<- | []]; destruct Hneg as [H | []]; discriminate. }
  destruct (clause_tautology_law
              [["q"; "~p"; "q"; "p"]; ["p"; "p"; "~q"]; ["p"]; ["~p"]]
              ltac:(repeat (constructor;
                            [repeat (constructor; [assumption|]); constructor|]);
                    constructor))
    as ((with_pair & without_pair & Hcounts & Hresult) & Hsingle & Hrepeat).
  assert (Hexpected : complementary_counts
                        [["q"; "~p"; "q"; "p"]; ["p"; "p"; "~q"]; ["p"]; ["~p"]] 1 3).
  { apply counts_with; [exact Hyes|].
    apply counts_without; [exact Hno1|].
    apply counts_without; [exact Hno2|].
    apply counts_without; [exact Hno3|]. constructor. }
  destruct (complementary_counts_functional _ _ _ _ _ Hcounts Hexpected) as [-> ->].
  split; [exact Hresult|].
  split; [apply (proj1 (Hsingle _ (or_introl eq_refl))); exact Hyes|].
  split; [apply (proj2 (Hsingle _ (or_intror (or_introl eq_refl)))); exact Hno1|].
  destruct (Hrepeat "q" 3%nat [["p"; "~p"]] []) as (verdict & v & i & Hbase & Hins).
  vm_compute in Hbase. inversion Hbase; subst. exact Hins.
Defined.

(* ===================================================================== *)
(** * Part IV: further properties of the code *)
(* ===================================================================== *)

(** ** Building a tree and serialising it *)

Lemma buildParseTree_loop_prefix (t : Node) :
  well_formed t ->
  forall (tokens : list string) (st : list Node),
    buildParseTree_loop (rev (prefix_tokens t) ++ tokens) st =
    buildParseTree_loop tokens (t :: st).
Proof.
  induction 1 as [name Hname | l Hl IHl | op l r Hop Hl IHl Hr IHr];
    intros tokens st.
  - simpl. rewrite Hname. reflexivity.
  - cbn [prefix_tokens]. rewrite app_nil_r.
    change ("~" :: prefix_tokens l) with (["~"] ++ prefix_tokens l).
    rewrite rev_app_distr, <- app_assoc, IHl. reflexivity.
  - cbn [prefix_tokens].
    change (op :: prefix_tokens l ++ prefix_tokens r)
      with ([op] ++ prefix_tokens l ++ prefix_tokens r).
    rewrite !rev_app_distr, <- !app_assoc, IHr, IHl. simpl.
    destruct Hop as [-> | [-> | ->]]; reflexivity.
Qed.

Lemma buildParseTree_loop_tokens (tokens : list string) :
  forall (st : list Node),
    buildParseTree_loop tokens st <> nullptr ->
    prefix_tokens (buildParseTree_loop tokens st) =
    rev tokens ++ flat_map prefix_tokens st.
Proof.
  induction tokens as [|token tokens IH]; intros st Hres; simpl in *.
  - destruct st as [|root [|second st]]; try congruence.
    simpl. rewrite app_nil_r. reflexivity.
  - destruct (isOperator token).
    + destruct (token =? "~") eqn:Hnot.
      * destruct st as [|l st]; [congruence|].
        rewrite (IH _ Hres). simpl. rewrite <- !app_assoc. reflexivity.
      * destruct st as [|l [|r st]]; try congruence.
        rewrite (IH _ Hres). simpl. rewrite <- !app_assoc. reflexivity.
    + rewrite (IH _ Hres). simpl. rewrite <- !app_assoc. reflexivity.
Qed.

(** X1: a tree that [buildParseTree] returns is well formed, and its prefix
    token sequence is the sequence it was built from. *)
Theorem buildParseTree_decodes (prefix : list string) :
  buildParseTree prefix <> nullptr ->
  well_formed (buildParseTree prefix) /\
  prefix_tokens (buildParseTree prefix) = prefix.
Proof.
  intros Hres. split; [apply buildParseTree_well_formed, Hres|].
  unfold buildParseTree in *.
  rewrite (buildParseTree_loop_tokens _ _ Hres), rev_involutive.
  apply app_nil_r.
Qed.

Lemma buildParseTree_decodes_witness :
  well_formed (buildParseTree ["+"; "~"; "p"; "q"]) /\
  prefix_tokens (buildParseTree ["+"; "~"; "p"; "q"]) = ["+"; "~"; "p"; "q"].
Proof.
  apply (buildParseTree_decodes ["+"; "~"; "p"; "q"]).
  vm_compute. discriminate.
Defined.

(** X2: every well-formed tree is built back from its prefix token
    sequence. *)
Theorem buildParseTree_prefix_tokens (t : Node) :
  well_formed t -> buildParseTree (prefix_tokens t) = t.
Proof.
  intros Hwf. unfold buildParseTree.
  rewrite <- (app_nil_r (rev (prefix_tokens t))).
  rewrite (buildParseTree_loop_prefix t Hwf). reflexivity.
Qed.

Lemma buildParseTree_prefix_tokens_witness :
  buildParseTree
    (prefix_tokens (mkNode ">" (mkNode "~" (leaf "p") nullptr) (leaf "q"))) =
  mkNode ">" (mkNode "~" (leaf "p") nullptr) (leaf "q").
Proof.
  apply (buildParseTree_prefix_tokens
           (mkNode ">" (mkNode "~" (leaf "p") nullptr) (leaf "q"))).
  apply wf_binary; [tauto | apply wf_not, wf_atom; reflexivity
                   | apply wf_atom; reflexivity].
Defined.

(** ** Rendering a tree and parsing the text *)

Lemma string_append_assoc (s t u : string) :
  String.append (String.append s t) u = String.append s (String.append t u).
Proof.
  induction s as [|c s IH]; [reflexivity|].
  rewrite !append_String, IH. reflexivity.
Qed.

Lemma tokenize_identifier (a rest : string) :
  is_identifier a = true ->
  is_ident (first_char rest) = false ->
  tokenize (String.append a rest) = a :: tokenize rest.
Proof.
  intros Ha Hrest. destruct a as [|c run]; [discriminate|].
  simpl in Ha. apply andb_true_iff in Ha. destruct Ha as [Hc Hrun].
  rewrite append_String. simp tokenize.
  rewrite (isalnum_not_isspace c Hc). simp tokenize.
  rewrite Hc. simp tokenize.
  rewrite (scan_atom_run run rest Hrun Hrest). reflexivity.
Qed.

Lemma tokenize_symbol (c : ascii) (rest : string) :
  isspace c = false -> isalnum c = false ->
  tokenize (String c rest) = String c EmptyString :: tokenize rest.
Proof.
  intros Hs Ha. simp tokenize. rewrite Hs. simp tokenize.
  rewrite Ha. simp tokenize.
  destruct (String c EmptyString =? ">") eqn:Hgt; simp tokenize; [|reflexivity].
  apply String.eqb_eq in Hgt. rewrite Hgt. reflexivity.
Qed.

Lemma tokenize_blank (rest : string) :
  tokenize (String " " rest) = tokenize rest.
Proof. simp tokenize. reflexivity. Qed.

Lemma identifier_atom_token (a : string) :
  is_identifier a = true -> is_atom_token a.
Proof.
  destruct a as [|c run]; [discriminate|]. simpl.
  intros H. apply andb_true_iff in H. apply H.
Qed.

Lemma renderable_well_formed (t : Node) : renderable t -> well_formed t.
Proof.
  induction 1 as [name Hname | l Hl IHl | op l r Hop Hl IHl Hr IHr].
  - apply wf_atom, atom_token_not_operator, identifier_atom_token, Hname.
  - apply wf_not, IHl.
  - apply wf_binary; assumption.
Qed.

Lemma tokenize_toInfix (t : Node) :
  renderable t ->
  forall rest : string,
    is_ident (first_char rest) = false ->
    tokenize (String.append (toInfix t) rest) = infix_tokens t ++ tokenize rest.
Proof.
  induction 1 as [name Hname | l Hl IHl | op l r Hop Hl IHl Hr IHr];
    intros rest Hrest.
  - simpl. apply tokenize_identifier; assumption.
  - pose proof (well_formed_not_null _ (renderable_well_formed _ Hl)) as Hnn.
    cbn [toInfix infix_tokens]. rewrite (no_children_left l nullptr Hnn).
    change ("~" =? "~") with true. cbv iota.
    rewrite !string_append_assoc, !append_String, !append_empty.
    rewrite tokenize_symbol by reflexivity.
    rewrite tokenize_symbol by reflexivity.
    rewrite IHl by reflexivity.
    rewrite tokenize_symbol by reflexivity.
    simpl. rewrite <- app_assoc. reflexivity.
  - pose proof (well_formed_not_null _ (renderable_well_formed _ Hl)) as Hnn.
    cbn [toInfix infix_tokens]. rewrite (no_children_left l r Hnn).
    assert (Hnot : (op =? "~") = false)
      by (destruct Hop as [-> | [-> | ->]]; reflexivity).
    rewrite Hnot.
    rewrite !string_append_assoc, !append_String, !append_empty.
    rewrite tokenize_symbol by reflexivity.
    rewrite IHl by reflexivity.
    rewrite tokenize_blank.
    assert (Hop_tok : forall s, tokenize (String.append op (String " " s)) =
                                op :: tokenize s).
    { intros s. destruct Hop as [-> | [-> | ->]];
        rewrite append_String, append_empty, tokenize_symbol by reflexivity;
        rewrite tokenize_blank; reflexivity. }
    rewrite Hop_tok, IHr by reflexivity.
    rewrite tokenize_symbol by reflexivity.
    simpl. rewrite <- !app_assoc. simpl. rewrite <- !app_assoc. reflexivity.
Qed.

Lemma fold_shunt_infix_tokens (t : Node) :
  renderable t ->
  forall (st out : list string),
    fold_left shunt_step (map swap_paren (rev (infix_tokens t))) (mkShunt st out) =
    mkShunt st (out ++ rev (prefix_tokens t)).
Proof.
  induction 1 as [name Hname | l Hl IHl | op l r Hop Hl IHl Hr IHr];
    intros st out.
  - pose proof (identifier_atom_token name Hname) as Htok.
    simpl. rewrite (atom_token_swap name Htok), (shunt_step_atom _ name Htok).
    reflexivity.
  - pose proof (well_formed_not_null _ (renderable_well_formed _ Hl)) as Hnn.
    cbn [infix_tokens prefix_tokens]. rewrite (no_children_left l nullptr Hnn).
    change ("~" =? "~") with true. cbv iota.
    change ("(" :: "~" :: infix_tokens l ++ [")"])
      with (["("; "~"] ++ infix_tokens l ++ [")"]).
    rewrite !rev_app_distr, !map_app, !fold_left_app.
    cbn [rev app map fold_left].
    change (shunt_step (mkShunt st out) (swap_paren ")"))
      with (mkShunt ("(" :: st) out).
    rewrite IHl, app_nil_r, app_assoc. reflexivity.
  - pose proof (well_formed_not_null _ (renderable_well_formed _ Hl)) as Hnn.
    cbn [infix_tokens prefix_tokens]. rewrite (no_children_left l r Hnn).
    assert (Hnot : (op =? "~") = false)
      by (destruct Hop as [-> | [-> | ->]]; reflexivity).
    rewrite Hnot.
    change ("(" :: infix_tokens l ++ op :: infix_tokens r ++ [")"])
      with (["("] ++ infix_tokens l ++ [op] ++ infix_tokens r ++ [")"]).
    rewrite !rev_app_distr, !map_app, !fold_left_app.
    cbn [rev app map fold_left].
    change (shunt_step (mkShunt st out) (swap_paren ")"))
      with (mkShunt ("(" :: st) out).
    rewrite IHr.
    assert (Hstep : shunt_step (mkShunt ("(" :: st) (out ++ rev (prefix_tokens r)))
                      (swap_paren op) =
                    mkShunt (op :: "(" :: st) (out ++ rev (prefix_tokens r)))
      by (destruct Hop as [-> | [-> | ->]]; reflexivity).
    rewrite Hstep, IHl, rev_app_distr, !app_assoc.
    destruct Hop as [-> | [-> | ->]]; reflexivity.
Qed.

Lemma infixToPrefix_toInfix (t : Node) :
  renderable t -> infixToPrefix (toInfix t) = prefix_tokens t.
Proof.
  intros Hr. unfold infixToPrefix, infixToPrefix_tokens.
  pose proof (tokenize_toInfix t Hr EmptyString eq_refl) as Htok.
  assert (Hnil : forall s, String.append s EmptyString = s).
  { induction s as [|c s IH]; [reflexivity|]. rewrite append_String, IH. reflexivity. }
  rewrite Hnil in Htok. simp tokenize in Htok. rewrite app_nil_r in Htok.
  rewrite Htok, (fold_shunt_infix_tokens t Hr [] []). simpl.
  apply rev_involutive.
Qed.

(** X3: the text that [toInfix] renders for a well-formed tree whose atoms
    are identifiers is converted by [infixToPrefix] to the prefix tokens of
    the tree and parsed back to the tree itself. *)
Theorem parse_toInfix (t : Node) :
  renderable t ->
  infixToPrefix (toInfix t) = prefix_tokens t /\
  parse (toInfix t) = t.
Proof.
  intros Hr. split; [apply infixToPrefix_toInfix, Hr|].
  unfold parse. rewrite (infixToPrefix_toInfix t Hr).
  rewrite <- (app_nil_r (prefix_tokens t)) at 1.
  unfold buildParseTree. rewrite rev_app_distr. simpl.
  rewrite <- (app_nil_r (rev (prefix_tokens t))).
  rewrite (buildParseTree_loop_prefix t (renderable_well_formed t Hr)).
  reflexivity.
Qed.

Lemma parse_toInfix_witness :
  infixToPrefix (toInfix (parse "a_1 > ~b * c")) = prefix_tokens (parse "a_1 > ~b * c") /\
  parse (toInfix (parse "a_1 > ~b * c")) = parse "a_1 > ~b * c".
Proof.
  apply (parse_toInfix (parse "a_1 > ~b * c")).
  vm_compute.
  apply renderable_binary; [tauto | apply renderable_atom; reflexivity|].
  apply renderable_binary; [tauto | | apply renderable_atom; reflexivity].
  apply renderable_not, renderable_atom. reflexivity.
Defined.

(** ** Evaluation: failures and dependence on the assignment *)

Lemma evaluate_not (values : gmap string bool) (l r : Node) :
  l <> nullptr ->
  evaluate (mkNode "~" l r) values = do a <- evaluate l values; Ok (negb a).
Proof. intros H. cbn [evaluate]. rewrite (no_children_left l r H). reflexivity. Qed.

Lemma evaluate_and (values : gmap string bool) (l r : Node) :
  l <> nullptr ->
  evaluate (mkNode "*" l r) values =
  do a <- evaluate l values; if a then evaluate r values else Ok false.
Proof. intros H. cbn [evaluate]. rewrite (no_children_left l r H). reflexivity. Qed.

Lemma evaluate_or (values : gmap string bool) (l r : Node) :
  l <> nullptr ->
  evaluate (mkNode "+" l r) values =
  do a <- evaluate l values; if a then Ok true else evaluate r values.
Proof. intros H. cbn [evaluate]. rewrite (no_children_left l r H). reflexivity. Qed.

Lemma evaluate_implies (values : gmap string bool) (l r : Node) :
  l <> nullptr ->
  evaluate (mkNode ">" l r) values =
  do a <- evaluate l values; if negb a then Ok true else evaluate r values.
Proof. intros H. cbn [evaluate]. rewrite (no_children_left l r H). reflexivity. Qed.

Lemma complete_children (values : gmap string bool) (value : string) (l r : Node) :
  complete values (mkNode value l r) -> complete values l /\ complete values r.
Proof.
  unfold complete. intros Hc.
  split; intros a Ha; apply Hc; apply collectAtoms_In in Ha;
    apply collectAtoms_In; simpl; tauto.
Qed.

(** X4: on a well-formed tree [evaluate] returns a boolean or fails by the
    exception of [unordered_map::at], never by a null pointer; and it fails
    only if the assignment lacks an atom of the tree. *)
Theorem evaluate_failure_mode (t : Node) (values : gmap string bool) :
  well_formed t ->
  (exists b, evaluate t values = Ok b) \/
  (evaluate t values = Fail OutOfRange /\ ~ complete values t).
Proof.
  induction 1 as [name Hname | l Hl IHl | op l r Hop Hl IHl Hr IHr].
  - simpl. unfold map_at. destruct (values !! name) as [b|] eqn:Hb; [eauto|].
    right. split; [reflexivity|]. intros Hc.
    destruct (Hc name) as [b' Hb']; [|congruence].
    apply collectAtoms_In. right. simpl. tauto.
  - pose proof (well_formed_not_null l Hl) as Hnn.
    rewrite (evaluate_not values l nullptr Hnn).
    destruct IHl as [[a Ha] | [Hf Hnc]].
    + rewrite Ha. simpl. eauto.
    + rewrite Hf. right. split; [reflexivity|].
      intros Hc. apply Hnc. exact (proj1 (complete_children _ _ _ _ Hc)).
  - pose proof (well_formed_not_null l Hl) as Hnn.
    assert (Hright : (exists b, evaluate r values = Ok b) \/
                     evaluate r values = Fail OutOfRange /\
                     ~ complete values (mkNode op l r)).
    { destruct IHr as [Hok | [Hf Hnc]]; [tauto|]. right. split; [assumption|].
      intros Hc. apply Hnc. exact (proj2 (complete_children _ _ _ _ Hc)). }
    destruct IHl as [[a Ha] | [Hf Hnc]].
    + destruct Hop as [-> | [-> | ->]].
      * rewrite evaluate_and, Ha by assumption. simpl.
        destruct a; [exact Hright | eauto].
      * rewrite evaluate_or, Ha by assumption. simpl.
        destruct a; [eauto | exact Hright].
      * rewrite evaluate_implies, Ha by assumption. simpl.
        destruct a; simpl; [exact Hright | eauto].
    + right. split.
      * destruct Hop as [-> | [-> | ->]];
          [rewrite evaluate_and | rewrite evaluate_or | rewrite evaluate_implies];
          try assumption; rewrite Hf; reflexivity.
      * intros Hc. apply Hnc. exact (proj1 (complete_children _ _ _ _ Hc)).
Qed.

Lemma evaluate_failure_mode_witness :
  (exists b, evaluate (parse "p * q") (<["p" := false]> ∅) = Ok b) \/
  (evaluate (parse "p * q") (<["p" := false]> ∅) = Fail OutOfRange /\
   ~ complete (<["p" := false]> ∅) (parse "p * q")).
Proof.
  apply (evaluate_failure_mode (parse "p * q") (<["p" := false]> ∅)).
  apply buildParseTree_well_formed. vm_compute. discriminate.
Defined.

(** X5: the result of [evaluate] on a well-formed tree depends only on the
    values the assignment gives to the atoms of the tree: two assignments
    that agree on them give the same result, failures included. *)
Theorem evaluate_depends_on_atoms (t : Node) (values values' : gmap string bool) :
  well_formed t ->
  (forall a, In a (collectAtoms t []) -> values !! a = values' !! a) ->
  evaluate t values = evaluate t values'.
Proof.
  induction 1 as [name Hname | l Hl IHl | op l r Hop Hl IHl Hr IHr]; intros Hag.
  - simpl. unfold map_at. rewrite (Hag name); [reflexivity|].
    apply collectAtoms_In. right. simpl. tauto.
  - pose proof (well_formed_not_null l Hl) as Hnn.
    rewrite !(evaluate_not _ l nullptr Hnn), IHl; [reflexivity|].
    intros a Ha. apply Hag. apply collectAtoms_In in Ha.
    apply collectAtoms_In. simpl. tauto.
  - pose proof (well_formed_not_null l Hl) as Hnn.
    assert (Hl' : evaluate l values = evaluate l values').
    { apply IHl. intros a Ha. apply Hag. apply collectAtoms_In in Ha.
      apply collectAtoms_In. simpl. tauto. }
    assert (Hr' : evaluate r values = evaluate r values').
    { apply IHr. intros a Ha. apply Hag. apply collectAtoms_In in Ha.
      apply collectAtoms_In. simpl. tauto. }
    destruct Hop as [-> | [-> | ->]].
    + rewrite !evaluate_and, Hl', Hr' by assumption. reflexivity.
    + rewrite !evaluate_or, Hl', Hr' by assumption. reflexivity.
    + rewrite !evaluate_implies, Hl', Hr' by assumption. reflexivity.
Qed.

Lemma evaluate_depends_on_atoms_witness :
  evaluate (parse "p > q") (<["p" := true]> (<["q" := false]> ∅)) =
  evaluate (parse "p > q") (<["r" := true]> (<["p" := true]> (<["q" := false]> ∅))).
Proof.
  apply (evaluate_depends_on_atoms (parse "p > q")).
  - apply buildParseTree_well_formed. vm_compute. discriminate.
  - intros a Ha. vm_compute in Ha. destruct Ha as [<- | [<- | []]]; reflexivity.
Defined.

(** ** The first two CNF passes under any assignment *)

Lemma eliminateImplications_evaluate (values : gmap string bool) (t : Node) :
  well_formed t ->
  evaluate (eliminateImplications t) values = evaluate t values.
Proof.
  induction 1 as [name Hname | l Hl IHl | op l r Hop Hl IHl Hr IHr].
  - reflexivity.
  - pose proof (well_formed_not_null l Hl) as Hnn.
    pose proof (implication_free_not_null _
                  (eliminateImplications_implication_free l Hl)) as Hnn'.
    cbn [eliminateImplications]. rewrite (no_children_left l nullptr Hnn).
    change ("~" =? ">") with false. cbv iota.
    rewrite !evaluate_not, IHl by assumption. reflexivity.
  - pose proof (well_formed_not_null l Hl) as Hnn.
    pose proof (implication_free_not_null _
                  (eliminateImplications_implication_free l Hl)) as Hnn'.
    cbn [eliminateImplications]. rewrite (no_children_left l r Hnn).
    destruct Hop as [-> | [-> | ->]].
    + change ("*" =? ">") with false. cbv iota.
      rewrite !evaluate_and, IHl, IHr by assumption. reflexivity.
    + change ("+" =? ">") with false. cbv iota.
      rewrite !evaluate_or, IHl, IHr by assumption. reflexivity.
    + change (">" =? ">") with true. cbv iota.
      rewrite evaluate_or by discriminate.
      rewrite evaluate_not, evaluate_implies, IHl, IHr by assumption.
      destruct (evaluate l values) as [a|e]; reflexivity.
Qed.

Lemma moveNegations_evaluate (values : gmap string bool) (t : Node) :
  implication_free t ->
  evaluate (moveNegations t) values = evaluate t values /\
  evaluate (moveNegations (mkNode "~" t nullptr)) values =
  evaluate (mkNode "~" t nullptr) values.
Proof.
  induction 1 as [name Hname | l Hl [IHl IHnl]
                 | l r Hl [IHl IHnl] Hr [IHr IHnr]
                 | l r Hl [IHl IHnl] Hr [IHr IHnr]].
  - rewrite moveNegations_leaf, moveNegations_not_atom by assumption. tauto.
  - pose proof (implication_free_not_null l Hl) as Hnn.
    split; [exact IHnl|].
    rewrite moveNegations_not_not, IHl.
    rewrite (evaluate_not values (mkNode "~" l nullptr)) by discriminate.
    rewrite evaluate_not by assumption.
    destruct (evaluate l values) as [a|e]; simpl;
      rewrite ?negb_involutive; reflexivity.
  - pose proof (implication_free_not_null l Hl) as Hnn.
    pose proof (nnf_not_null _ (moveNegations_nnf l Hl)) as Hnl.
    pose proof (nnf_not_null _ (proj2 (moveNegations_nnf_both l Hl))) as Hnnl.
    rewrite moveNegations_not_and, moveNegations_node;
      [| reflexivity | apply no_children_left, Hnn].
    rewrite evaluate_or, IHnl, IHnr by assumption.
    rewrite (evaluate_and values (moveNegations l)), IHl, IHr by assumption.
    split; [rewrite evaluate_and by assumption; reflexivity|].
    rewrite (evaluate_not values (mkNode "*" l r)) by discriminate.
    rewrite evaluate_and, !evaluate_not by (assumption || apply implication_free_not_null, Hr).
    destruct (evaluate l values) as [[]|e]; simpl; try reflexivity;
      destruct (evaluate r values) as [[]|e]; reflexivity.
  - pose proof (implication_free_not_null l Hl) as Hnn.
    pose proof (nnf_not_null _ (moveNegations_nnf l Hl)) as Hnl.
    pose proof (nnf_not_null _ (proj2 (moveNegations_nnf_both l Hl))) as Hnnl.
    rewrite moveNegations_not_or, moveNegations_node;
      [| reflexivity | apply no_children_left, Hnn].
    rewrite evaluate_and, IHnl, IHnr by assumption.
    rewrite (evaluate_or values (moveNegations l)), IHl, IHr by assumption.
    split; [rewrite evaluate_or by assumption; reflexivity|].
    rewrite (evaluate_not values (mkNode "+" l r)) by discriminate.
    rewrite evaluate_or, !evaluate_not by (assumption || apply implication_free_not_null, Hr).
    destruct (evaluate l values) as [[]|e]; simpl; try reflexivity;
      destruct (evaluate r values) as [[]|e]; reflexivity.
Qed.

(** X6: implication elimination followed by the negation pass leaves the
    outcome of [evaluate] as it is under every assignment, also one that
    lacks atoms: the same boolean or the same failure. *)
Theorem negation_normal_form_preserves_evaluate
    (t : Node) (values : gmap string bool) :
  well_formed t ->
  evaluate (moveNegations (eliminateImplications t)) values = evaluate t values.
Proof.
  intros Hwf.
  rewrite (proj1 (moveNegations_evaluate values _
                    (eliminateImplications_implication_free t Hwf))).
  apply eliminateImplications_evaluate, Hwf.
Qed.

Lemma negation_normal_form_preserves_evaluate_witness :
  evaluate (moveNegations (eliminateImplications (parse "~(p > q * r)")))
    (<["p" := true]> (<["q" := false]> ∅)) =
  evaluate (parse "~(p > q * r)") (<["p" := true]> (<["q" := false]> ∅)).
Proof.
  apply (negation_normal_form_preserves_evaluate (parse "~(p > q * r)")).
  apply buildParseTree_well_formed. vm_compute. discriminate.
Defined.

(** ** The shape of the tree that convertToCNF returns *)

(** X7: for a well-formed tree [convertToCNF] returns a tree in conjunctive
    normal form: a tree of [*] nodes over clauses, a clause being a tree of
    [+] nodes over atoms and negated atoms. *)
Theorem convertToCNF_returns_cnf (t : Node) :
  well_formed t -> exists c, convertToCNF t = Ok c /\ cnf c.
Proof.
  intros Hwf. destruct (convertToCNF_cnf t Hwf) as (c & Hc & Hcnf & _).
  eauto.
Qed.

Lemma convertToCNF_returns_cnf_witness :
  exists c, convertToCNF (parse "(a * b) + ~(c > d)") = Ok c /\ cnf c.
Proof.
  apply (convertToCNF_returns_cnf (parse "(a * b) + ~(c > d)")).
  apply buildParseTree_well_formed. vm_compute. discriminate.
Defined.

(** ** Precedence in the tree that is built *)

Lemma fold_shunt_cons (token : string) (tokens : list string) (s : shunt) :
  fold_left shunt_step (token :: tokens) s =
  fold_left shunt_step tokens (shunt_step s token).
Proof. reflexivity. Qed.

Lemma shunt_step_operator (s : shunt) (op : string) :
  op = "*" \/ op = "+" \/ op = ">" \/ op = "~" ->
  shunt_step s op =
  mkShunt (op :: ops (pop_higher op (ops s) (output s)))
          (output (pop_higher op (ops s) (output s))).
Proof. intros [-> | [-> | [-> | ->]]]; reflexivity. Qed.

Lemma buildParseTree_loop_atom (a : string) (tokens : list string) (st : list Node) :
  is_atom_token a ->
  buildParseTree_loop (a :: tokens) st = buildParseTree_loop tokens (leaf a :: st).
Proof.
  intros Ha. cbn [buildParseTree_loop].
  rewrite (atom_token_not_operator a Ha). reflexivity.
Qed.

Lemma buildParseTree_loop_binary (op : string) (tokens : list string)
    (l r : Node) (st : list Node) :
  op = "*" \/ op = "+" \/ op = ">" ->
  buildParseTree_loop (op :: tokens) (l :: r :: st) =
  buildParseTree_loop tokens (mkNode op l r :: st).
Proof. intros [-> | [-> | ->]]; reflexivity. Qed.

Lemma buildParseTree_loop_not (tokens : list string) (l : Node) (st : list Node) :
  buildParseTree_loop ("~" :: tokens) (l :: st) =
  buildParseTree_loop tokens (mkNode "~" l nullptr :: st).
Proof. reflexivity. Qed.

(** One token of the conversion loop at a time, then one token of the
    building loop at a time. *)
Ltac shunt_token :=
  rewrite fold_shunt_cons;
  first [ rewrite shunt_step_atom by assumption
        | rewrite shunt_step_operator by tauto ];
  cbn [ops output pop_higher app];
  repeat match goal with
         | |- context [(precedence ?x <? precedence ?y)%Z] =>
             let b := eval vm_compute in (precedence x <? precedence y)%Z in
             change (precedence x <? precedence y)%Z with b
         end;
  cbn [ops output pop_higher app].

Ltac build_token :=
  first [ rewrite buildParseTree_loop_atom by assumption
        | rewrite buildParseTree_loop_not
        | rewrite buildParseTree_loop_binary by tauto ].

Ltac parse_tokens :=
  unfold infixToPrefix_tokens, buildParseTree;
  cbn [rev app map];
  repeat match goal with
         | H : is_atom_token ?x |- context [swap_paren ?x] =>
             rewrite (atom_token_swap x H)
         end;
  repeat match goal with
         | |- context [swap_paren ?x] =>
             let y := eval vm_compute in (swap_paren x) in
             change (swap_paren x) with y
         end;
  repeat shunt_token;
  cbn [fold_left ops output flush_ops app rev];
  repeat build_token;
  reflexivity.

(** X8: between two binary operators the one of higher precedence binds
    tighter, on either side; and a negation, whose precedence is above that
    of every binary operator, binds tighter than each of them, [*]
    included, on either side. *)
Theorem precedence_grouping (a b c op1 op2 : string) :
  is_atom_token a -> is_atom_token b -> is_atom_token c ->
  op1 = "*" \/ op1 = "+" \/ op1 = ">" ->
  op2 = "*" \/ op2 = "+" \/ op2 = ">" ->
  ((precedence op1 < precedence op2)%Z ->
   buildParseTree (infixToPrefix_tokens [a; op1; b; op2; c]) =
     mkNode op1 (leaf a) (mkNode op2 (leaf b) (leaf c)) /\
   buildParseTree (infixToPrefix_tokens [a; op2; b; op1; c]) =
     mkNode op1 (mkNode op2 (leaf a) (leaf b)) (leaf c)) /\
  (precedence op1 < precedence "~")%Z /\
  buildParseTree (infixToPrefix_tokens ["~"; a; op1; b]) =
    mkNode op1 (mkNode "~" (leaf a) nullptr) (leaf b) /\
  buildParseTree (infixToPrefix_tokens [a; op1; "~"; b]) =
    mkNode op1 (leaf a) (mkNode "~" (leaf b) nullptr).
Proof.
  intros Ha Hb Hc Hop1 Hop2.
  split.
  - intros Hprec.
    destruct Hop1 as [-> | [-> | ->]]; destruct Hop2 as [-> | [-> | ->]];
      try (vm_compute in Hprec; discriminate);
      (split; parse_tokens).
  - destruct Hop1 as [-> | [-> | ->]];
      (split; [reflexivity|]); (split; parse_tokens).
Qed.

Lemma precedence_grouping_witness :
  buildParseTree (infixToPrefix_tokens ["p"; "+"; "q"; "*"; "r"]) =
    mkNode "+" (leaf "p") (mkNode "*" (leaf "q") (leaf "r")) /\
  buildParseTree (infixToPrefix_tokens ["p"; "*"; "q"; "+"; "r"]) =
    mkNode "+" (mkNode "*" (leaf "p") (leaf "q")) (leaf "r") /\
  buildParseTree (infixToPrefix_tokens ["~"; "p"; "*"; "q"]) =
    mkNode "*" (mkNode "~" (leaf "p") nullptr) (leaf "q") /\
  buildParseTree (infixToPrefix_tokens ["p"; "*"; "~"; "q"]) =
    mkNode "*" (leaf "p") (mkNode "~" (leaf "q") nullptr).
Proof.
  assert (Hp : is_atom_token "p") by reflexivity.
  assert (Hq : is_atom_token "q") by reflexivity.
  assert (Hr : is_atom_token "r") by reflexivity.
  destruct (precedence_grouping "p" "q" "r" "+" "*" Hp Hq Hr
              ltac:(tauto) ltac:(tauto)) as [Hbinary _].
  destruct (Hbinary ltac:(vm_compute; reflexivity)) as [Hright Hleft].
  destruct (precedence_grouping "p" "q" "r" "*" "*" Hp Hq Hr
              ltac:(tauto) ltac:(tauto)) as (_ & _ & Hnot_left & Hnot_right).
  repeat split; assumption.
Defined.

(** ** Chains of conjunctions and disjunctions *)

Lemma treeHeight_left_nested (op a : string) (rest : list string) :
  treeHeight (left_nested op a rest) = S (length rest).
Proof.
  unfold left_nested.
  assert (H : forall acc, (1 <= treeHeight acc)%nat ->
            treeHeight (fold_left (fun acc b => mkNode op acc (leaf b)) rest acc) =
            (treeHeight acc + length rest)%nat).
  { induction rest as [|b rest IH]; intros acc Hacc; simpl; [lia|].
    rewrite IH by (simpl; lia). simpl. lia. }
  rewrite H by (simpl; lia). simpl. lia.
Qed.

(** X9: a chain [a op b1 op b2 ...] of conjunctions, or of disjunctions,
    over atoms is built into the tree that groups to the left,
    [((a op b1) op b2) ...], whose height is the number of atoms. *)
Theorem and_or_chain_groups_left (op a : string) (rest : list string) :
  op = "*" \/ op = "+" ->
  is_atom_token a -> Forall is_atom_token rest ->
  buildParseTree (infixToPrefix_tokens (chain_tokens op a rest)) =
    left_nested op a rest /\
  treeHeight (buildParseTree (infixToPrefix_tokens (chain_tokens op a rest))) =
    S (length rest).
Proof.
  intros Hop Ha Hrest.
  assert (Hop' : op = "*" \/ op = "+" \/ op = ">") by tauto.
  rewrite (chain_groups_left op a rest Hop' Ha Hrest).
  split; [reflexivity | apply treeHeight_left_nested].
Qed.

Lemma and_or_chain_groups_left_witness :
  buildParseTree (infixToPrefix_tokens (chain_tokens "*" "p" ["q"; "r"])) =
    left_nested "*" "p" ["q"; "r"] /\
  treeHeight (buildParseTree (infixToPrefix_tokens (chain_tokens "*" "p" ["q"; "r"]))) = 3%nat.
Proof.
  apply (and_or_chain_groups_left "*" "p" ["q"; "r"]); [tauto | reflexivity|].
  repeat (constructor; [reflexivity|]). constructor.
Defined.

(** ** The atoms of a tree and the truth table *)

(** X10: the set that [collectAtoms] fills from the empty set is, in
    iteration order, a strictly increasing list without repetition of
    exactly the leaf values of the tree that are not operators. *)
Theorem collectAtoms_sorted_set (t : Node) :
  StronglySorted String_as_OT.lt (collectAtoms t []) /\
  NoDup (collectAtoms t []) /\
  forall a, In a (collectAtoms t []) <-> atom_in a t.
Proof.
  split; [apply collectAtoms_StronglySorted|].
  split; [apply StronglySorted_lt_NoDup, collectAtoms_StronglySorted|].
  intros a. rewrite collectAtoms_In. simpl. tauto.
Qed.

(** X11: the truth table of a well-formed tree with at most 30 atoms has the
    atoms in ascending order as columns and one row for each of the [2^n]
    numbers below [2^n]; in row [i] atom [j] has bit [n-1-j] of [i], as
    printed and in the assignment, the printed result is what [evaluate]
    returns under that assignment, and no two rows have the same
    assignment. *)
Theorem truth_table_up_to_30_atoms (t : Node) :
  well_formed t ->
  (length (collectAtoms t []) <= 30)%nat ->
  exists rows,
    generateTruthTable t = Ok (Table (collectAtoms t []) rows) /\
    length rows = (2 ^ length (collectAtoms t []))%nat /\
    NoDup (map row_assignment rows) /\
    forall (i : nat) (r : row),
      rows !! i = Some r ->
      evaluate t (row_assignment r) = Ok (row_result r) /\
      forall (j : nat) (a : string),
        collectAtoms t [] !! j = Some a ->
        let b := Z.testbit (Z.of_nat i)
                   (Z.of_nat (length (collectAtoms t []) - 1 - j)) in
        row_values r !! j = Some b /\ row_assignment r !! a = Some b.
Proof.
  intros Hwf Hn. exact (proj2 (truth_table_shape t Hwf Hn)).
Qed.

Lemma truth_table_up_to_30_atoms_witness :
  exists rows,
    generateTruthTable (parse "q > p") =
      Ok (Table (collectAtoms (parse "q > p") []) rows) /\
    length rows = (2 ^ length (collectAtoms (parse "q > p") []))%nat /\
    NoDup (map row_assignment rows) /\
    forall (i : nat) (r : row),
      rows !! i = Some r ->
      evaluate (parse "q > p") (row_assignment r) = Ok (row_result r) /\
      forall (j : nat) (a : string),
        collectAtoms (parse "q > p") [] !! j = Some a ->
        let b := Z.testbit (Z.of_nat i)
                   (Z.of_nat (length (collectAtoms (parse "q > p") []) - 1 - j)) in
        row_values r !! j = Some b /\ row_assignment r !! a = Some b.
Proof.
  apply (truth_table_up_to_30_atoms (parse "q > p")).
  - apply buildParseTree_well_formed. vm_compute. discriminate.
  - vm_compute. lia.
Defined.

(** ** The counters and the verdict of analyzeCNFValidity *)

(** X12: for every list of clauses of literals, the two counters that
    [analyzeCNFValidity] returns add up to the number of clauses, the flag
    it returns is true exactly when the count of non-tautological clauses is
    zero, and that is exactly when every clause holds some atom both plain
    and negated; for the empty list the flag is true and both counts are
    zero. *)
Theorem analyzeCNFValidity_counts (clauses : list (list string)) :
  Forall (Forall is_literal) clauses ->
  exists (verdict : bool) (valid_count invalid_count : Z),
    analyzeCNFValidity clauses = (verdict, valid_count, invalid_count) /\
    (0 <= valid_count)%Z /\ (0 <= invalid_count)%Z /\
    (valid_count + invalid_count)%Z = Z.of_nat (length clauses) /\
    (verdict = true <-> invalid_count = 0%Z) /\
    (verdict = true <-> Forall complementary clauses) /\
    (clauses = [] -> verdict = true /\ valid_count = 0%Z /\ invalid_count = 0%Z).
Proof.
  intros Hlit. rewrite analyzeCNFValidity_spec.
  eexists _, _, _. split; [reflexivity|].
  pose proof (counts_partition clauses) as Hpart.
  split; [lia|]. split; [lia|]. split; [lia|].
  assert (Hzero : Nat.eqb (non_tautological_count clauses) 0 = true <->
                  non_tautological_count clauses = 0%nat) by apply Nat.eqb_eq.
  split; [rewrite Hzero; lia|]. split.
  - rewrite Hzero, non_tautological_count_zero, Forall_forall.
    rewrite Forall_forall in Hlit.
    split; intros H c Hc.
    + apply clauseIsTautology_complementary; [apply Hlit, Hc|].
      apply H, list_elem_of_In, Hc.
    + apply clauseIsTautology_complementary;
        [apply Hlit, list_elem_of_In, Hc|].
      apply H, list_elem_of_In, Hc.
  - intros ->. repeat split; reflexivity.
Qed.

Lemma analyzeCNFValidity_counts_witness :
  exists (verdict : bool) (valid_count invalid_count : Z),
    analyzeCNFValidity [["p"; "~p"]; ["q"; "r"]] = (verdict, valid_count, invalid_count) /\
    (0 <= valid_count)%Z /\ (0 <= invalid_count)%Z /\
    (valid_count + invalid_count)%Z = Z.of_nat (length [["p"; "~p"]; ["q"; "r"]]) /\
    (verdict = true <-> invalid_count = 0%Z) /\
    (verdict = true <-> Forall complementary [["p"; "~p"]; ["q"; "r"]]) /\
    ([["p"; "~p"]; ["q"; "r"]] = [] ->
     verdict = true /\ valid_count = 0%Z /\ invalid_count = 0%Z).
Proof.
  apply (analyzeCNFValidity_counts [["p"; "~p"]; ["q"; "r"]]).
  assert (Hp : is_literal "p") by (left; discriminate).
  assert (Hq : is_literal "q") by (left; discriminate).
  assert (Hr : is_literal "r") by (left; discriminate).
  assert (Hnp : is_literal "~p")
    by (right; exists "p"; split; [discriminate | reflexivity]).
  repeat (constructor; [repeat (constructor; [assumption|]); constructor|]).
  constructor.
Defined.

(** ** The atoms of the tree that convertToCNF returns *)

Lemma atom_in_node (a value : string) (l r : Node) :
  l <> nullptr ->
  atom_in a (mkNode value l r) <-> atom_in a l \/ atom_in a r.
Proof.
  intros H. cbn [atom_in]. rewrite (no_children_left l r H).
  intuition discriminate.
Qed.

Lemma atom_in_not_atom (a name : string) :
  atom_in a (mkNode "~" (leaf name) nullptr) <-> atom_in a (leaf name).
Proof. rewrite atom_in_node by discriminate. simpl. tauto. Qed.

Lemma eliminateImplications_atoms (a : string) (t : Node) :
  well_formed t ->
  atom_in a (eliminateImplications t) <-> atom_in a t.
Proof.
  induction 1 as [name Hname | l Hl IHl | op l r Hop Hl IHl Hr IHr].
  - reflexivity.
  - pose proof (well_formed_not_null l Hl) as Hnn.
    pose proof (implication_free_not_null _
                  (eliminateImplications_implication_free l Hl)) as Hnn'.
    cbn [eliminateImplications]. rewrite (no_children_left l nullptr Hnn).
    change ("~" =? ">") with false. cbv iota.
    rewrite !atom_in_node, IHl by assumption. reflexivity.
  - pose proof (well_formed_not_null l Hl) as Hnn.
    pose proof (implication_free_not_null _
                  (eliminateImplications_implication_free l Hl)) as Hnn'.
    cbn [eliminateImplications]. rewrite (no_children_left l r Hnn).
    rewrite (atom_in_node a op l r Hnn).
    destruct Hop as [-> | [-> | ->]].
    + change ("*" =? ">") with false. cbv iota.
      rewrite atom_in_node, IHl, IHr by assumption. reflexivity.
    + change ("+" =? ">") with false. cbv iota.
      rewrite atom_in_node, IHl, IHr by assumption. reflexivity.
    + change (">" =? ">") with true. cbv iota.
      rewrite atom_in_node by discriminate.
      rewrite atom_in_node, IHl, IHr by assumption. simpl. tauto.
Qed.

Lemma moveNegations_atoms (a : string) (t : Node) :
  implication_free t ->
  (atom_in a (moveNegations t) <-> atom_in a t) /\
  (atom_in a (moveNegations (mkNode "~" t nullptr)) <-> atom_in a t).
Proof.
  induction 1 as [name Hname | l Hl [IHl IHnl]
                 | l r Hl [IHl IHnl] Hr [IHr IHnr]
                 | l r Hl [IHl IHnl] Hr [IHr IHnr]].
  - rewrite moveNegations_leaf, moveNegations_not_atom by assumption.
    rewrite atom_in_not_atom. tauto.
  - pose proof (implication_free_not_null l Hl) as Hnn.
    rewrite moveNegations_not_not, atom_in_node by assumption.
    simpl. tauto.
  - pose proof (implication_free_not_null l Hl) as Hnn.
    pose proof (nnf_not_null _ (moveNegations_nnf l Hl)) as Hnl.
    pose proof (nnf_not_null _ (proj2 (moveNegations_nnf_both l Hl))) as Hnnl.
    rewrite moveNegations_not_and, moveNegations_node;
      [| reflexivity | apply no_children_left, Hnn].
    rewrite !atom_in_node by assumption. tauto.
  - pose proof (implication_free_not_null l Hl) as Hnn.
    pose proof (nnf_not_null _ (moveNegations_nnf l Hl)) as Hnl.
    pose proof (nnf_not_null _ (proj2 (moveNegations_nnf_both l Hl))) as Hnnl.
    rewrite moveNegations_not_or, moveNegations_node;
      [| reflexivity | apply no_children_left, Hnn].
    rewrite !atom_in_node by assumption. tauto.
Qed.

Lemma distribute_rec_atoms (a : string) (n : nat) :
  forall t c, nnf t -> distribute_rec n t = Ok c ->
    (atom_in a c <-> atom_in a t).
Proof.
  induction n as [|n IH]; intros t c Hnnf Hrun; [discriminate|].
  destruct Hnnf as [name Hname | name Hname | l r Hl Hr | l r Hl Hr].
  - inversion Hrun; subst. reflexivity.
  - rewrite distribute_rec_node in Hrun. cbn [no_children leaf] in Hrun.
    destruct n as [|n]; [discriminate|]. simpl in Hrun. inversion Hrun; subst.
    reflexivity.
  - rewrite distribute_rec_node in Hrun.
    rewrite (no_children_left l r (nnf_not_null l Hl)) in Hrun.
    apply bind_Ok in Hrun. destruct Hrun as (A & HA & Hrun).
    apply bind_Ok in Hrun. destruct Hrun as (B & HB & Hrun).
    change ("*" =? "+") with false in Hrun. cbv iota in Hrun.
    inversion Hrun; subst.
    pose proof (cnf_not_null _ (proj1 (distribute_rec_sound _ _ _ Hl HA))).
    rewrite !atom_in_node, (IH _ _ Hl HA), (IH _ _ Hr HB)
      by (assumption || apply nnf_not_null, Hl).
    reflexivity.
  - rewrite distribute_rec_node in Hrun.
    rewrite (no_children_left l r (nnf_not_null l Hl)) in Hrun.
    apply bind_Ok in Hrun. destruct Hrun as (A & HA & Hrun).
    apply bind_Ok in Hrun. destruct Hrun as (B & HB & Hrun).
    change ("+" =? "+") with true in Hrun. cbv iota in Hrun.
    assert (HcA : cnf A) by apply (distribute_rec_sound _ _ _ Hl HA).
    assert (HcB : cnf B) by apply (distribute_rec_sound _ _ _ Hr HB).
    rewrite (atom_in_node a "+" l r (nnf_not_null l Hl)).
    rewrite <- (IH _ _ Hl HA), <- (IH _ _ Hr HB).
    destruct A as [|avalue aleft aright]; [discriminate|].
    destruct (cnf_cases _ _ _ HcA) as [(-> & Ha1 & Ha2) | (HnA & HclA)].
    + change ("*" =? "*") with true in Hrun. cbv iota in Hrun.
      apply bind_Ok in Hrun. destruct Hrun as (x & Hx & Hrun).
      apply bind_Ok in Hrun. destruct Hrun as (y & Hy & Hrun).
      inversion Hrun; subst.
      pose proof (IH _ _ (nnf_or _ _ (cnf_nnf _ Ha1) (cnf_nnf _ HcB)) Hx) as Hax.
      pose proof (IH _ _ (nnf_or _ _ (cnf_nnf _ Ha2) (cnf_nnf _ HcB)) Hy) as Hay.
      pose proof (cnf_not_null _
        (proj1 (distribute_rec_sound _ _ _
                  (nnf_or _ _ (cnf_nnf _ Ha1) (cnf_nnf _ HcB)) Hx))) as Hxn.
      pose proof (cnf_not_null _ Ha1). pose proof (cnf_not_null _ Ha2).
      rewrite atom_in_node, Hax, Hay, !atom_in_node by assumption.
      tauto.
    + rewrite HnA in Hrun.
      destruct B as [|bvalue bleft bright]; [discriminate|].
      destruct (cnf_cases _ _ _ HcB) as [(-> & Hb1 & Hb2) | (HnB & HclB)].
      * change ("*" =? "*") with true in Hrun. cbv iota in Hrun.
        apply bind_Ok in Hrun. destruct Hrun as (x & Hx & Hrun).
        apply bind_Ok in Hrun. destruct Hrun as (y & Hy & Hrun).
        inversion Hrun; subst.
        pose proof (IH _ _ (nnf_or _ _ (cnf_nnf _ HcA) (cnf_nnf _ Hb1)) Hx) as Hax.
        pose proof (IH _ _ (nnf_or _ _ (cnf_nnf _ HcA) (cnf_nnf _ Hb2)) Hy) as Hay.
        pose proof (cnf_not_null _
          (proj1 (distribute_rec_sound _ _ _
                    (nnf_or _ _ (cnf_nnf _ HcA) (cnf_nnf _ Hb1)) Hx))) as Hxn.
        pose proof (cnf_not_null _ Hb1).
        rewrite atom_in_node, Hax, Hay by assumption.
        rewrite !(atom_in_node a "+" (mkNode avalue aleft aright)) by discriminate.
        rewrite (atom_in_node a "*" bleft bright) by assumption.
        tauto.
      * rewrite HnB in Hrun. inversion Hrun; subst.
        rewrite atom_in_node by discriminate. reflexivity.
Qed.

Lemma convertToCNF_atom_in (a : string) (t c : Node) :
  well_formed t -> convertToCNF t = Ok c ->
  (atom_in a c <-> atom_in a t).
Proof.
  intros Hwf Hc. unfold convertToCNF, distributeOrOverAnd in Hc.
  pose proof (eliminateImplications_implication_free t Hwf) as Hif.
  pose proof (moveNegations_nnf _ Hif) as Hnnf.
  rewrite (distribute_rec_atoms a _ _ _ Hnnf Hc).
  rewrite (proj1 (moveNegations_atoms a _ Hif)).
  apply eliminateImplications_atoms, Hwf.
Qed.

Lemma sorted_lists_equal (l1 l2 : list string) :
  StronglySorted String_as_OT.lt l1 ->
  StronglySorted String_as_OT.lt l2 ->
  (forall a, In a l1 <-> In a l2) ->
  l1 = l2.
Proof.
  intros H1. revert l2.
  induction H1 as [|x l1 Hs1 IH Hall1]; intros l2 H2 Hiff.
  - destruct l2 as [|y l2]; [reflexivity|].
    exfalso. apply (Hiff y). left. reflexivity.
  - destruct H2 as [|y l2 Hs2 Hall2].
    { exfalso. apply (Hiff x). left. reflexivity. }
    rewrite Forall_forall in Hall1, Hall2.
    assert (Hirr : forall z, ~ String_as_OT.lt z z)
      by (intros z; apply (StrictOrder_Irreflexive (R := String_as_OT.lt))).
    assert (Htr : forall u v w, String_as_OT.lt u v -> String_as_OT.lt v w ->
                                String_as_OT.lt u w)
      by (intros u v w; apply (StrictOrder_Transitive (R := String_as_OT.lt))).
    assert (Hxy : x = y).
    { destruct (proj1 (Hiff x) (or_introl eq_refl)) as [Hyx | Hin2]; [congruence|].
      destruct (proj2 (Hiff y) (or_introl eq_refl)) as [Hxy | Hin1]; [congruence|].
      exfalso. apply (Hirr x), (Htr x y x).
      - apply Hall1, list_elem_of_In, Hin1.
      - apply Hall2, list_elem_of_In, Hin2. }
    subst y. f_equal. apply IH; [assumption|].
    intros a. split; intros Ha.
    + destruct (proj1 (Hiff a) (or_intror Ha)) as [Hax | Hin]; [|assumption].
      subst a. exfalso. apply (Hirr x), Hall1, list_elem_of_In, Ha.
    + destruct (proj2 (Hiff a) (or_intror Ha)) as [Hax | Hin]; [|assumption].
      subst a. exfalso. apply (Hirr x), Hall2, list_elem_of_In, Ha.
Qed.

(** X13: the tree that [convertToCNF] returns for a well-formed tree has
    exactly the atoms of that tree: [collectAtoms] gives the same sorted
    set for both, so the truth tables of the two have the same columns. *)
Theorem convertToCNF_keeps_atoms (t : Node) :
  well_formed t ->
  exists c, convertToCNF t = Ok c /\ collectAtoms c [] = collectAtoms t [].
Proof.
  intros Hwf. destruct (convertToCNF_cnf t Hwf) as (c & Hc & _).
  exists c. split; [exact Hc|].
  apply sorted_lists_equal; try apply collectAtoms_StronglySorted.
  intros a. rewrite !collectAtoms_In. simpl.
  rewrite (convertToCNF_atom_in a t c Hwf Hc). reflexivity.
Qed.

Lemma convertToCNF_keeps_atoms_witness :
  exists c, convertToCNF (parse "(b > a) + ~(c * a)") = Ok c /\
            collectAtoms c [] = collectAtoms (parse "(b > a) + ~(c * a)") [].
Proof.
  apply (convertToCNF_keeps_atoms (parse "(b > a) + ~(c * a)")).
  apply buildParseTree_well_formed. vm_compute. discriminate.
Defined.

(** ** Clause extraction keeps the meaning *)

Lemma getLiterals_clause_literals (u : Node) :
  clause u ->
  forall literals, getLiterals u literals = Ok (literals ++ clause_literals u).
Proof.
  induction 1 as [name Hname | name Hname | l r Hl IHl Hr IHr]; intros literals.
  - apply isOperator_false in Hname. destruct Hname as (_ & Hor & _ & Hnot).
    cbn [getLiterals clause_literals leaf]. rewrite Hor, Hnot. reflexivity.
  - reflexivity.
  - cbn [getLiterals clause_literals]. change ("+" =? "+") with true. cbv iota.
    rewrite IHl, bind_Ok_eq, IHr, app_assoc. reflexivity.
Qed.

Lemma collectClauses_cnf_clauses (c : Node) :
  cnf c ->
  forall clauses, collectClauses c clauses = Ok (clauses ++ cnf_clauses c).
Proof.
  induction 1 as [u Hu | l r Hl IHl Hr IHr]; intros clauses.
  - destruct u as [|value l r]; [inversion Hu|].
    cbn [collectClauses cnf_clauses]. rewrite (clause_value_not_and _ _ _ Hu).
    rewrite (getLiterals_clause_literals _ Hu []). reflexivity.
  - cbn [collectClauses cnf_clauses]. change ("*" =? "*") with true. cbv iota.
    rewrite IHl, bind_Ok_eq, IHr, app_assoc. reflexivity.
Qed.

Lemma plain_atoms_children (value : string) (l r : Node) :
  l <> nullptr ->
  plain_atoms (mkNode value l r) -> plain_atoms l /\ plain_atoms r.
Proof.
  unfold plain_atoms. intros Hnn H.
  split; intros a Ha; apply H; apply atom_in_node; tauto.
Qed.

Lemma lit_value_plain (values : gmap string bool) (a : string) :
  is_atom_name a -> lit_value values a = default false (values !! a).
Proof.
  unfold lit_value, is_atom_name. intros Ha.
  destruct (Ascii.eqb_spec (first_char a) "~"%char); [contradiction | reflexivity].
Qed.

Lemma lit_value_negated (values : gmap string bool) (a : string) :
  lit_value values (String.append "~" a) = negb (default false (values !! a)).
Proof. reflexivity. Qed.

Lemma clause_literals_value (values : gmap string bool) (u : Node) :
  clause u -> plain_atoms u ->
  existsb (lit_value values) (clause_literals u) = denote values u.
Proof.
  induction 1 as [name Hname | name Hname | l r Hl IHl Hr IHr]; intros Hplain.
  - pose proof (isOperator_false name) as Hops.
    destruct (proj1 Hops Hname) as (_ & Hor & _ & Hnot).
    cbn [clause_literals leaf]. rewrite Hor, Hnot. cbn [existsb].
    rewrite lit_value_plain, orb_false_r; [reflexivity|].
    apply Hplain. simpl. tauto.
  - change (clause_literals (mkNode "~" (leaf name) nullptr))
      with [String.append "~" name].
    cbn [existsb]. rewrite lit_value_negated, orb_false_r. reflexivity.
  - pose proof (nnf_not_null _ (clause_nnf _ Hl)) as Hnn.
    destruct (plain_atoms_children _ _ _ Hnn Hplain) as [Hpl Hpr].
    cbn [clause_literals]. change ("+" =? "+") with true. cbv iota.
    rewrite existsb_app, IHl, IHr, denote_or by assumption. reflexivity.
Qed.

Lemma cnf_clauses_value (values : gmap string bool) (c : Node) :
  cnf c -> plain_atoms c ->
  clauses_value values (cnf_clauses c) = denote values c.
Proof.
  unfold clauses_value.
  induction 1 as [u Hu | l r Hl IHl Hr IHr]; intros Hplain.
  - destruct u as [|value l r]; [inversion Hu|].
    cbn [cnf_clauses]. rewrite (clause_value_not_and _ _ _ Hu).
    cbn [forallb]. rewrite andb_true_r.
    apply clause_literals_value; assumption.
  - pose proof (cnf_not_null _ Hl) as Hnn.
    destruct (plain_atoms_children _ _ _ Hnn Hplain) as [Hpl Hpr].
    cbn [cnf_clauses]. change ("*" =? "*") with true. cbv iota.
    rewrite forallb_app, IHl, IHr, denote_and by assumption. reflexivity.
Qed.

Lemma convertToCNF_plain_atoms (t c : Node) :
  well_formed t -> convertToCNF t = Ok c -> plain_atoms t -> plain_atoms c.
Proof.
  intros Hwf Hc Hplain a Ha. apply Hplain.
  apply (convertToCNF_atom_in a t c Hwf Hc), Ha.
Qed.

(** X14: for a well-formed tree whose atoms do not begin with ['~'],
    [collectClauses] succeeds on the tree that [convertToCNF] returns, and
    under every assignment that covers the atoms the original tree
    evaluates to true exactly when each extracted clause has a literal that
    is true. *)
Theorem clauses_keep_meaning (t : Node) (values : gmap string bool) :
  well_formed t -> plain_atoms t -> complete values t ->
  exists c clauses,
    convertToCNF t = Ok c /\
    collectClauses c [] = Ok clauses /\
    evaluate t values = Ok (clauses_value values clauses).
Proof.
  intros Hwf Hplain Hcomplete.
  destruct (convertToCNF_cnf t Hwf) as (c & Hc & Hcnf & _ & Hsem).
  exists c, (cnf_clauses c). split; [exact Hc|].
  split; [apply (collectClauses_cnf_clauses c Hcnf [])|].
  rewrite (cnf_clauses_value values c Hcnf
             (convertToCNF_plain_atoms t c Hwf Hc Hplain)).
  rewrite (proj1 (Hsem values)).
  apply evaluate_denote; [assumption|].
  apply complete_leaves_defined; assumption.
Qed.

(** ** The verdict of the validity analysis *)

Lemma assign_atoms_lookup (f : string -> bool) (atoms : list string) (a : string) :
  In a atoms -> assign_atoms f atoms !! a = Some (f a).
Proof.
  induction atoms as [|x atoms IH]; intros Hin; [contradiction|].
  simpl. destruct (decide (x = a)) as [->|Hne].
  - apply lookup_insert_eq.
  - rewrite lookup_insert_ne by assumption. apply IH.
    destruct Hin; [contradiction | assumption].
Qed.

Lemma clause_literals_atoms (u : Node) :
  clause u ->
  forall l, In l (clause_literals u) ->
    exists a, atom_in a u /\ (l = a \/ l = String.append "~" a).
Proof.
  induction 1 as [name Hname | name Hname | lt rt Hl IHl Hr IHr]; intros l Hin.
  - pose proof (proj1 (isOperator_false name) Hname) as (_ & Hor & _ & Hnot).
    cbn [clause_literals leaf] in Hin. rewrite Hor, Hnot in Hin.
    destruct Hin as [<- | []]. exists name. simpl. tauto.
  - change (clause_literals (mkNode "~" (leaf name) nullptr))
      with [String.append "~" name] in Hin.
    destruct Hin as [<- | []]. exists name.
    rewrite atom_in_not_atom. simpl. tauto.
  - pose proof (nnf_not_null _ (clause_nnf _ Hl)) as Hnn.
    cbn [clause_literals] in Hin. change ("+" =? "+") with true in Hin.
    cbv iota in Hin. apply in_app_or in Hin.
    destruct Hin as [Hin | Hin];
      [destruct (IHl l Hin) as (a & Ha & Hl') | destruct (IHr l Hin) as (a & Ha & Hl')];
      exists a; rewrite atom_in_node by assumption; tauto.
Qed.

Lemma cnf_clauses_atoms (c : Node) :
  cnf c ->
  forall cl l, In cl (cnf_clauses c) -> In l cl ->
    exists a, atom_in a c /\ (l = a \/ l = String.append "~" a).
Proof.
  induction 1 as [u Hu | lt rt Hl IHl Hr IHr]; intros cl l Hcl Hin.
  - destruct u as [|value lt rt]; [inversion Hu|].
    cbn [cnf_clauses] in Hcl. rewrite (clause_value_not_and _ _ _ Hu) in Hcl.
    destruct Hcl as [<- | []]. apply clause_literals_atoms; assumption.
  - pose proof (cnf_not_null _ Hl) as Hnn.
    cbn [cnf_clauses] in Hcl. change ("*" =? "*") with true in Hcl.
    cbv iota in Hcl. apply in_app_or in Hcl.
    destruct Hcl as [Hcl | Hcl];
      [destruct (IHl cl l Hcl Hin) as (a & Ha & Hl') | destruct (IHr cl l Hcl Hin) as (a & Ha & Hl')];
      exists a; rewrite atom_in_node by assumption; tauto.
Qed.

Lemma complementary_true (values : gmap string bool) (cl : list string) :
  complementary cl -> existsb (lit_value values) cl = true.
Proof.
  intros (p & Hp & Hin & Hneg). apply existsb_exists.
  destruct (default false (values !! p)) eqn:Hv.
  - exists p. split; [assumption|]. rewrite lit_value_plain; assumption.
  - exists (String.append "~" p). split; [assumption|].
    rewrite lit_value_negated, Hv. reflexivity.
Qed.

Lemma some_clause_not_tautological (clauses : list (list string)) :
  non_tautological_count clauses <> 0%nat ->
  exists cl, In cl clauses /\ clauseIsTautology cl [] = false.
Proof.
  unfold non_tautological_count.
  induction clauses as [|c clauses IH]; [simpl; congruence|].
  cbn [List.filter]. destruct (clauseIsTautology c []) eqn:Hc; cbn [negb length].
  - intros H. destruct (IH H) as (cl & Hin & Hcl). exists cl. simpl. tauto.
  - intros _. exists c. simpl. tauto.
Qed.

(** The assignment that falsifies a clause without a complementary pair. *)
Lemma falsified_clause (t c : Node) (cl : list string) :
  well_formed t -> plain_atoms t -> convertToCNF t = Ok c -> cnf c ->
  In cl (cnf_clauses c) -> clauseIsTautology cl [] = false ->
  exists values, complete values t /\ existsb (lit_value values) cl = false.
Proof.
  intros Hwf Hplain Hc Hcnf Hcl Htaut.
  set (f := fun a => set_count (String.append "~" a) cl).
  exists (assign_atoms f (collectAtoms t [])). split.
  - intros a Ha. rewrite (assign_atoms_lookup f _ a Ha). eauto.
  - destruct (existsb _ cl) eqn:Hex; [|reflexivity]. exfalso.
    apply existsb_exists in Hex. destruct Hex as (l & Hl & Hval).
    destruct (cnf_clauses_atoms c Hcnf cl l Hcl Hl) as (a & Ha & Hform).
    assert (Hat : atom_in a t) by (apply (convertToCNF_atom_in a t c Hwf Hc), Ha).
    assert (Hin : In a (collectAtoms t [])) by (apply collectAtoms_In; tauto).
    pose proof (Hplain a Hat) as Hname.
    assert (Hlit : Forall is_literal cl).
    { apply Forall_forall. intros x Hx. apply list_elem_of_In in Hx.
      destruct (cnf_clauses_atoms c Hcnf cl x Hcl Hx) as (b & Hb & Hx').
      pose proof (Hplain b (proj1 (convertToCNF_atom_in b t c Hwf Hc) Hb)) as Hbn.
      destruct Hx' as [-> | ->]; [left; assumption | right; eauto]. }
    assert (Hnc : ~ complementary cl).
    { rewrite <- (clauseIsTautology_complementary cl Hlit). congruence. }
    destruct Hform as [-> | ->].
    + rewrite lit_value_plain, (assign_atoms_lookup f _ a Hin) in Hval by assumption.
      simpl in Hval. unfold f in Hval. apply set_count_In in Hval.
      apply Hnc. exists a. tauto.
    + rewrite lit_value_negated, (assign_atoms_lookup f _ a Hin) in Hval.
      simpl in Hval. unfold f in Hval.
      rewrite (proj2 (set_count_In _ _) Hl) in Hval. discriminate.
Qed.

Lemma verdict_tautology (t : Node) :
  well_formed t -> plain_atoms t ->
  exists c clauses verdict valid_count invalid_count,
    convertToCNF t = Ok c /\
    collectClauses c [] = Ok clauses /\
    analyzeCNFValidity clauses = (verdict, valid_count, invalid_count) /\
    (verdict = true <-> tautology t).
Proof.
  intros Hwf Hplain.
  destruct (convertToCNF_cnf t Hwf) as (c & Hc & Hcnf & _ & Hsem).
  pose proof (convertToCNF_plain_atoms t c Hwf Hc Hplain) as Hplainc.
  exists c, (cnf_clauses c). eexists _, _, _.
  split; [exact Hc|].
  split; [apply (collectClauses_cnf_clauses c Hcnf [])|].
  split; [apply analyzeCNFValidity_spec|].
  assert (Heval : forall values, complete values t ->
            evaluate t values = Ok (clauses_value values (cnf_clauses c))).
  { intros values Hcomplete.
    rewrite (cnf_clauses_value values c Hcnf Hplainc), (proj1 (Hsem values)).
    apply evaluate_denote; [assumption|].
    apply complete_leaves_defined; assumption. }
  split.
  - intros Hv values Hcomplete. rewrite (Heval values Hcomplete). f_equal.
    apply Nat.eqb_eq in Hv.
    unfold clauses_value. apply forallb_forall. intros cl Hcl.
    apply complementary_true, clauseIsTautology_complementary.
    + apply Forall_forall. intros x Hx. apply list_elem_of_In in Hx.
      destruct (cnf_clauses_atoms c Hcnf cl x Hcl Hx) as (b & Hb & Hx').
      pose proof (Hplainc b Hb) as Hbn.
      destruct Hx' as [-> | ->]; [left; assumption | right; eauto].
    + apply (proj1 (non_tautological_count_zero _) Hv), Hcl.
  - intros Htaut.
    destruct (Nat.eqb (non_tautological_count (cnf_clauses c)) 0) eqn:Hv;
      [reflexivity|]. exfalso.
    apply Nat.eqb_neq in Hv.
    destruct (some_clause_not_tautological _ Hv) as (cl & Hcl & Hnt).
    destruct (falsified_clause t c cl Hwf Hplain Hc Hcnf Hcl Hnt)
      as (values & Hcomplete & Hfalse).
    pose proof (Htaut values Hcomplete) as Htrue.
    rewrite (Heval values Hcomplete) in Htrue. inversion Htrue as [Hcv].
    unfold clauses_value in Hcv.
    rewrite forallb_forall in Hcv. rewrite (Hcv cl Hcl) in Hfalse. discriminate.
Qed.

(** X15: for a well-formed tree whose atoms do not begin with ['~'], the
    flag that [analyzeCNFValidity] returns for the clauses collected from
    the tree [convertToCNF] returns is true exactly when the tree is a
    tautology: true under every assignment that covers its atoms. *)
Theorem verdict_decides_tautology (t : Node) :
  well_formed t -> plain_atoms t ->
  exists c clauses verdict valid_count invalid_count,
    convertToCNF t = Ok c /\
    collectClauses c [] = Ok clauses /\
    analyzeCNFValidity clauses = (verdict, valid_count, invalid_count) /\
    (verdict = true <-> tautology t).
Proof. exact (verdict_tautology t). Qed.

(** *** Trees parsed from text *)

Lemma flush_kinds (tokens : list string) :
  forall x, In x (infixToPrefix_tokens tokens) ->
    is_atom_token x \/ x = "(" \/ isOperator x = true.
Proof.
  unfold infixToPrefix_tokens.
  set (kinds := fun s : shunt =>
    (forall x, In x (ops s) -> x = "(" \/ isOperator x = true) /\
    (forall x, In x (output s) -> is_atom_token x \/ isOperator x = true)).
  assert (Hstep : forall s token, kinds s -> kinds (shunt_step s token)).
  { intros s token [Hops Hout]. unfold shunt_step.
    destruct (isalnum (first_char token)) eqn:Halnum.
    { split; [exact Hops|]. cbn [output]. intros x Hx.
      apply in_app_or in Hx. destruct Hx as [Hx | [<- | []]]; auto. }
    destruct (token =? "(") eqn:Hlp.
    { apply String.eqb_eq in Hlp; subst token.
      split; [|exact Hout]. cbn [ops]. intros x [<- | Hx]; auto. }
    destruct (token =? ")") eqn:Hrp.
    { destruct (pop_to_paren_split (ops s) (output s))
        as (popped & Hst & Hout' & Hno & Hrest).
      assert (Hk : kinds (pop_to_paren (ops s) (output s))).
      { split.
        - intros x Hx. apply Hops. rewrite Hst. apply in_or_app. tauto.
        - intros x Hx. rewrite Hout' in Hx. apply in_app_or in Hx.
          destruct Hx as [Hx | Hx]; [auto|].
          destruct (Hops x) as [-> | Hop]; [rewrite Hst; apply in_or_app; tauto | |];
            tauto. }
      destruct (ops (pop_to_paren (ops s) (output s))) as [|top st'] eqn:Heq;
        [exact Hk|].
      destruct Hk as [Hk1 Hk2]. split; [|exact Hk2].
      cbn [ops]. intros x Hx. apply Hk1. rewrite Heq. right. exact Hx. }
    destruct (isOperator token) eqn:Hop; [|split; assumption].
    destruct (pop_higher_split token (ops s) (output s) Hop)
      as (popped & Hst & Hout' & Hno).
    split.
    - cbn [ops]. intros x [<- | Hx]; [auto|].
      apply Hops. rewrite Hst. apply in_or_app. tauto.
    - cbn [output]. intros x Hx. rewrite Hout' in Hx. apply in_app_or in Hx.
      destruct Hx as [Hx | Hx]; [auto|].
      destruct (Hops x) as [-> | Hopx]; [rewrite Hst; apply in_or_app; tauto | |];
        tauto. }
  assert (Hfold : forall l s, kinds s -> kinds (fold_left shunt_step l s)).
  { induction l as [|token l IH]; intros s Hs; [exact Hs|].
    apply IH, Hstep, Hs. }
  destruct (Hfold (map swap_paren (rev tokens)) (mkShunt [] []))
    as [Hops Hout]; [split; intros x []|].
  intros x Hx. rewrite flush_ops_app in Hx.
  apply in_rev, in_app_or in Hx. destruct Hx as [Hx | Hx].
  - destruct (Hout x Hx); tauto.
  - destruct (Hops x Hx); tauto.
Qed.

Lemma atom_in_prefix_tokens (a : string) (t : Node) :
  atom_in a t -> In a (prefix_tokens t) /\ isOperator a = false.
Proof.
  induction t as [|value l IHl r IHr]; [contradiction|].
  cbn [atom_in prefix_tokens]. intros [(_ & Hop & ->) | [H | H]].
  - split; [left; reflexivity | assumption].
  - split; [right; apply in_or_app; left; apply IHl, H | apply IHl, H].
  - split; [right; apply in_or_app; right; apply IHr, H | apply IHr, H].
Qed.

Lemma parse_plain_atoms (infix_expr : string) :
  parse infix_expr <> nullptr -> plain_atoms (parse infix_expr).
Proof.
  intros Hres a Ha. unfold parse in *.
  destruct (atom_in_prefix_tokens a _ Ha) as [Hin Hop].
  unfold buildParseTree in Hin, Hres.
  rewrite (buildParseTree_loop_tokens _ _ Hres), rev_involutive, app_nil_r in Hin.
  unfold is_atom_name. intros Hfirst.
  destruct (flush_kinds _ a Hin) as [Hatom | [-> | Hop']].
  - unfold is_atom_token in Hatom. rewrite Hfirst in Hatom. discriminate.
  - discriminate.
  - congruence.
Qed.

(** X16: for every input line from which a tree is built, the CNF
    conversion and the clause extraction succeed, and the flag of
    [analyzeCNFValidity], which [main] reports as validity, is true exactly
    when the parsed formula is a tautology. *)
Theorem main_validity_report (infix_expr : string) :
  parse infix_expr <> nullptr ->
  exists c clauses verdict valid_count invalid_count,
    convertToCNF (parse infix_expr) = Ok c /\
    collectClauses c [] = Ok clauses /\
    analyzeCNFValidity clauses = (verdict, valid_count, invalid_count) /\
    (verdict = true <-> tautology (parse infix_expr)).
Proof.
  intros Hres. apply verdict_tautology.
  - apply buildParseTree_well_formed, Hres.
  - apply parse_plain_atoms, Hres.
Qed.

Lemma main_validity_report_witness :
  exists c clauses verdict valid_count invalid_count,
    convertToCNF (parse "(p > q) + (q > p)") = Ok c /\
    collectClauses c [] = Ok clauses /\
    analyzeCNFValidity clauses = (verdict, valid_count, invalid_count) /\
    (verdict = true <-> tautology (parse "(p > q) + (q > p)")).
Proof.
  apply (main_validity_report "(p > q) + (q > p)").
  vm_compute. discriminate.
Defined.

Lemma verdict_decides_tautology_witness :
  exists c clauses verdict valid_count invalid_count,
    convertToCNF (parse "p * ~p") = Ok c /\
    collectClauses c [] = Ok clauses /\
    analyzeCNFValidity clauses = (verdict, valid_count, invalid_count) /\
    (verdict = true <-> tautology (parse "p * ~p")).
Proof.
  apply (verdict_decides_tautology (parse "p * ~p")).
  - apply buildParseTree_well_formed. vm_compute. discriminate.
  - apply parse_plain_atoms. vm_compute. discriminate.
Defined.

Lemma clauses_keep_meaning_witness :
  exists c clauses,
    convertToCNF (parse "(a > b) * ~c") = Ok c /\
    collectClauses c [] = Ok clauses /\
    evaluate (parse "(a > b) * ~c")
      (<["a" := true]> (<["b" := true]> (<["c" := false]> ∅))) =
    Ok (clauses_value (<["a" := true]> (<["b" := true]> (<["c" := false]> ∅))) clauses).
Proof.
  apply (clauses_keep_meaning (parse "(a > b) * ~c")).
  - apply buildParseTree_well_formed. vm_compute. discriminate.
  - apply parse_plain_atoms. vm_compute. discriminate.
  - intros x Hx. vm_compute in Hx.
    destruct Hx as [<- | [<- | [<- | []]]]; eexists; vm_compute; reflexivity.
Defined.

(** ** What the tokenizer keeps *)

Lemma tokenize_space (c : ascii) (rest : string) :
  isspace c = true -> tokenize (String c rest) = tokenize rest.
Proof. intros Hs. simp tokenize. rewrite Hs. simp tokenize. reflexivity. Qed.

Lemma tokenize_alnum (c : ascii) (rest : string) :
  isalnum c = true ->
  tokenize (String c rest) =
  String c (fst (scan_atom rest)) :: tokenize (snd (scan_atom rest)).
Proof.
  intros Ha. simp tokenize. rewrite (isalnum_not_isspace c Ha). simp tokenize.
  rewrite Ha. simp tokenize. reflexivity.
Qed.

Lemma is_ident_not_space (c : ascii) : is_ident c = true -> isspace c = false.
Proof.
  destruct c as [[] [] [] [] [] [] [] []]; vm_compute; congruence.
Qed.

Lemma scan_atom_split (rest : string) :
  String.append (fst (scan_atom rest)) (snd (scan_atom rest)) = rest /\
  all_chars is_ident (fst (scan_atom rest)) = true.
Proof.
  induction rest as [|c rest [IH1 IH2]]; [split; reflexivity|].
  cbn [scan_atom]. fold (is_ident c).
  destruct (is_ident c) eqn:Hc; [|split; reflexivity].
  destruct (scan_atom rest) as [token rest'']; simpl in *.
  rewrite append_String, IH1, Hc, IH2. split; reflexivity.
Qed.

Lemma strip_spaces_run (run rest : string) :
  all_chars is_ident run = true ->
  strip_spaces (String.append run rest) = String.append run (strip_spaces rest).
Proof.
  induction run as [|c run IH]; intros Hrun; [reflexivity|].
  simpl in Hrun. apply andb_true_iff in Hrun. destruct Hrun as [Hc Hrun].
  rewrite !append_String. cbn [strip_spaces].
  rewrite (is_ident_not_space c Hc), (IH Hrun). reflexivity.
Qed.

Lemma all_chars_not_space (run : string) :
  all_chars is_ident run = true ->
  all_chars (fun c => negb (isspace c)) run = true.
Proof.
  induction run as [|c run IH]; [reflexivity|]. simpl.
  intros H. apply andb_true_iff in H. destruct H as [Hc Hrun].
  rewrite (is_ident_not_space c Hc), (IH Hrun). reflexivity.
Qed.

Lemma tokenize_keeps (n : nat) :
  forall expr, (String.length expr <= n)%nat ->
    join_tokens (tokenize expr) = strip_spaces expr /\
    Forall (fun token => token <> EmptyString /\
                         all_chars (fun c => negb (isspace c)) token = true)
           (tokenize expr).
Proof.
  induction n as [|n IH]; intros expr Hlen.
  - destruct expr; [|simpl in Hlen; lia]. simp tokenize. split; [reflexivity | constructor].
  - destruct expr as [|c rest]; [simp tokenize; split; [reflexivity | constructor]|].
    simpl in Hlen. destruct (isspace c) eqn:Hs.
    + rewrite (tokenize_space c rest Hs). cbn [strip_spaces]. rewrite Hs.
      apply IH. lia.
    + destruct (isalnum c) eqn:Ha.
      * rewrite (tokenize_alnum c rest Ha).
        destruct (scan_atom_split rest) as [Hsplit Hrun].
        pose proof (scan_atom_length rest) as Hshort.
        destruct (IH (snd (scan_atom rest)) ltac:(lia)) as [IHj IHf].
        split.
        -- cbn [join_tokens fold_right strip_spaces]. rewrite Hs.
           fold (join_tokens (tokenize (snd (scan_atom rest)))).
           rewrite IHj, append_String. f_equal.
           rewrite <- (strip_spaces_run _ _ Hrun), Hsplit. reflexivity.
        -- constructor; [|exact IHf]. split; [discriminate|].
           cbn [all_chars]. rewrite Hs. apply (all_chars_not_space _ Hrun).
      * rewrite (tokenize_symbol c rest Hs Ha).
        destruct (IH rest ltac:(lia)) as [IHj IHf].
        split.
        -- cbn [join_tokens fold_right strip_spaces]. rewrite Hs.
           fold (join_tokens (tokenize rest)).
           rewrite IHj. reflexivity.
        -- constructor; [|exact IHf]. split; [discriminate|].
           cbn [all_chars]. rewrite Hs. reflexivity.
Qed.

(** X17: the tokens of a text, put together again, are the text without
    its white space: the tokenizer drops white space and keeps every other
    character, in order; no token is empty and none holds white space. *)
Theorem tokenize_keeps_characters (expr : string) :
  join_tokens (tokenize expr) = strip_spaces expr /\
  Forall (fun token => token <> EmptyString /\
                       all_chars (fun c => negb (isspace c)) token = true)
         (tokenize expr).
Proof. apply (tokenize_keeps (String.length expr)). lia. Qed.

(** ** What the converter keeps and what it drops *)

Lemma operand_swap (tokens : list string) :
  List.filter operand_token (map swap_paren tokens) = List.filter operand_token tokens.
Proof.
  induction tokens as [|x tokens IH]; [reflexivity|].
  cbn [map List.filter]. rewrite IH. unfold swap_paren.
  destruct (x =? "(") eqn:Hl; [apply String.eqb_eq in Hl; subst x; reflexivity|].
  destruct (x =? ")") eqn:Hr; [apply String.eqb_eq in Hr; subst x; reflexivity|].
  reflexivity.
Qed.

Lemma filter_nil_app (l1 l2 : list string) :
  List.filter operand_token (l1 ++ l2) = [] ->
  List.filter operand_token l1 = [] /\ List.filter operand_token l2 = [].
Proof. rewrite List.filter_app. apply app_eq_nil. Qed.

Lemma shunt_step_operands (s : shunt) (token : string) :
  List.filter operand_token (ops s) = [] ->
  List.filter operand_token (ops (shunt_step s token)) = [] /\
  List.filter operand_token (output (shunt_step s token)) =
  List.filter operand_token (output s) ++ List.filter operand_token [token].
Proof.
  intros Hops. unfold shunt_step. cbn [List.filter]. fold (operand_token token).
  destruct (operand_token token) eqn:Hatom.
  { cbn [ops output]. rewrite List.filter_app. cbn [List.filter]. rewrite Hatom.
    split; [assumption | reflexivity]. }
  rewrite app_nil_r.
  destruct (token =? "(") eqn:Hlp.
  { cbn [ops output List.filter]. rewrite Hatom. split; [assumption | reflexivity]. }
  destruct (token =? ")") eqn:Hrp.
  { destruct (pop_to_paren_split (ops s) (output s))
      as (popped & Hst & Hout' & _ & _).
    rewrite Hst in Hops. apply filter_nil_app in Hops. destruct Hops as [Hp Hrest].
    assert (Hout : List.filter operand_token (output (pop_to_paren (ops s) (output s))) =
                   List.filter operand_token (output s))
      by (rewrite Hout', List.filter_app, Hp, app_nil_r; reflexivity).
    destruct (ops (pop_to_paren (ops s) (output s))) as [|top st'] eqn:Heq.
    - rewrite Heq. split; [reflexivity | exact Hout].
    - cbn [ops output]. split; [|exact Hout].
      cbn [List.filter] in Hrest. destruct (operand_token top); [discriminate|].
      exact Hrest. }
  destruct (isOperator token) eqn:Hop; [|split; [assumption | reflexivity]].
  destruct (pop_higher_split token (ops s) (output s) Hop)
    as (popped & Hst & Hout' & _).
  rewrite Hst in Hops. apply filter_nil_app in Hops. destruct Hops as [Hp Hrest].
  cbn [ops output List.filter]. rewrite Hatom, Hout', List.filter_app, Hp, app_nil_r.
  split; [assumption | reflexivity].
Qed.

Lemma fold_shunt_operands (tokens : list string) :
  forall s : shunt,
    List.filter operand_token (ops s) = [] ->
    List.filter operand_token (ops (fold_left shunt_step tokens s)) = [] /\
    List.filter operand_token (output (fold_left shunt_step tokens s)) =
    List.filter operand_token (output s) ++ List.filter operand_token tokens.
Proof.
  induction tokens as [|token tokens IH]; intros s Hs.
  - simpl. rewrite app_nil_r. tauto.
  - destruct (shunt_step_operands s token Hs) as [Hops Hout].
    destruct (IH _ Hops) as [IHops IHout].
    cbn [fold_left]. split; [exact IHops|].
    rewrite IHout, Hout, <- app_assoc, <- List.filter_app. reflexivity.
Qed.

(** X18: the operands of the prefix sequence are the operands of the token
    sequence, in the same order: the conversion moves operators and
    parentheses only. *)
Theorem infixToPrefix_keeps_operands (tokens : list string) :
  List.filter operand_token (infixToPrefix_tokens tokens) =
  List.filter operand_token tokens.
Proof.
  unfold infixToPrefix_tokens.
  destruct (fold_shunt_operands (map swap_paren (rev tokens)) (mkShunt [] []) eq_refl)
    as [Hops Hout].
  rewrite flush_ops_app, List.filter_rev, List.filter_app, Hops, Hout, app_nil_r.
  cbn [output List.filter app].
  rewrite operand_swap, List.filter_rev, rev_involutive. reflexivity.
Qed.

Lemma shunt_step_unknown (s : shunt) (token : string) :
  known_token token = false -> shunt_step s token = s.
Proof.
  unfold known_token, operand_token. intros H.
  apply orb_false_iff in H. destruct H as [H Hop].
  apply orb_false_iff in H. destruct H as [H Hrp].
  apply orb_false_iff in H. destruct H as [Hatom Hlp].
  unfold shunt_step. rewrite Hatom, Hlp, Hrp, Hop. reflexivity.
Qed.

Lemma known_swap (token : string) :
  known_token (swap_paren token) = known_token token.
Proof.
  unfold swap_paren.
  destruct (token =? "(") eqn:Hl; [apply String.eqb_eq in Hl; subst; reflexivity|].
  destruct (token =? ")") eqn:Hr; [apply String.eqb_eq in Hr; subst; reflexivity|].
  reflexivity.
Qed.

Lemma fold_shunt_known (tokens : list string) :
  forall s : shunt,
    fold_left shunt_step (List.filter known_token tokens) s =
    fold_left shunt_step tokens s.
Proof.
  induction tokens as [|token tokens IH]; intros s; [reflexivity|].
  cbn [List.filter fold_left]. destruct (known_token token) eqn:Hk.
  - cbn [fold_left]. apply IH.
  - rewrite (shunt_step_unknown s token Hk). apply IH.
Qed.

Lemma filter_known_swap (tokens : list string) :
  map swap_paren (List.filter known_token tokens) =
  List.filter known_token (map swap_paren tokens).
Proof.
  induction tokens as [|token tokens IH]; [reflexivity|].
  cbn [List.filter map]. rewrite known_swap.
  destruct (known_token token); cbn [map]; rewrite IH; reflexivity.
Qed.

(** X19: a token that is neither an operand, a parenthesis nor one of the
    four operators has no effect on the conversion: the prefix sequence is
    the one of the token sequence without such tokens. *)
Theorem infixToPrefix_ignores_unknown (tokens : list string) :
  infixToPrefix_tokens (List.filter known_token tokens) =
  infixToPrefix_tokens tokens.
Proof.
  unfold infixToPrefix_tokens.
  rewrite <- List.filter_rev, filter_known_swap, fold_shunt_known. reflexivity.
Qed.
